(** * Monte-Carlo tree search over kernel optimisations (tinygrad/engine/mcts.py)

    A shallow embedding of [MCTSNode], [expand_node] and [mcts_search], and
    the properties of the search that follow from the code.

    - Python objects live in an arena: a node is its index in a list of
      records, [parent] and [children] hold indices, and a mutation of a
      node is an update of its slot.  Index 0 is the root.
    - [t] and the timings are IEEE-754 binary64 numbers, as Python floats are.
    - The collaborators that are imported from other modules (the kernel
      class, the action generator, the compiler, the timer, the disk cache,
      the C library logarithm) are the fields of a [World].
    - A Python exception is an [Err (Raised _)] result.
    - Left out, as they do not bear on the result: the allocation of the
      buffers and the variable bindings (lines 28-29), which are handed
      unchanged to every timer call, the wall clock and the [DEBUG] prints. *)

From Stdlib Require Import ZArith Floats Uint63 Lia.
From stdpp Require Import base list strings.

Module MCTS.

(** ** Results and exceptions *)

Inductive exn := ValueError | ZeroDivisionError | AssertionError | IndexError.

(** [BadRef] (a reference to a node that does not exist) and [OutOfFuel]
    (a loop that did not finish within its bound) cannot be observed in
    Python; the embedding has them so that their absence is a theorem. *)
Inductive fault := Raised (e : exn) | BadRef | OutOfFuel.

Inductive result (A : Type) : Type :=
| Ok (a : A)
| Err (f : fault).
Arguments Ok {A} a.
Arguments Err {A} f.

Definition bind {A B : Type} (r : result A) (k : A -> result B) : result B :=
  match r with
  | Ok a => k a
  | Err f => Err f
  end.

Notation "'do' x <- e ; k" := (bind e (fun x => k))
  (at level 10, x name, e at level 100, k at level 200).

(** ** Python's float helpers *)

(** [float(n)] for a visit count.  Exact below 2^53, rounded to nearest even
    above, as in Python; visit counts are bounded by the iteration budget and
    stay far below the 2^63 at which the machine integer would wrap. *)
Definition float_of_nat (n : nat) : float :=
  PrimFloat.of_uint63 (Uint63.of_Z (Z.of_nat n)).

(** [x / n] with [n] an int: Python raises on a zero divisor. *)
Definition py_truediv (x : float) (n : nat) : result float :=
  match n with
  | O => Err (Raised ZeroDivisionError)
  | S _ => Ok (x / float_of_nat n)%float
  end.

(** [math.sqrt]: a domain error below zero ([-0.0] and NaN pass through). *)
Definition math_sqrt (x : float) : result float :=
  if (x <? 0)%float then Err (Raised ValueError) else Ok (PrimFloat.sqrt x).

(** [min(l)]: the first smallest element, [ValueError] on an empty list. *)
Fixpoint min_from (m : float) (l : list float) : float :=
  match l with
  | [] => m
  | x :: r => min_from (if (x <? m)%float then x else m) r
  end.

Definition py_min (l : list float) : result float :=
  match l with
  | [] => Err (Raised ValueError)
  | x :: r => Ok (min_from x r)
  end.

(** [sorted(l, key=lambda x: x[0], reverse=True)]: a stable sort into
    descending key order that compares keys with [<] only.  An element goes
    behind the elements whose key is strictly larger, and in front of those
    with an equal key that follow it in the input. *)
Fixpoint insert_desc {A : Type} (x : float * A) (l : list (float * A)) : list (float * A) :=
  match l with
  | [] => [x]
  | y :: r => if (fst x <? fst y)%float then y :: insert_desc x r else x :: y :: r
  end.

Definition sorted_reverse {A : Type} (l : list (float * A)) : list (float * A) :=
  foldr insert_desc [] l.

(** [list.remove(x)]: drops the first occurrence, [ValueError] if absent. *)
Fixpoint list_remove (x : nat) (l : list nat) : option (list nat) :=
  match l with
  | [] => None
  | y :: r => if Nat.eqb x y then Some r else option_map (cons y) (list_remove x r)
  end.

(** [C = math.sqrt(2)] *)
Definition C : float := PrimFloat.sqrt 2.

(** ** Predicates on floats used in the statements *)

Definition not_nan (x : float) : Prop := PrimFloat.is_nan x = false.

(** The sign bit of a specification float is clear (NaN has none). *)
Definition sign_clear (x : spec_float) : Prop :=
  match x with
  | S754_zero s | S754_infinity s | S754_finite s _ _ => s = false
  | S754_nan => True
  end.

(** Not strictly below zero: either zero, positive, or NaN. *)
Definition not_below_zero (x : spec_float) : Prop :=
  match x with
  | S754_infinity s | S754_finite s _ _ => s = false
  | S754_zero _ | S754_nan => True
  end.

(** ** The collaborators of the search *)

Record search_key := mk_key {
  key_ast : string;
  key_amt : Z;
  key_device : string;
  key_suffix : string
}.

Record World := {
  Kernel : Type;                 (* tinygrad.codegen.kernel.Kernel *)
  Opt : Type;                    (* an applied optimisation *)
  Program : Type;                (* what a successful compile returns *)
  Disk : Type;                   (* the state of the disk cache *)
  applied_opts : Kernel -> list Opt;
  apply_opt : Kernel -> Opt -> Kernel;   (* [k.copy()] followed by [apply_opt] *)
  ast_key : Kernel -> string;
  opts_device : Kernel -> string;
  opts_suffix : Kernel -> string;
  (* [get_kernel_actions(k, include_0=False).values()], in mapping order *)
  get_kernel_actions : Kernel -> list Kernel;
  (* [_try_compile_linearized_w_idx]: [None] when the compile fails *)
  compile_fn : Kernel -> option Program;
  (* [_time_program]; measurements are empirical, the first argument is the
     iteration in which the call is made, the last the early-stop bound *)
  time_program : nat -> Program -> float -> list float;
  (* the logarithm of the C library, which [math.log] calls *)
  ln : float -> float;
  IGNORE_BEAM_CACHE : Z;         (* getenv("IGNORE_BEAM_CACHE") *)
  CACHELEVEL : Z;
  diskcache_get : Disk -> string -> search_key -> option (list Opt);
  diskcache_put : Disk -> string -> search_key -> list Opt -> Disk
}.

(** ** Two small worlds, used to run the search on concrete inputs *)

Definition key_eqb (k1 k2 : search_key) : bool :=
  String.eqb (key_ast k1) (key_ast k2) && Z.eqb (key_amt k1) (key_amt k2) &&
  String.eqb (key_device k1) (key_device k2) && String.eqb (key_suffix k1) (key_suffix k2).

Fixpoint assoc_get (d : list (search_key * list nat)) (k : search_key) : option (list nat) :=
  match d with
  | [] => None
  | (k', v) :: r => if key_eqb k k' then Some v else assoc_get r k
  end.

(** A stand-in for the logarithm that is zero at one and not negative. *)
Definition toy_ln (x : float) : float :=
  let y := (x - 1)%float in if (0 <=? y)%float then y else 0%float.

(** Kernels are the lists of options applied to them; the cache is an
    association list. *)
Definition toy_world (actions : list nat -> list (list nat)) (compiles : list nat -> bool)
    (timer : nat -> list nat -> float -> list float) : World :=
  {| Kernel := list nat; Opt := nat; Program := list nat;
     Disk := list (search_key * list nat);
     applied_opts := fun k => k;
     apply_opt := fun k o => k ++ [o];
     ast_key := fun _ => "ast"; opts_device := fun _ => "CLANG"; opts_suffix := fun _ => "";
     get_kernel_actions := actions;
     compile_fn := fun k => if compiles k then Some k else None;
     time_program := timer;
     ln := toy_ln;
     IGNORE_BEAM_CACHE := 0; CACHELEVEL := 2;
     diskcache_get := fun d _ k => assoc_get d k;
     diskcache_put := fun d _ k v => (k, v) :: d |}.

(** No kernel has an action; every kernel compiles and runs in one second. *)
Definition leaf_world : World :=
  toy_world (fun _ => []) (fun _ => true) (fun _ _ _ => [1%float]).

(** Two actions per kernel down to depth two; the kernel [[1]] does not
    compile; a kernel runs faster the larger the sum of its options. *)
Definition tree_world : World :=
  toy_world (fun k => if Nat.ltb (length k) 2 then [k ++ [1]; k ++ [2]] else [])
            (fun k => negb (bool_decide (k = [1])))
            (fun _ k _ => [float_of_nat (10 - foldr Nat.add 0 k); 20%float]).

(** The actions of [tree_world], but no kernel compiles and the timer, were
    it called, would return no sample. *)
Definition barren_world : World :=
  toy_world (fun k => if Nat.ltb (length k) 2 then [k ++ [1]; k ++ [2]] else [])
            (fun _ => false) (fun _ _ _ => []).

Section Search.
Context (W : World).

(** [math.log(n)] for an int: a domain error unless [n] is positive. *)
Definition math_log (n : nat) : result float :=
  match n with
  | O => Err (Raised ValueError)
  | S _ => Ok (ln W (float_of_nat n))
  end.

(** ** The search tree *)

Record MCTSNode := mkNode {
  kernel : Kernel W;
  t : float;
  n : nat;
  parent : option nat;
  children : option (list nat)
}.

(** [MCTSNode(kernel, parent)] *)
Definition new_node (k : Kernel W) (p : option nat) : MCTSNode :=
  mkNode k 0%float 0 p None.

Definition set_children (nd : MCTSNode) (cs : option (list nat)) : MCTSNode :=
  mkNode (kernel nd) (t nd) (n nd) (parent nd) cs.

Abbreviation arena := (list MCTSNode).

Definition get (a : arena) (i : nat) : result MCTSNode :=
  match a !! i with
  | Some nd => Ok nd
  | None => Err BadRef
  end.

(** [expand_node]: one fresh node per action, appended to the arena in the
    order of the mapping, and their indices become [node.children]. *)
Definition expand_node (a : arena) (node : nat) : result arena :=
  do nd <- get a node;
  let ks := get_kernel_actions W (kernel nd) in
  let kids := seq (length a) (length ks) in
  Ok (<[node := set_children nd (Some kids)]> (a ++ ((fun k => new_node k (Some node)) <$> ks))).

(** ** Selection *)

(** The key that line 42 gives to [child] under [node]. *)
Definition ucb_score (node child : MCTSNode) : result float :=
  match n child with
  | O => Ok infinity
  | S _ =>
      do mean <- py_truediv (t child) (n child);
      do l <- math_log (n node);
      do q <- py_truediv l (n child);
      do s <- math_sqrt q;
      Ok (mean + C * s)%float
  end.

Fixpoint score_children (a : arena) (node : MCTSNode) (cs : list nat) : result (list (float * nat)) :=
  match cs with
  | [] => Ok []
  | c :: r =>
      do child <- get a c;
      do s <- ucb_score node child;
      do rest <- score_children a node r;
      Ok ((s, c) :: rest)
  end.

(** Lines 42-44: [ucb[0][1]]. *)
Definition select_child (a : arena) (node : MCTSNode) (cs : list nat) : result nat :=
  do scored <- score_children a node cs;
  match sorted_reverse scored with
  | [] => Err (Raised IndexError)
  | (_, c) :: _ => Ok c
  end.

(** Lines 38-44: the descent.  One unit of fuel per step down. *)
Fixpoint descend (fuel : nat) (a : arena) (node : nat) : result nat :=
  do nd <- get a node;
  match children nd with
  | None => Ok node
  | Some [] => Ok node
  | Some cs =>
      match fuel with
      | O => Err OutOfFuel
      | S fuel' =>
          do c <- select_child a nd cs;
          descend fuel' a c
      end
  end.

(** ** Backpropagation (lines 67-71) *)

Definition credit (nd : MCTSNode) (tm : float) : MCTSNode :=
  mkNode (kernel nd) (t nd + - (tm * 1e6))%float (S (n nd)) (parent nd) (children nd).

Fixpoint backprop (fuel : nat) (a : arena) (bnode : option nat) (tm : float) : result arena :=
  match bnode with
  | None => Ok a
  | Some b =>
      match fuel with
      | O => Err OutOfFuel
      | S fuel' =>
          do nd <- get a b;
          backprop fuel' (<[b := credit nd tm]> a) (parent nd) tm
      end
  end.

(** ** The driver loop *)

(** What an iteration did, recorded for the statements below; the code
    itself keeps no such record. *)
Inductive event :=
| EvExpand (node : nat) (kids : list nat)
| EvCompile (node : nat) (k : Kernel W) (ok : bool)
| EvPrune (node p : nat)
| EvTime (node : nat) (early_stop tm : float)
| EvBackprop (node : nat) (tm : float)
| EvStop (i : nat).

Record search_state := mkState {
  tree : arena;
  best : Kernel W;
  best_tm : float;
  events : list event
}.

Inductive control := Continue (st : search_state) | Break (st : search_state).

(** Lines 31 and 35. *)
Definition init_state (lin : Kernel W) : search_state :=
  mkState [new_node lin None] lin infinity [].

(** Lines 37-71: the body of the [for] loop, for iteration [i]. *)
Definition iteration (i : nat) (st : search_state) : result control :=
  do node <- descend (length (tree st)) (tree st) 0;
  do nd <- get (tree st) node;
  match children nd with
  | Some _ => Ok (Break (mkState (tree st) (best st) (best_tm st) (events st ++ [EvStop i])))
  | None =>
      do a1 <- expand_node (tree st) node;
      do nd1 <- get a1 node;
      let kids := default [] (children nd1) in
      match compile_fn W (kernel nd1) with
      | None =>
          let ev := events st ++ [EvExpand node kids; EvCompile node (kernel nd1) false] in
          match parent nd1 with
          | None => Ok (Continue (mkState a1 (best st) (best_tm st) ev))
          | Some p =>
              do pn <- get a1 p;
              match children pn with
              | None => Err (Raised AssertionError)
              | Some cs =>
                  match list_remove node cs with
                  | None => Err (Raised ValueError)
                  | Some cs' =>
                      Ok (Continue (mkState (<[p := set_children pn (Some cs')]> a1)
                                            (best st) (best_tm st) (ev ++ [EvPrune node p])))
                  end
              end
          end
      | Some prog =>
          let stop := (best_tm st * 10)%float in
          do tm <- py_min (time_program W i prog stop);
          let better := (tm <? best_tm st)%float in
          do a2 <- backprop (length a1) a1 (Some node) tm;
          Ok (Continue (mkState a2
                                (if better then kernel nd1 else best st)
                                (if better then tm else best_tm st)
                                (events st ++ [EvExpand node kids; EvCompile node (kernel nd1) true;
                                               EvTime node stop tm; EvBackprop node tm])))
      end
  end.

(** [for i in range(amt)] with its [break]. *)
Fixpoint run (idxs : list nat) (st : search_state) : result search_state :=
  match idxs with
  | [] => Ok st
  | i :: rest =>
      do c <- iteration i st;
      match c with
      | Continue st' => run rest st'
      | Break st' => Ok st'
      end
  end.

Definition py_range (amt : Z) : list nat := seq 0 (Z.to_nat amt).

(** What a call leaves behind: the kernel it returns, the disk cache, and
    (for the statements only) the tree and the record of events. *)
Record outcome := mkOutcome {
  ret : Kernel W;
  disk : Disk W;
  final_tree : arena;
  trace : list event
}.

Definition make_key (lin : Kernel W) (amt : Z) : search_key :=
  mk_key (ast_key W lin) amt (opts_device W lin) (opts_suffix W lin).

(** Line 23: the cache is consulted only when it is not ignored and
    [CACHELEVEL >= 1]. *)
Definition cache_lookup (d : Disk W) (key : search_key) : option (list (Opt W)) :=
  if Z.eqb (IGNORE_BEAM_CACHE W) 0 && Z.leb 1 (CACHELEVEL W)
  then diskcache_get W d "mcts_search" key
  else None.

(** Lines 24-26: the cached options beyond those [lin] already has, applied
    in order to a copy of [lin]. *)
Definition replay (lin : Kernel W) (val : list (Opt W)) : Kernel W :=
  fold_left (apply_opt W) (drop (length (applied_opts W lin)) val) lin.

Definition mcts_search (lin : Kernel W) (amt : Z) (d : Disk W) : result outcome :=
  let key := make_key lin amt in
  match cache_lookup d key with
  | Some val => Ok (mkOutcome (replay lin val) d [] [])
  | None =>
      do st <- run (py_range amt) (init_state lin);
      let d' := if Z.leb 1 (CACHELEVEL W)
                then diskcache_put W d "mcts_search" key (applied_opts W (best st))
                else d in
      Ok (mkOutcome (best st) d' (tree st) (events st))
  end.

(** ** Definitions used to state the properties *)

(** The score as section 4.2 of the specification words it. *)
Definition spec_score (node child : MCTSNode) : float :=
  if Nat.eqb (n child) 0 then infinity
  else (t child / float_of_nat (n child)
        + PrimFloat.sqrt 2 * PrimFloat.sqrt (ln W (float_of_nat (n node)) / float_of_nat (n child)))%float.

(** The chain that backpropagation walks: a node, its parent, ..., the root. *)
Fixpoint ancestors (fuel : nat) (a : arena) (b : option nat) : list nat :=
  match b, fuel with
  | Some b, S fuel' => b :: ancestors fuel' a (nd ← a !! b; parent nd)
  | _, _ => []
  end.

Definition path (a : arena) (w : nat) : list nat := ancestors (S w) a (Some w).

(** The completed rollouts of a run, oldest first: node and timing. *)
Fixpoint rollouts (evs : list event) : list (nat * float) :=
  match evs with
  | [] => []
  | EvBackprop node tm :: r => (node, tm) :: rollouts r
  | _ :: r => rollouts r
  end.

(** The rollouts in the subtree of [v]: those at [v] or at a node that has
    [v] among its ancestors. *)
Definition rollouts_within (a : arena) (v : nat) (evs : list event) : list (nat * float) :=
  filter (fun r => v ∈ path a (fst r)) (rollouts evs).

(** The sum that backpropagation accumulates in [t], in its order. *)
Definition reward_sum (tms : list float) : float :=
  fold_left (fun acc tm => acc + - (tm * 1e6))%float tms 0%float.

(** The kernels handed to the compiler, and the timer calls, of a run. *)
Fixpoint compiled (evs : list event) : list (Kernel W) :=
  match evs with
  | [] => []
  | EvCompile _ k _ :: r => k :: compiled r
  | _ :: r => compiled r
  end.

Fixpoint timed (evs : list event) : list nat :=
  match evs with
  | [] => []
  | EvTime node _ _ :: r => node :: timed r
  | _ :: r => timed r
  end.

(** Assumptions on the collaborators: the timer returns at least one
    sample, and the logarithm of a count of at least one is not negative. *)
Definition timer_nonempty : Prop :=
  forall i p e, time_program W i p e <> [].

Definition ln_nonneg : Prop :=
  forall k, (0 <=? ln W (float_of_nat (S k)))%float = true.

(** The shape that every tree of a run has. *)
Record wf (a : arena) : Prop := {
  wf_root : exists r, a !! 0 = Some r /\ parent r = None;
  wf_parent_lt : forall i nd p, a !! i = Some nd -> parent nd = Some p -> p < i;
  wf_parent_root : forall i nd, a !! i = Some nd -> parent nd = None -> i = 0;
  wf_children : forall i nd cs c, a !! i = Some nd -> children nd = Some cs -> c ∈ cs ->
                exists cn, a !! c = Some cn /\ parent cn = Some i;
  wf_nodup : forall i nd cs, a !! i = Some nd -> children nd = Some cs -> NoDup cs;
  wf_visits : forall c cn p pn, a !! c = Some cn -> parent cn = Some p -> a !! p = Some pn ->
              n cn <= n pn
}.

Definition state_of (c : control) : search_state :=
  match c with
  | Continue st | Break st => st
  end.

(** The states a search passes through, the one it ends in included. *)
Inductive reachable (lin : Kernel W) : search_state -> Prop :=
| reach_init : reachable lin (init_state lin)
| reach_step i st c :
    reachable lin st -> iteration i st = Ok c -> reachable lin (state_of c).

(** The indices that an expansion of [nd] gives to the new children. *)
Definition new_kids (st : search_state) (nd : MCTSNode) : list nat :=
  seq (length (tree st)) (length (get_kernel_actions W (kernel nd))).

(** The four ways an iteration can go. *)
Inductive iter_result (i : nat) (st : search_state) : control -> Prop :=
| iter_stop node nd :
    descend (length (tree st)) (tree st) 0 = Ok node ->
    tree st !! node = Some nd -> children nd = Some [] ->
    iter_result i st
      (Break (mkState (tree st) (best st) (best_tm st) (events st ++ [EvStop i])))
| iter_root_fail nd a1 :
    descend (length (tree st)) (tree st) 0 = Ok 0 ->
    tree st !! 0 = Some nd -> children nd = None -> parent nd = None ->
    expand_node (tree st) 0 = Ok a1 ->
    compile_fn W (kernel nd) = None ->
    iter_result i st
      (Continue (mkState a1 (best st) (best_tm st)
         (events st ++ [EvExpand 0 (new_kids st nd); EvCompile 0 (kernel nd) false])))
| iter_prune node nd a1 p pn cs cs' :
    descend (length (tree st)) (tree st) 0 = Ok node ->
    tree st !! node = Some nd -> children nd = None -> parent nd = Some p ->
    expand_node (tree st) node = Ok a1 ->
    compile_fn W (kernel nd) = None ->
    tree st !! p = Some pn -> children pn = Some cs -> node ∈ cs ->
    list_remove node cs = Some cs' ->
    iter_result i st
      (Continue (mkState (<[p := set_children pn (Some cs')]> a1) (best st) (best_tm st)
         ((events st ++ [EvExpand node (new_kids st nd); EvCompile node (kernel nd) false])
            ++ [EvPrune node p])))
| iter_rollout node nd a1 prog tm a2 :
    descend (length (tree st)) (tree st) 0 = Ok node ->
    tree st !! node = Some nd -> children nd = None ->
    expand_node (tree st) node = Ok a1 ->
    compile_fn W (kernel nd) = Some prog ->
    py_min (time_program W i prog (best_tm st * 10)%float) = Ok tm ->
    backprop (length a1) a1 (Some node) tm = Ok a2 ->
    iter_result i st
      (Continue (mkState a2
         (if (tm <? best_tm st)%float then kernel nd else best st)
         (if (tm <? best_tm st)%float then tm else best_tm st)
         (events st ++ [EvExpand node (new_kids st nd); EvCompile node (kernel nd) true;
                        EvTime node (best_tm st * 10)%float tm; EvBackprop node tm]))).

(** The steps of the descent: from a node with children to the selected one. *)
Inductive descends (a : arena) : nat -> nat -> Prop :=
| descends_here x : descends a x x
| descends_step x nd c0 cs c y :
    a !! x = Some nd -> children nd = Some (c0 :: cs) ->
    select_child a nd (c0 :: cs) = Ok c -> descends a c y -> descends a x y.

(** Every visit count and reward is the backpropagated credit of the
    completed rollouts in the node's subtree. *)
Definition accounted (st : search_state) : Prop :=
  forall v nd, tree st !! v = Some nd ->
    n nd = length (rollouts_within (tree st) v (events st)) /\
    t nd = reward_sum (snd <$> rollouts_within (tree st) v (events st)).

(** What holds of every state of a run. *)
Record inv (st : search_state) : Prop := {
  inv_wf : wf (tree st);
  inv_acct : accounted st;
  inv_range : forall r, r ∈ rollouts (events st) -> fst r < length (tree st);
  inv_best : not_nan (best_tm st)
}.

(** Modelled from the spec: [Kernel.apply_opt] is not among the sources.  The
    cache holds an "applied transformation sequence replayable onto the
    original kernel": applying an option records it as the last of the
    kernel's applied options. *)
Definition replay_law : Prop :=
  forall k o, applied_opts W (apply_opt W k o) = applied_opts W k ++ [o].

(** The new events of an iteration. *)
Definition new_events (st st' : search_state) : list event :=
  drop (length (events st)) (events st').

(** The reading of the overview of the specification: the kernel that an
    iteration compiles is the kernel of a child that the same iteration
    created. *)
Definition compiles_new_child (st st' : search_state) : Prop :=
  forall node k ok, EvCompile node k ok ∈ new_events st st' ->
    exists x kids c cn, EvExpand x kids ∈ new_events st st' /\ c ∈ kids /\
      tree st' !! c = Some cn /\ kernel cn = k.

(** The state after the iterations [idxs] from the start (the start itself
    if one of them raises). *)
Definition state_after (lin : Kernel W) (idxs : list nat) : search_state :=
  match run idxs (init_state lin) with
  | Ok st => st
  | Err _ => init_state lin
  end.

(** ** Definitions used to state further properties of the search *)

(** The nodes handed to the compiler, oldest first. *)
Fixpoint compiled_nodes (evs : list event) : list nat :=
  match evs with
  | [] => []
  | EvCompile node _ _ :: r => node :: compiled_nodes r
  | _ :: r => compiled_nodes r
  end.

(** The nodes dropped from the children of their parent. *)
Fixpoint pruned_nodes (evs : list event) : list nat :=
  match evs with
  | [] => []
  | EvPrune node _ :: r => node :: pruned_nodes r
  | _ :: r => pruned_nodes r
  end.

(** The kernels that the action generator reaches from [lin]. *)
Inductive derivable (lin : Kernel W) : Kernel W -> Prop :=
| derivable_here : derivable lin lin
| derivable_step k k' :
    derivable lin k -> k' ∈ get_kernel_actions W k -> derivable lin k'.

(** From one tree to a later one: no node is lost, kernels and parents
    stay, visit counts do not decrease, and an expanded node stays expanded
    with no other children than it had. *)
Definition grows (a a' : arena) : Prop :=
  length a <= length a' /\
  forall v x, a !! v = Some x ->
    exists x', a' !! v = Some x' /\ kernel x' = kernel x /\ parent x' = parent x /\
      n x <= n x' /\
      forall cs, children x = Some cs ->
        exists cs', children x' = Some cs' /\ forall y, y ∈ cs' -> y ∈ cs.

(** Assumption on the action generator: an action yields a kernel whose
    applied options extend those of the kernel it was generated from. *)
Definition actions_extend : Prop :=
  forall k k', k' ∈ get_kernel_actions W k ->
    exists o, applied_opts W k' = applied_opts W k ++ [o].

(** Assumption on the disk cache: an entry that was put is found. *)
Definition cache_law : Prop :=
  forall d tbl key v, diskcache_get W (diskcache_put W d tbl key v) tbl key = Some v.

(** Further facts that hold of every state of a run from [lin]. *)
Record inv_tree (lin : Kernel W) (st : search_state) : Prop := {
  it_parent_expanded : forall c cn p pn,
    tree st !! c = Some cn -> parent cn = Some p -> tree st !! p = Some pn ->
    children pn <> None;
  it_child_kernel : forall c cn p pn,
    tree st !! c = Some cn -> parent cn = Some p -> tree st !! p = Some pn ->
    kernel cn ∈ get_kernel_actions W (kernel pn);
  it_root_kernel : forall r, tree st !! 0 = Some r -> kernel r = lin;
  it_unexpanded : forall v nd,
    tree st !! v = Some nd -> children nd = None -> n nd = 0 /\ t nd = 0%float;
  it_compiled : forall node, node ∈ compiled_nodes (events st) ->
    exists nd, tree st !! node = Some nd /\ children nd <> None;
  it_compiled_nodup : NoDup (compiled_nodes (events st));
  it_timed : timed (events st) = fst <$> rollouts (events st);
  it_timed_compiled : timed (events st) `sublist_of` compiled_nodes (events st);
  it_rolled_compiles : forall r nd, r ∈ rollouts (events st) ->
    tree st !! fst r = Some nd -> compile_fn W (kernel nd) <> None;
  it_pruned : forall node, node ∈ pruned_nodes (events st) ->
    exists nd p pn cs, tree st !! node = Some nd /\ parent nd = Some p /\
      tree st !! p = Some pn /\ children pn = Some cs /\ (node ∉ cs);
  it_best_bound : forall r, r ∈ rollouts (events st) -> (snd r <? best_tm st)%float = false;
  it_best : (best st = lin /\ best_tm st = infinity) \/
            (exists r nd, r ∈ rollouts (events st) /\ tree st !! fst r = Some nd /\
                          kernel nd = best st /\ snd r = best_tm st)
}.

(** * Properties *)

(** ** The order of binary64 numbers *)

Ltac cmp_cases :=
  repeat match goal with
  | |- context [Z.compare ?a ?b] => destruct (Z.compare_spec a b)
  | H : context [Z.compare ?a ?b] |- _ => destruct (Z.compare_spec a b)
  | |- context [Pos.compare_cont Eq ?a ?b] =>
      change (Pos.compare_cont Eq a b) with (Pos.compare a b);
      destruct (Pos.compare_spec a b)
  | H : context [Pos.compare_cont Eq ?a ?b] |- _ =>
      change (Pos.compare_cont Eq a b) with (Pos.compare a b) in H;
      destruct (Pos.compare_spec a b)
  end; simpl in *; try congruence; try lia.

Lemma not_nan_spec x : not_nan x <-> Prim2SF x <> S754_nan.
Proof.
  unfold not_nan, PrimFloat.is_nan. rewrite FloatAxioms.eqb_spec. unfold SFeqb.
  destruct (Prim2SF x) as [s|s| |s m e]; simpl.
  - split; [discriminate|reflexivity].
  - destruct s; split; try discriminate; reflexivity.
  - split; [discriminate|congruence].
  - destruct s; rewrite Z.compare_refl, Pos.compare_cont_refl; simpl;
      split; try discriminate; reflexivity.
Qed.

Lemma SFltb_neg_trans x y z :
  x <> S754_nan -> y <> S754_nan -> z <> S754_nan ->
  SFltb x y = false -> SFltb y z = false -> SFltb x z = false.
Proof.
  unfold SFltb.
  destruct x as [sx|sx| |sx mx ex], y as [sy|sy| |sy my ey], z as [sz|sz| |sz mz ez];
    try congruence; intros _ _ _;
    try destruct sx; try destruct sy; try destruct sz; simpl; try congruence;
    intros; cmp_cases.
Qed.

Lemma SFltb_asym x y : SFltb x y = true -> SFltb y x = false.
Proof.
  unfold SFltb.
  destruct x as [sx|sx| |sx mx ex], y as [sy|sy| |sy my ey];
    try destruct sx; try destruct sy; simpl; try congruence;
    intros; cmp_cases.
Qed.

Lemma SFleb_refl x : x <> S754_nan -> SFleb x x = true.
Proof.
  unfold SFleb. destruct x as [sx|sx| |sx mx ex]; try destruct sx; simpl; try congruence;
    intros; rewrite Z.compare_refl, Pos.compare_cont_refl; reflexivity.
Qed.

Lemma SFleb_trans x y z : SFleb x y = true -> SFleb y z = true -> SFleb x z = true.
Proof.
  unfold SFleb.
  destruct x as [sx|sx| |sx mx ex], y as [sy|sy| |sy my ey], z as [sz|sz| |sz mz ez];
    try destruct sx; try destruct sy; try destruct sz; simpl; try congruence;
    intros; cmp_cases.
Qed.

Lemma ltb_irrefl x : (x <? x)%float = false.
Proof.
  destruct (x <? x)%float eqn:E; [|reflexivity].
  rewrite FloatAxioms.ltb_spec in E. pose proof (SFltb_asym _ _ E). congruence.
Qed.

Lemma ltb_asym x y : (x <? y)%float = true -> (y <? x)%float = false.
Proof. rewrite !FloatAxioms.ltb_spec. apply SFltb_asym. Qed.

Lemma ltb_neg_trans x y z :
  not_nan x -> not_nan y -> not_nan z ->
  (x <? y)%float = false -> (y <? z)%float = false -> (x <? z)%float = false.
Proof. rewrite !not_nan_spec, !FloatAxioms.ltb_spec. apply SFltb_neg_trans. Qed.

Lemma ltb_leb x y : (x <? y)%float = true -> (x <=? y)%float = true.
Proof.
  rewrite FloatAxioms.ltb_spec, FloatAxioms.leb_spec. unfold SFltb, SFleb.
  destruct (SFcompare _ _) as [[]|]; congruence.
Qed.

Lemma ltb_not_nan_l x y : (x <? y)%float = true -> not_nan x.
Proof.
  rewrite not_nan_spec, FloatAxioms.ltb_spec. unfold SFltb.
  intros H E. rewrite E in H. discriminate.
Qed.

Lemma leb_refl x : not_nan x -> (x <=? x)%float = true.
Proof. rewrite not_nan_spec, FloatAxioms.leb_spec. apply SFleb_refl. Qed.

Lemma leb_trans x y z :
  (x <=? y)%float = true -> (y <=? z)%float = true -> (x <=? z)%float = true.
Proof. rewrite !FloatAxioms.leb_spec. apply SFleb_trans. Qed.

(** Only infinity is not below infinity. *)
Lemma not_below_infinity x : not_nan x -> (x <? infinity)%float = false -> x = infinity.
Proof.
  rewrite not_nan_spec, FloatAxioms.ltb_spec. intros Hnan Hlt.
  apply Prim2SF_inj. change (Prim2SF infinity) with (S754_infinity false) in *.
  destruct (Prim2SF x) as [s|s| |s m e]; try done; destruct s; try done.
Qed.

(** ** The sign of a quotient *)

Lemma binary_round_aux_sign p e s m x l :
  match binary_round_aux p e s m x l with
  | S754_zero s' | S754_infinity s' | S754_finite s' _ _ => s' = s
  | S754_nan => True
  end.
Proof.
  unfold binary_round_aux.
  destruct (shr_fexp p e m x l) as [mrs' e'].
  destruct (shr_fexp p e _ e' loc_Exact) as [mrs'' e''].
  destruct (shr_m mrs''); auto.
  destruct (Z.leb e'' _); auto.
Qed.

Lemma binary_normalize_sign_clear p e z x :
  (0 <= z)%Z -> sign_clear (binary_normalize p e z x false).
Proof.
  intros Hz. destruct z as [|m|m]; simpl; auto; [|lia].
  unfold binary_round. destruct (shl_align _ _ _) as [mz ez].
  pose proof (binary_round_aux_sign p e false (Zpos mz) ez loc_Exact) as H.
  destruct (binary_round_aux _ _ _ _ _ _); simpl; auto.
Qed.

Lemma SFdiv_not_below_zero p e x y :
  not_below_zero x -> sign_clear y -> not_below_zero (SFdiv p e x y).
Proof.
  destruct x as [sx|sx| |sx mx ex], y as [sy|sy| |sy my ey]; simpl; intros; subst; auto.
  destruct (SFdiv_core_binary _ _ _ _ _ _) as [[mz ez] lz].
  pose proof (binary_round_aux_sign p e false mz ez lz) as H.
  simpl. destruct (binary_round_aux _ _ _ _ _ _); simpl; auto.
Qed.

Lemma SFleb_zero_not_below x : SFleb (S754_zero false) x = true -> not_below_zero x.
Proof. destruct x as [s|s| |s m e]; simpl; auto; destruct s; cbv; congruence. Qed.

Lemma not_below_zero_ltb x : not_below_zero x -> SFltb x (S754_zero false) = false.
Proof.
  destruct x as [s|s| |s m e]; simpl; auto; try destruct s; intros;
    try discriminate; reflexivity.
Qed.

Lemma float_of_nat_sign k : sign_clear (Prim2SF (float_of_nat k)).
Proof.
  unfold float_of_nat. rewrite FloatAxioms.of_uint63_spec.
  apply binary_normalize_sign_clear. apply Uint63.to_Z_bounded.
Qed.

Lemma truediv_not_below_zero (x : float) (k : nat) :
  (0 <=? x)%float = true -> (x / float_of_nat k <? 0)%float = false.
Proof.
  rewrite FloatAxioms.leb_spec, FloatAxioms.ltb_spec, FloatAxioms.div_spec.
  change (Prim2SF 0) with (S754_zero false). intros H.
  apply not_below_zero_ltb, SFdiv_not_below_zero.
  - by apply SFleb_zero_not_below.
  - apply float_of_nat_sign.
Qed.

(** ** Lists: [remove] and [sorted] *)

Lemma list_remove_Some x l : x ∈ l -> exists l', list_remove x l = Some l'.
Proof.
  induction l as [|y r IH]; intros Hin.
  - by apply elem_of_nil in Hin.
  - simpl. destruct (Nat.eqb x y) eqn:E; [eauto|].
    apply Nat.eqb_neq in E. apply elem_of_cons in Hin as [->|Hin]; [done|].
    destruct (IH Hin) as [l' ->]. simpl. eauto.
Qed.

Lemma list_remove_spec x l l' :
  list_remove x l = Some l' -> NoDup l ->
  (x ∉ l') /\ NoDup l' /\ (forall y, y ∈ l' <-> y ∈ l /\ y <> x).
Proof.
  revert l'. induction l as [|y r IH]; intros l' H Hnd; [discriminate|].
  simpl in H. apply NoDup_cons in Hnd as [Hy Hnd].
  destruct (Nat.eqb x y) eqn:E.
  - apply Nat.eqb_eq in E. subst y. inversion H; subst l'.
    split; [done|]. split; [done|]. intros z. rewrite elem_of_cons.
    split; [intros Hz; split; [by right|intros ->; done]|intros [[->|Hz] Hne]; done].
  - apply Nat.eqb_neq in E. destruct (list_remove x r) as [r'|] eqn:Er; [|discriminate].
    simpl in H. inversion H; subst l'. destruct (IH r' eq_refl Hnd) as (Hx & Hnd' & Hiff).
    split; [|split].
    + rewrite elem_of_cons. intros [->|Hx']; done.
    + apply NoDup_cons. split; [|done]. rewrite Hiff. intros [Hy' _]. done.
    + intros z. rewrite !elem_of_cons, Hiff. split.
      * intros [->|[Hz Hne]]; [split; [by left|congruence]|split; [by right|done]].
      * intros [[->|Hz] Hne]; [by left|right; done].
Qed.

(** The head of the sorted list is the first element of the input with a
    maximal key. *)
Lemma sorted_reverse_head {A : Type} (l : list (float * A)) :
  l <> [] -> (forall x, x ∈ l -> not_nan (fst x)) ->
  exists i k c rest,
    sorted_reverse l = (k, c) :: rest /\ l !! i = Some (k, c) /\
    (forall y, y ∈ l -> (k <? fst y)%float = false) /\
    (forall j y, j < i -> l !! j = Some y -> (fst y <? k)%float = true).
Proof.
  induction l as [|[kx cx] l IH]; intros Hne Hnan; [done|].
  destruct l as [|y0 l0].
  - exists 0, kx, cx, []. simpl. split; [done|]. split; [done|]. split.
    + intros y Hy. apply list_elem_of_singleton in Hy. subst y. apply ltb_irrefl.
    + intros j y Hj. lia.
  - destruct IH as (i & k & c & rest & Hs & Hi & Hmax & Hbefore); [done| |].
    { intros x Hx. apply Hnan. by right. }
    change (sorted_reverse ((kx, cx) :: y0 :: l0))
      with (insert_desc (kx, cx) (sorted_reverse (y0 :: l0))).
    rewrite Hs. simpl. destruct (kx <? k)%float eqn:E.
    + exists (S i), k, c, (insert_desc (kx, cx) rest). split; [done|]. split; [done|]. split.
      * intros y Hy. apply elem_of_cons in Hy as [->|Hy]; [by apply ltb_asym|by apply Hmax].
      * intros j y Hj Hy. destruct j as [|j]; simpl in Hy.
        -- inversion Hy; subst y. done.
        -- apply (Hbefore j); [lia|done].
    + exists 0, kx, cx, ((k, c) :: rest). split; [done|]. split; [done|]. split.
      * intros y Hy. apply elem_of_cons in Hy as [->|Hy]; [apply ltb_irrefl|].
        assert (Hk : (k, c) ∈ y0 :: l0) by (apply list_elem_of_lookup; eauto).
        apply (ltb_neg_trans kx k (fst y)); try done.
        -- apply (Hnan (kx, cx)). by left.
        -- apply (Hnan (k, c)). by right.
        -- apply (Hnan y). by right.
        -- by apply Hmax.
      * intros j y Hj. lia.
Qed.

Lemma insert_desc_elem {A : Type} (x y : float * A) l :
  y ∈ insert_desc x l <-> y = x \/ y ∈ l.
Proof.
  induction l as [|z r IH]; simpl.
  - rewrite list_elem_of_singleton, elem_of_nil. tauto.
  - destruct (fst x <? fst z)%float; rewrite !elem_of_cons; [rewrite IH|]; tauto.
Qed.

Lemma sorted_reverse_elem {A : Type} (y : float * A) l :
  y ∈ sorted_reverse l <-> y ∈ l.
Proof.
  induction l as [|x r IH]; [done|].
  change (sorted_reverse (x :: r)) with (insert_desc x (sorted_reverse r)).
  rewrite insert_desc_elem, IH, elem_of_cons. tauto.
Qed.

(** ** The arena *)

Lemma get_Ok a i nd : get a i = Ok nd <-> a !! i = Some nd.
Proof. unfold get. destruct (a !! i); split; congruence. Qed.

Lemma get_lookup a i nd : a !! i = Some nd -> get a i = Ok nd.
Proof. apply get_Ok. Qed.

Section Ancestors.
Variable a : arena.
Hypothesis Hlt : forall i nd p, a !! i = Some nd -> parent nd = Some p -> p < i.

Lemma ancestors_le fuel b x : x ∈ ancestors fuel a (Some b) -> x <= b.
Proof.
  revert b. induction fuel as [|f IH]; intros b; simpl; [by rewrite elem_of_nil|].
  rewrite elem_of_cons. intros [->|Hx]; [lia|].
  destruct (a !! b) as [nd|] eqn:Eb; simpl in Hx.
  - destruct (parent nd) as [p|] eqn:Ep.
    + specialize (IH _ Hx). specialize (Hlt _ _ _ Eb Ep). lia.
    + destruct f; by apply elem_of_nil in Hx.
  - destruct f; by apply elem_of_nil in Hx.
Qed.

Lemma ancestors_fuel f1 f2 b :
  b < f1 -> b < f2 -> ancestors f1 a (Some b) = ancestors f2 a (Some b).
Proof.
  revert f2 b. induction f1 as [|f1 IH]; intros f2 b H1 H2; [lia|].
  destruct f2 as [|f2]; [lia|]. simpl. f_equal.
  destruct (a !! b) as [nd|] eqn:Eb; simpl.
  - destruct (parent nd) as [p|] eqn:Ep.
    + specialize (Hlt _ _ _ Eb Ep). apply IH; lia.
    + by destruct f1, f2.
  - by destruct f1, f2.
Qed.

Lemma ancestors_parent_closed fuel b c cn p :
  b < fuel -> c ∈ ancestors fuel a (Some b) ->
  a !! c = Some cn -> parent cn = Some p -> p ∈ ancestors fuel a (Some b).
Proof.
  revert b. induction fuel as [|f IH]; intros b Hb; [lia|]. simpl.
  rewrite !elem_of_cons. intros [->|Hc] Ec Ep.
  - right. rewrite Ec. simpl. rewrite Ep. specialize (Hlt _ _ _ Ec Ep).
    destruct f as [|f]; [lia|]. simpl. by left.
  - right. destruct (a !! b) as [nd|] eqn:Eb; simpl in *.
    + destruct (parent nd) as [q|] eqn:Eq.
      * specialize (Hlt _ _ _ Eb Eq). apply IH; [lia|done..].
      * destruct f; by apply elem_of_nil in Hc.
    + destruct f; by apply elem_of_nil in Hc.
Qed.

Lemma ancestors_self fuel b : b < fuel -> b ∈ ancestors fuel a (Some b).
Proof. destruct fuel; [lia|]. intros _. simpl. by left. Qed.

Lemma ancestors_root fuel b :
  (forall i nd, a !! i = Some nd -> parent nd = None -> i = 0) ->
  b < length a -> b < fuel -> 0 ∈ ancestors fuel a (Some b).
Proof.
  intros Hroot. revert b. induction fuel as [|f IH]; intros b Hb Hf; [lia|].
  simpl. destruct (lookup_lt_is_Some_2 a b Hb) as [nd Eb]. rewrite Eb. simpl.
  destruct (parent nd) as [p|] eqn:Ep.
  - specialize (Hlt _ _ _ Eb Ep). right. apply IH; lia.
  - rewrite (Hroot _ _ Eb Ep). by left.
Qed.

(** Arenas that agree on the parent pointers up to [b] have the same chain. *)
Lemma ancestors_ext (a' : arena) fuel b :
  (forall i, i <= b -> (nd ← a' !! i; parent nd) = (nd ← a !! i; parent nd)) ->
  ancestors fuel a' (Some b) = ancestors fuel a (Some b).
Proof.
  revert b. induction fuel as [|f IH]; intros b Hext; [done|]. simpl.
  rewrite (Hext b) by lia. f_equal.
  destruct (a !! b) as [nd|] eqn:Eb; simpl.
  - destruct (parent nd) as [p|] eqn:Ep.
    + specialize (Hlt _ _ _ Eb Ep). apply IH. intros i Hi. apply Hext. lia.
    + by destruct f.
  - by destruct f.
Qed.

End Ancestors.

Lemma path_ext (a a' : arena) w :
  (forall i nd p, a !! i = Some nd -> parent nd = Some p -> p < i) ->
  (forall i, i <= w -> (nd ← a' !! i; parent nd) = (nd ← a !! i; parent nd)) ->
  path a' w = path a w.
Proof. intros Hlt Hext. unfold path. by apply ancestors_ext. Qed.

(** ** Backpropagation credits exactly the chain of ancestors *)

Lemma backprop_spec fuel (a : arena) b tm :
  (forall i nd p, a !! i = Some nd -> parent nd = Some p -> p < i) ->
  b < length a -> b < fuel ->
  exists a', backprop fuel a (Some b) tm = Ok a' /\ length a' = length a /\
    forall i nd, a !! i = Some nd ->
      a' !! i = Some (if bool_decide (i ∈ ancestors fuel a (Some b)) then credit nd tm else nd).
Proof.
  revert a b. induction fuel as [|f IH]; intros a b Hlt Hb Hf; [lia|].
  destruct (lookup_lt_is_Some_2 a b Hb) as [nd Eb].
  simpl. rewrite (get_lookup _ _ _ Eb). simpl. rewrite Eb. simpl.
  set (a1 := <[b := credit nd tm]> a).
  assert (Hpar : forall i, (x ← a1 !! i; parent x) = (x ← a !! i; parent x)).
  { intros i. unfold a1. destruct (decide (i = b)) as [->|Hne].
    - rewrite list_lookup_insert_eq by done. by rewrite Eb.
    - by rewrite list_lookup_insert_ne. }
  destruct (parent nd) as [p|] eqn:Ep.
  - assert (Hp : p < b) by (by apply (Hlt b nd p)).
    destruct (IH a1 p) as (a' & Hbp & Hlen & Hspec).
    + intros i x q Hi Hq. specialize (Hpar i). rewrite Hi in Hpar. simpl in Hpar.
      destruct (a !! i) as [y|] eqn:Ey; simpl in Hpar; [|congruence].
      apply (Hlt i y q); congruence.
    + unfold a1. rewrite length_insert. lia.
    + lia.
    + exists a'. split; [done|]. split; [by rewrite Hlen; unfold a1; rewrite length_insert|].
      rewrite (ancestors_ext a Hlt a1) in Hspec by (intros; apply Hpar).
      intros i x Hi. destruct (decide (i = b)) as [->|Hne].
      * assert (x = nd) by congruence. subst x.
        rewrite (Hspec b (credit nd tm)) by (unfold a1; by rewrite list_lookup_insert_eq).
        rewrite bool_decide_eq_false_2.
        2:{ intros Hin. apply (ancestors_le a Hlt) in Hin. lia. }
        rewrite bool_decide_eq_true_2 by (by left). done.
      * rewrite (Hspec i x) by (unfold a1; by rewrite list_lookup_insert_ne).
        f_equal. rewrite (bool_decide_ext (i ∈ b :: ancestors f a (Some p))
                                          (i ∈ ancestors f a (Some p))); [done|].
        rewrite elem_of_cons. split; [intros [->|Hin]; done|by right].
  - exists a1. destruct f; simpl; (split; [done|]); (split; [apply length_insert|]);
      intros i x Hi; (destruct (decide (i = b)) as [->|Hne];
        [ assert (x = nd) by congruence; subst x;
          rewrite bool_decide_eq_true_2 by (by left);
          unfold a1; by rewrite list_lookup_insert_eq
        | rewrite bool_decide_eq_false_2
            by (rewrite list_elem_of_singleton; congruence);
          unfold a1; by rewrite list_lookup_insert_ne ]).
Qed.

(** ** Expansion *)

Lemma expand_node_spec (a : arena) node nd :
  a !! node = Some nd ->
  exists a1, expand_node a node = Ok a1 /\
    length a1 = length a + length (get_kernel_actions W (kernel nd)) /\
    a1 !! node = Some (set_children nd (Some (seq (length a) (length (get_kernel_actions W (kernel nd)))))) /\
    (forall i, i <> node -> i < length a -> a1 !! i = a !! i) /\
    (forall j, length a <= j ->
       a1 !! j = (fun k => new_node k (Some node)) <$> (get_kernel_actions W (kernel nd) !! (j - length a))).
Proof.
  intros E. pose proof (lookup_lt_Some _ _ _ E) as Hnode.
  unfold expand_node. rewrite (get_lookup _ _ _ E). simpl. eexists. split; [reflexivity|].
  split; [by rewrite length_insert, length_app, length_fmap|].
  split; [apply list_lookup_insert_eq; rewrite length_app; lia|].
  split.
  - intros i Hne Hi. rewrite list_lookup_insert_ne by done. by apply lookup_app_l.
  - intros j Hj. rewrite list_lookup_insert_ne by lia.
    rewrite lookup_app_r by done. apply list_lookup_fmap.
Qed.

(** Where a node of the expanded arena comes from. *)
Lemma expand_node_inv (a a1 : arena) node nd i x :
  a !! node = Some nd -> expand_node a node = Ok a1 -> a1 !! i = Some x ->
  (i = node /\ x = set_children nd (Some (seq (length a) (length (get_kernel_actions W (kernel nd)))))) \/
  (i <> node /\ i < length a /\ a !! i = Some x) \/
  (length a <= i /\ i < length a1 /\ exists k, x = new_node k (Some node)).
Proof.
  intros E Hex Hx. destruct (expand_node_spec a node nd E) as (a1' & Hex' & Hlen & Hn & Hold & Hnew).
  assert (a1' = a1) by congruence. subst a1'.
  destruct (decide (i = node)) as [->|Hne]; [left; split; [done|congruence]|].
  destruct (decide (i < length a)) as [Hi|Hi].
  - right; left. rewrite Hold in Hx by done. done.
  - right; right. split; [lia|]. split; [by apply lookup_lt_Some in Hx|].
    rewrite Hnew in Hx by lia.
    destruct (get_kernel_actions W (kernel nd) !! (i - length a)) as [k|]; simpl in Hx; [|done].
    exists k. congruence.
Qed.

Lemma wf_expand (a a1 : arena) node nd :
  wf a -> a !! node = Some nd -> expand_node a node = Ok a1 -> wf a1.
Proof.
  intros Hwf E Hex. pose proof (lookup_lt_Some _ _ _ E) as Hnode.
  destruct (expand_node_spec a node nd E) as (a1' & Hex' & Hlen & Hn & Hold & Hnew).
  assert (a1' = a1) by congruence. subst a1'.
  pose proof (expand_node_inv a a1 node nd) as Hinv.
  split.
  - destruct (wf_root a Hwf) as (r & Hr & Hpr). destruct (decide (node = 0)) as [->|Hne].
    + eexists. split; [done|]. simpl. congruence.
    + exists r. split; [|done]. rewrite Hold; [done|done|lia].
  - intros i x p Hx Hp. destruct (Hinv i x E Hex Hx) as [[-> ->]|[(_ & _ & Hi)|(Hi & _ & k & ->)]].
    + simpl in Hp. by apply (wf_parent_lt a Hwf node nd).
    + by apply (wf_parent_lt a Hwf i x).
    + simpl in Hp. inversion Hp; subst p. lia.
  - intros i x Hx Hp. destruct (Hinv i x E Hex Hx) as [[-> ->]|[(_ & _ & Hi)|(Hi & _ & k & ->)]].
    + simpl in Hp. by apply (wf_parent_root a Hwf node nd).
    + by apply (wf_parent_root a Hwf i x).
    + simpl in Hp. done.
  - intros i x cs c Hx Hcs Hc.
    destruct (Hinv i x E Hex Hx) as [[-> ->]|[(Hne & _ & Hi)|(Hi & _ & k & ->)]].
    + simpl in Hcs. inversion Hcs; subst cs. apply elem_of_seq in Hc.
      rewrite Hnew by lia.
      destruct (lookup_lt_is_Some_2 (get_kernel_actions W (kernel nd)) (c - length a)) as [k Hk];
        [lia|].
      rewrite Hk. simpl. eauto.
    + destruct (wf_children a Hwf i x cs c Hi Hcs Hc) as (cn & Hcn & Hpc).
      destruct (decide (c = node)) as [->|Hcne].
      * eexists. split; [done|]. simpl. congruence.
      * exists cn. split; [|done]. rewrite Hold; [done|done|by apply lookup_lt_Some in Hcn].
    + simpl in Hcs. done.
  - intros i x cs Hx Hcs.
    destruct (Hinv i x E Hex Hx) as [[-> ->]|[(Hne & _ & Hi)|(Hi & _ & k & ->)]].
    + simpl in Hcs. inversion Hcs. apply NoDup_seq.
    + by apply (wf_nodup a Hwf i x).
    + simpl in Hcs. done.
  - intros c cn p pn Hc Hp Hpn.
    destruct (Hinv c cn E Hex Hc) as [[-> ->]|[(Hne & _ & Hi)|(Hi & _ & k & ->)]].
    + destruct (Hinv p pn E Hex Hpn) as [[-> ->]|[(Hne' & _ & Hi')|(Hi' & _ & k & ->)]].
      * done.
      * simpl in *. by apply (wf_visits a Hwf node nd p pn).
      * simpl in Hp. pose proof (wf_parent_lt a Hwf node nd p E Hp). lia.
    + destruct (Hinv p pn E Hex Hpn) as [[-> ->]|[(Hne' & _ & Hi')|(Hi' & _ & k & ->)]].
      * simpl. by apply (wf_visits a Hwf c cn node nd).
      * by apply (wf_visits a Hwf c cn p pn).
      * pose proof (wf_parent_lt a Hwf c cn p Hi Hp).
        pose proof (lookup_lt_Some _ _ _ Hi). lia.
    + simpl. lia.
Qed.

(** ** Pruning *)

Lemma insert_lookup_inv (a : arena) p y i x :
  p < length a -> <[p := y]> a !! i = Some x ->
  (i = p /\ x = y) \/ (i <> p /\ a !! i = Some x).
Proof.
  intros Hp Hx. destruct (decide (i = p)) as [->|Hne].
  - rewrite list_lookup_insert_eq in Hx by done. left. split; congruence.
  - rewrite list_lookup_insert_ne in Hx by done. by right.
Qed.

Lemma wf_prune (a : arena) p pn cs cs' :
  wf a -> a !! p = Some pn -> children pn = Some cs ->
  (forall y, y ∈ cs' -> y ∈ cs) -> NoDup cs' ->
  wf (<[p := set_children pn (Some cs')]> a).
Proof.
  intros Hwf E Hcs Hsub Hnd. pose proof (lookup_lt_Some _ _ _ E) as Hp.
  pose proof (insert_lookup_inv a p (set_children pn (Some cs'))) as Hinv.
  assert (Hkeep : forall c cn q, a !! c = Some cn -> parent cn = Some q ->
            exists cn', <[p := set_children pn (Some cs')]> a !! c = Some cn' /\
                        parent cn' = Some q).
  { intros c cn q Hc Hq. destruct (decide (c = p)) as [->|Hne].
    - rewrite list_lookup_insert_eq by done. eexists. split; [done|]. simpl. congruence.
    - rewrite list_lookup_insert_ne by done. eauto. }
  split.
  - destruct (wf_root a Hwf) as (r & Hr & Hpr). destruct (decide (p = 0)) as [->|Hne].
    + rewrite list_lookup_insert_eq by done. eexists. split; [done|]. simpl. congruence.
    + rewrite list_lookup_insert_ne by done. eauto.
  - intros i x q Hx Hq. destruct (Hinv i x Hp Hx) as [[-> ->]|[_ Hi]].
    + by apply (wf_parent_lt a Hwf p pn).
    + by apply (wf_parent_lt a Hwf i x).
  - intros i x Hx Hq. destruct (Hinv i x Hp Hx) as [[-> ->]|[_ Hi]].
    + by apply (wf_parent_root a Hwf p pn).
    + by apply (wf_parent_root a Hwf i x).
  - intros i x l c Hx Hl Hc. destruct (Hinv i x Hp Hx) as [[-> ->]|[_ Hi]].
    + simpl in Hl. inversion Hl; subst l.
      destruct (wf_children a Hwf p pn cs c E Hcs (Hsub c Hc)) as (cn & Hcn & Hpc). eauto.
    + destruct (wf_children a Hwf i x l c Hi Hl Hc) as (cn & Hcn & Hpc). eauto.
  - intros i x l Hx Hl. destruct (Hinv i x Hp Hx) as [[-> ->]|[_ Hi]].
    + simpl in Hl. congruence.
    + by apply (wf_nodup a Hwf i x).
  - intros c cn q qn Hc Hq Hqn.
    destruct (Hinv c cn Hp Hc) as [[-> ->]|[_ Hc']];
      destruct (Hinv q qn Hp Hqn) as [[-> ->]|[_ Hq']]; simpl in *.
    + done.
    + by apply (wf_visits a Hwf p pn q qn).
    + by apply (wf_visits a Hwf c cn p pn).
    + by apply (wf_visits a Hwf c cn q qn).
Qed.

(** ** Backpropagation keeps the shape of the tree *)

Lemma wf_backprop (a a' : arena) b tm :
  wf a -> b < length a -> backprop (length a) a (Some b) tm = Ok a' -> wf a'.
Proof.
  intros Hwf Hb Hbp.
  destruct (backprop_spec (length a) a b tm (wf_parent_lt a Hwf) Hb Hb)
    as (a'' & Hbp' & Hlen & Hspec).
  assert (a'' = a') by congruence. subst a''.
  set (S := ancestors (length a) a (Some b)) in *.
  assert (Hinv : forall i x, a' !! i = Some x ->
            exists nd, a !! i = Some nd /\
                       x = if bool_decide (i ∈ S) then credit nd tm else nd).
  { intros i x Hx. pose proof (lookup_lt_Some _ _ _ Hx) as Hi. rewrite Hlen in Hi.
    destruct (lookup_lt_is_Some_2 a i Hi) as [nd Hnd]. exists nd. split; [done|].
    rewrite (Hspec i nd Hnd) in Hx. congruence. }
  assert (Hpar : forall (c : bool) nd, parent (if c then credit nd tm else nd) = parent nd)
    by (by intros []).
  assert (Hch : forall (c : bool) nd, children (if c then credit nd tm else nd) = children nd)
    by (by intros []).
  split.
  - destruct (wf_root a Hwf) as (r & Hr & Hpr). eexists. split; [by apply Hspec|].
    by rewrite Hpar.
  - intros i x p Hx Hp. destruct (Hinv i x Hx) as (nd & Hnd & ->). rewrite Hpar in Hp.
    by apply (wf_parent_lt a Hwf i nd).
  - intros i x Hx Hp. destruct (Hinv i x Hx) as (nd & Hnd & ->). rewrite Hpar in Hp.
    by apply (wf_parent_root a Hwf i nd).
  - intros i x cs c Hx Hcs Hc. destruct (Hinv i x Hx) as (nd & Hnd & ->). rewrite Hch in Hcs.
    destruct (wf_children a Hwf i nd cs c Hnd Hcs Hc) as (cn & Hcn & Hpc).
    eexists. split; [by apply Hspec|]. by rewrite Hpar.
  - intros i x cs Hx Hcs. destruct (Hinv i x Hx) as (nd & Hnd & ->). rewrite Hch in Hcs.
    by apply (wf_nodup a Hwf i nd).
  - intros c x p y Hx Hp Hy.
    destruct (Hinv c x Hx) as (cn & Hcn & ->). destruct (Hinv p y Hy) as (pn & Hpn & ->).
    rewrite Hpar in Hp. pose proof (wf_visits a Hwf c cn p pn Hcn Hp Hpn) as Hle.
    destruct (bool_decide (c ∈ S)) eqn:Ec.
    + apply bool_decide_eq_true_1 in Ec.
      rewrite bool_decide_eq_true_2; [simpl; lia|].
      by apply (ancestors_parent_closed a (wf_parent_lt a Hwf) (length a) b c cn p).
    + destruct (bool_decide (p ∈ S)); simpl; lia.
Qed.

(** ** Scores and selection *)

Lemma ucb_score_spec (node child : MCTSNode) :
  ln_nonneg -> n child = 0 \/ 1 <= n node ->
  ucb_score node child = Ok (spec_score node child).
Proof.
  intros Hln Hn. unfold ucb_score, spec_score.
  destruct (n child) as [|k] eqn:Ek; [done|].
  destruct (n node) as [|k'] eqn:Ek'; [lia|]. simpl.
  unfold math_sqrt. rewrite truediv_not_below_zero by apply Hln. done.
Qed.

Lemma score_children_spec (a : arena) (node : MCTSNode) cs :
  ln_nonneg ->
  (forall c, c ∈ cs -> exists cn, a !! c = Some cn /\ (n cn = 0 \/ 1 <= n node)) ->
  exists scored, score_children a node cs = Ok scored /\
    Forall2 (fun c sc => exists cn, a !! c = Some cn /\ sc = (spec_score node cn, c)) cs scored.
Proof.
  intros Hln. induction cs as [|c r IH]; intros Hcs.
  - exists []. split; [done|]. constructor.
  - destruct (Hcs c) as (cn & Hcn & Hn); [by left|].
    destruct IH as (rest & Hrest & Hall); [intros; apply Hcs; by right|].
    simpl. rewrite (get_lookup _ _ _ Hcn). simpl.
    rewrite (ucb_score_spec node cn Hln Hn). simpl. rewrite Hrest. simpl.
    eexists. split; [done|]. constructor; eauto.
Qed.

(** Under a well-formed tree the scores of the children of a node are all
    defined, and the selected node is one of the children. *)
Lemma children_scorable (a : arena) i nd cs :
  wf a -> a !! i = Some nd -> children nd = Some cs ->
  forall c, c ∈ cs -> exists cn, a !! c = Some cn /\ (n cn = 0 \/ 1 <= n nd).
Proof.
  intros Hwf Hnd Hcs c Hc.
  destruct (wf_children a Hwf i nd cs c Hnd Hcs Hc) as (cn & Hcn & Hp).
  exists cn. split; [done|]. pose proof (wf_visits a Hwf c cn i nd Hcn Hp Hnd). lia.
Qed.

Lemma select_child_in (a : arena) i nd cs :
  ln_nonneg -> wf a -> a !! i = Some nd -> children nd = Some cs -> cs <> [] ->
  exists c, select_child a nd cs = Ok c /\ c ∈ cs.
Proof.
  intros Hln Hwf Hnd Hcs Hne.
  destruct (score_children_spec a nd cs Hln (children_scorable a i nd cs Hwf Hnd Hcs))
    as (scored & Hsc & Hall).
  unfold select_child. rewrite Hsc. simpl.
  destruct (sorted_reverse scored) as [|[k c] rest] eqn:Es.
  - exfalso. destruct cs as [|c0 r]; [done|]. inversion Hall as [|? y ? l' _ _]; subst.
    assert (Hy : y ∈ sorted_reverse (y :: l')) by (apply sorted_reverse_elem; by left).
    rewrite Es in Hy. by apply elem_of_nil in Hy.
  - exists c. split; [done|].
    assert (Hkc : (k, c) ∈ scored) by (apply sorted_reverse_elem; rewrite Es; by left).
    apply list_elem_of_lookup in Hkc as [j Hj].
    destruct (Forall2_lookup_r _ _ _ _ _ Hall Hj) as (c' & Hc' & cn & _ & Heq).
    inversion Heq; subst c'. apply list_elem_of_lookup. eauto.
Qed.

(** The descent ends, at a node that is unexpanded or has no children; below
    the starting node it is among the children of its parent. *)
Lemma descend_spec fuel (a : arena) x :
  ln_nonneg -> wf a -> x < length a -> length a <= fuel + x + 1 ->
  exists y ynd, descend fuel a x = Ok y /\ a !! y = Some ynd /\
    (children ynd = None \/ children ynd = Some []) /\
    (y = x \/ exists p pn cs, a !! p = Some pn /\ children pn = Some cs /\ y ∈ cs).
Proof.
  intros Hln Hwf. revert x. induction fuel as [|f IH]; intros x Hx Hfuel.
  - destruct (lookup_lt_is_Some_2 a x Hx) as [nd Hnd].
    simpl. rewrite (get_lookup _ _ _ Hnd). simpl.
    destruct (children nd) as [[|c r]|] eqn:Hcs.
    + exists x, nd. split; [done|split; [done|split; auto]].
    + destruct (wf_children a Hwf x nd (c :: r) c Hnd Hcs) as (cn & Hcn & Hp); [by left|].
      pose proof (wf_parent_lt a Hwf c cn x Hcn Hp).
      pose proof (lookup_lt_Some _ _ _ Hcn). lia.
    + exists x, nd. split; [done|split; [done|split; auto]].
  - destruct (lookup_lt_is_Some_2 a x Hx) as [nd Hnd].
    simpl. rewrite (get_lookup _ _ _ Hnd). simpl.
    destruct (children nd) as [[|c0 r]|] eqn:Hcs.
    + exists x, nd. split; [done|split; [done|split; auto]].
    + destruct (select_child_in a x nd (c0 :: r) Hln Hwf Hnd Hcs) as (c & Hsel & Hc); [done|].
      rewrite Hsel. simpl.
      destruct (wf_children a Hwf x nd (c0 :: r) c Hnd Hcs Hc) as (cn & Hcn & Hp).
      pose proof (wf_parent_lt a Hwf c cn x Hcn Hp).
      pose proof (lookup_lt_Some _ _ _ Hcn).
      destruct (IH c) as (y & ynd & Hd & Hy & Hleaf & Hfrom); [lia|lia|].
      exists y, ynd. split; [done|]. split; [done|]. split; [done|].
      right. destruct Hfrom as [->|Hfrom]; [|done]. exists x, nd, (c0 :: r). done.
    + exists x, nd. split; [done|split; [done|split; auto]].
Qed.

(** ** One iteration *)

Lemma iteration_result i st :
  ln_nonneg -> timer_nonempty -> wf (tree st) ->
  exists c, iteration i st = Ok c /\ iter_result i st c.
Proof.
  intros Hln Htm Hwf.
  destruct (wf_root _ Hwf) as (r & Hr & Hpr).
  pose proof (lookup_lt_Some _ _ _ Hr) as Hlen0.
  destruct (descend_spec (length (tree st)) (tree st) 0 Hln Hwf Hlen0)
    as (node & nd & Hd & Hnd & Hleaf & Hfrom); [lia|].
  unfold iteration. rewrite Hd. simpl. rewrite (get_lookup _ _ _ Hnd). simpl.
  destruct Hleaf as [Hleaf|Hleaf]; rewrite Hleaf.
  2:{ eexists. split; [reflexivity|]. by eapply iter_stop. }
  destruct (expand_node_spec (tree st) node nd Hnd) as (a1 & Hex & Hlen & Hn1 & Hold & Hnew).
  pose proof (wf_expand _ _ _ _ Hwf Hnd Hex) as Hwf1.
  pose proof (lookup_lt_Some _ _ _ Hnd) as Hnode.
  rewrite Hex. simpl. rewrite (get_lookup _ _ _ Hn1). simpl.
  destruct (compile_fn W (kernel nd)) as [prog|] eqn:Hc.
  - destruct (time_program W i prog (best_tm st * 10)%float) as [|x r'] eqn:Ht;
      [by apply Htm in Ht|]. simpl.
    destruct (backprop_spec (length a1) a1 node (min_from x r') (wf_parent_lt _ Hwf1))
      as (a2 & Hbp & _); [lia|lia|].
    rewrite Hbp. simpl. eexists. split; [reflexivity|].
    eapply iter_rollout; try done. by rewrite Ht.
  - destruct (parent nd) as [p|] eqn:Hp.
    + destruct Hfrom as [->|(p' & pn & cs & Hpn & Hcs & Hin)]; [congruence|].
      destruct (wf_children _ Hwf p' pn cs node Hpn Hcs Hin) as (nd' & Hnd' & Hp').
      assert (p' = p) by congruence. subst p'.
      pose proof (wf_parent_lt _ Hwf node nd p Hnd Hp) as Hlt.
      rewrite (get_lookup a1 p pn) by (rewrite Hold; [done|lia|lia]). simpl.
      rewrite Hcs. destruct (list_remove_Some node cs Hin) as [cs' Hrm]. rewrite Hrm.
      eexists. split; [reflexivity|]. by eapply iter_prune.
    + pose proof (wf_parent_root _ Hwf node nd Hnd Hp). subst node.
      eexists. split; [reflexivity|]. by eapply iter_root_fail.
Qed.

(** What a finished descent and a finished iteration look like, with no
    assumption on the collaborators. *)
Lemma score_children_snd (a : arena) node cs scored :
  score_children a node cs = Ok scored -> snd <$> scored = cs.
Proof.
  revert scored. induction cs as [|c r IH]; intros scored H; simpl in H.
  - by inversion H.
  - destruct (get a c) as [cn|]; simpl in H; [|done].
    destruct (ucb_score node cn) as [sc|]; simpl in H; [|done].
    destruct (score_children a node r) as [rest|]; simpl in H; [|done].
    inversion H; subst scored. simpl. f_equal. by apply IH.
Qed.

Lemma select_child_elem (a : arena) node cs c :
  select_child a node cs = Ok c -> c ∈ cs.
Proof.
  unfold select_child. destruct (score_children a node cs) as [scored|] eqn:Hs; [|done].
  simpl. destruct (sorted_reverse scored) as [|[k c'] rest] eqn:Es; [done|].
  intros H. inversion H; subst c'. rewrite <- (score_children_snd _ _ _ _ Hs).
  apply list_elem_of_fmap. exists (k, c). split; [done|].
  apply sorted_reverse_elem. rewrite Es. by left.
Qed.

Lemma descend_inv fuel (a : arena) x y :
  descend fuel a x = Ok y ->
  exists ynd, a !! y = Some ynd /\
    (children ynd = None \/ children ynd = Some []) /\
    (y = x \/ exists p pn cs, a !! p = Some pn /\ children pn = Some cs /\ y ∈ cs).
Proof.
  revert x. induction fuel as [|f IH]; intros x H; simpl in H;
    destruct (a !! x) as [nd|] eqn:Hnd; unfold get in H; rewrite Hnd in H; simpl in H;
    try done; destruct (children nd) as [[|c0 r]|] eqn:Hcs; try done;
    try (inversion H; subst y; exists nd; split; [done|split; auto]).
  destruct (select_child a nd (c0 :: r)) as [c|] eqn:Hsel; simpl in H; [|done].
  destruct (IH c H) as (ynd & Hy & Hleaf & Hfrom). exists ynd.
  split; [done|]. split; [done|]. right.
  destruct Hfrom as [->|Hfrom]; [|done].
  exists x, nd, (c0 :: r). split; [done|]. split; [done|]. by eapply select_child_elem.
Qed.

Lemma iteration_inv i st c :
  wf (tree st) -> iteration i st = Ok c -> iter_result i st c.
Proof.
  intros Hwf H. unfold iteration in H.
  destruct (descend (length (tree st)) (tree st) 0) as [node|] eqn:Hd; simpl in H; [|done].
  destruct (descend_inv _ _ _ _ Hd) as (nd & Hnd & Hleaf & Hfrom).
  rewrite (get_lookup _ _ _ Hnd) in H. simpl in H.
  destruct Hleaf as [Hleaf|Hleaf]; rewrite Hleaf in H.
  2:{ inversion H. by eapply iter_stop. }
  destruct (expand_node_spec (tree st) node nd Hnd) as (a1 & Hex & Hlen & Hn1 & Hold & Hnew).
  pose proof (lookup_lt_Some _ _ _ Hnd) as Hnode.
  rewrite Hex in H. simpl in H. rewrite (get_lookup _ _ _ Hn1) in H. simpl in H.
  destruct (compile_fn W (kernel nd)) as [prog|] eqn:Hc.
  - destruct (py_min (time_program W i prog (best_tm st * 10)%float)) as [tm|] eqn:Ht;
      simpl in H; [|done].
    destruct (backprop (length a1) a1 (Some node) tm) as [a2|] eqn:Hbp; simpl in H; [|done].
    inversion H. by eapply iter_rollout.
  - destruct (parent nd) as [p|] eqn:Hp.
    + destruct Hfrom as [->|(p' & pn & cs & Hpn & Hcs & Hin)].
      { destruct (wf_root _ Hwf) as (r & Hr & Hpr). congruence. }
      destruct (wf_children _ Hwf p' pn cs node Hpn Hcs Hin) as (nd' & Hnd' & Hp').
      assert (p' = p) by congruence. subst p'.
      pose proof (wf_parent_lt _ Hwf node nd p Hnd Hp) as Hlt.
      rewrite (get_lookup a1 p pn) in H by (rewrite Hold; [done|lia|lia]). simpl in H.
      rewrite Hcs in H. destruct (list_remove node cs) as [cs'|] eqn:Hrm; [|done].
      inversion H. by eapply iter_prune.
    + pose proof (wf_parent_root _ Hwf node nd Hnd Hp). subst node.
      inversion H. by eapply iter_root_fail.
Qed.

(** ** The record of rollouts *)

Lemma rollouts_app (e1 e2 : list event) : rollouts (e1 ++ e2) = rollouts e1 ++ rollouts e2.
Proof.
  induction e1 as [|e r IH]; [done|]. destruct e; simpl; by rewrite ?IH.
Qed.

Lemma filter_ext_in {A : Type} (P Q : A -> Prop) `{!forall x, Decision (P x)}
    `{!forall x, Decision (Q x)} (l : list A) :
  (forall x, x ∈ l -> P x <-> Q x) -> filter P l = filter Q l.
Proof.
  induction l as [|x r IH]; intros Hext; [done|].
  rewrite !filter_cons. rewrite IH by (intros; apply Hext; by right).
  assert (Hx : P x <-> Q x) by (apply Hext; by left).
  destruct (decide (P x)) as [HP|HP], (decide (Q x)) as [HQ|HQ]; tauto.
Qed.

Lemma filter_none {A : Type} (P : A -> Prop) `{!forall x, Decision (P x)} (l : list A) :
  (forall x, x ∈ l -> ~ P x) -> filter P l = [].
Proof.
  induction l as [|x r IH]; intros Hno; [done|].
  rewrite filter_cons_False by (apply Hno; by left). apply IH. intros; apply Hno; by right.
Qed.

(** Visit counts, rewards and parents of the existing nodes survive an
    expansion; the new nodes start at zero. *)
Lemma expand_node_frame (a a1 : arena) node nd :
  a !! node = Some nd -> expand_node a node = Ok a1 ->
  (forall v x, a !! v = Some x ->
     exists x', a1 !! v = Some x' /\ n x' = n x /\ t x' = t x /\ parent x' = parent x) /\
  (forall v x', a1 !! v = Some x' -> length a <= v -> n x' = 0 /\ t x' = 0%float).
Proof.
  intros E Hex.
  destruct (expand_node_spec a node nd E) as (a1' & Hex' & Hlen & Hn & Hold & Hnew).
  assert (a1' = a1) by congruence. subst a1'. split.
  - intros v x Hx. destruct (decide (v = node)) as [->|Hne].
    + assert (x = nd) by congruence. subst x. eexists. split; [done|]. done.
    + exists x. split; [|done]. rewrite Hold; [done|done|by apply lookup_lt_Some in Hx].
  - intros v x' Hx' Hv.
    destruct (expand_node_inv a a1 node nd v x' E Hex Hx')
      as [[-> _]|[(_ & Hlt & _)|(_ & _ & k & ->)]].
    + apply lookup_lt_Some in E. lia.
    + lia.
    + done.
Qed.

Lemma accounted_frame st (a' : arena) b' bt' evs' :
  wf (tree st) -> accounted st ->
  (forall r, r ∈ rollouts (events st) -> fst r < length (tree st)) ->
  rollouts evs' = rollouts (events st) ->
  (forall v nd, tree st !! v = Some nd ->
     exists nd', a' !! v = Some nd' /\ n nd' = n nd /\ t nd' = t nd /\ parent nd' = parent nd) ->
  (forall v nd', a' !! v = Some nd' -> length (tree st) <= v -> n nd' = 0 /\ t nd' = 0%float) ->
  accounted (mkState a' b' bt' evs').
Proof.
  intros Hwf Hacc Hrange Hroll Hold Hnew v nd' Hv. simpl in *.
  unfold rollouts_within. rewrite Hroll.
  assert (Hpath : forall r, r ∈ rollouts (events st) -> path a' (fst r) = path (tree st) (fst r)).
  { intros r Hr. apply path_ext; [by apply wf_parent_lt|].
    intros i Hi. specialize (Hrange r Hr).
    destruct (lookup_lt_is_Some_2 (tree st) i) as [x Hx]; [lia|].
    destruct (Hold i x Hx) as (x' & Hx' & _ & _ & Hp). rewrite Hx, Hx'. done. }
  destruct (decide (v < length (tree st))) as [Hlt|Hge].
  - destruct (lookup_lt_is_Some_2 (tree st) v Hlt) as [x Hx].
    destruct (Hold v x Hx) as (x' & Hx' & Hn & Ht & _).
    assert (x' = nd') by congruence. subst x'.
    rewrite (filter_ext_in _ (fun r => v ∈ path (tree st) (fst r))).
    2:{ intros r Hr. by rewrite (Hpath r Hr). }
    destruct (Hacc v x Hx) as [Hn' Ht']. unfold rollouts_within in *. split; congruence.
  - destruct (Hnew v nd' Hv) as [-> ->]; [lia|].
    rewrite filter_none; [done|].
    intros r Hr Hin. rewrite (Hpath r Hr) in Hin. unfold path in Hin.
    apply ancestors_le in Hin; [|by apply wf_parent_lt]. specialize (Hrange r Hr). lia.
Qed.

Lemma backprop_path (a1 a2 : arena) node tm :
  wf a1 -> node < length a1 -> backprop (length a1) a1 (Some node) tm = Ok a2 ->
  forall w, path a2 w = path a1 w.
Proof.
  intros Hwf Hnode Hbp w.
  destruct (backprop_spec (length a1) a1 node tm (wf_parent_lt _ Hwf) Hnode Hnode)
    as (a2' & Hbp' & Hlen & Hspec).
  assert (a2' = a2) by congruence; subst a2'.
  apply path_ext; [by apply wf_parent_lt|]. intros i _.
  destruct (a1 !! i) as [y|] eqn:Hy.
  - rewrite (Hspec i y Hy). simpl. by destruct (bool_decide _).
  - apply lookup_ge_None in Hy. rewrite (proj2 (lookup_ge_None a2 i)) by lia. done.
Qed.

(** The effect of a backpropagation from [node] on every node [v]. *)
Lemma backprop_effect (a1 a2 : arena) node tm :
  wf a1 -> node < length a1 -> backprop (length a1) a1 (Some node) tm = Ok a2 ->
  length a2 = length a1 /\
  forall v y, a1 !! v = Some y ->
    a2 !! v = Some (if bool_decide (v ∈ path a1 node) then credit y tm else y).
Proof.
  intros Hwf Hnode Hbp.
  destruct (backprop_spec (length a1) a1 node tm (wf_parent_lt _ Hwf) Hnode Hnode)
    as (a2' & Hbp' & Hlen & Hspec).
  assert (a2' = a2) by congruence; subst a2'. split; [done|].
  intros v y Hy. rewrite (Hspec v y Hy). unfold path.
  by rewrite (ancestors_fuel a1 (wf_parent_lt _ Hwf) (length a1) (S node) node) by lia.
Qed.

Lemma accounted_credit (a1 a2 : arena) b bt b' bt' evs evs' node tm :
  wf a1 -> accounted (mkState a1 b bt evs) -> node < length a1 ->
  backprop (length a1) a1 (Some node) tm = Ok a2 ->
  rollouts evs' = rollouts evs ++ [(node, tm)] ->
  accounted (mkState a2 b' bt' evs').
Proof.
  intros Hwf Hacc Hnode Hbp Hroll v x Hv. simpl in *.
  destruct (backprop_effect a1 a2 node tm Hwf Hnode Hbp) as [Hlen Hspec].
  pose proof (backprop_path a1 a2 node tm Hwf Hnode Hbp) as Hpath.
  pose proof (lookup_lt_Some _ _ _ Hv) as Hvlt. rewrite Hlen in Hvlt.
  destruct (lookup_lt_is_Some_2 a1 v Hvlt) as [y Hy].
  rewrite (Hspec v y Hy) in Hv.
  destruct (Hacc v y Hy) as [Hn Ht]. simpl in Hn, Ht.
  unfold rollouts_within in *. rewrite Hroll, filter_app.
  rewrite (filter_ext_in (fun r => v ∈ path a2 (fst r)) (fun r => v ∈ path a1 (fst r))
             (rollouts evs)) by (intros; by rewrite Hpath).
  rewrite filter_cons, filter_nil. simpl. rewrite Hpath.
  destruct (decide (v ∈ path a1 node)) as [Hin|Hout].
  - rewrite bool_decide_eq_true_2 in Hv by done. inversion Hv; subst x. simpl.
    rewrite length_app, fmap_app. simpl. unfold reward_sum in *.
    rewrite fold_left_app. simpl. rewrite <- Ht. split; [lia|done].
  - rewrite bool_decide_eq_false_2 in Hv by done. inversion Hv; subst x.
    by rewrite app_nil_r.
Qed.

Lemma inv_frame st (a' : arena) evs' :
  inv st -> wf a' -> rollouts evs' = rollouts (events st) ->
  length (tree st) <= length a' ->
  (forall v nd, tree st !! v = Some nd ->
     exists nd', a' !! v = Some nd' /\ n nd' = n nd /\ t nd' = t nd /\ parent nd' = parent nd) ->
  (forall v nd', a' !! v = Some nd' -> length (tree st) <= v -> n nd' = 0 /\ t nd' = 0%float) ->
  inv (mkState a' (best st) (best_tm st) evs').
Proof.
  intros [Hwf Hacc Hrange Hbest] Hwf' Hroll Hlen Hold Hnew. split; simpl; try done.
  - by apply (accounted_frame st).
  - intros r Hr. rewrite Hroll in Hr. specialize (Hrange r Hr). lia.
Qed.

Lemma inv_init lin : inv (init_state lin).
Proof.
  split; simpl.
  - split.
    + eexists. split; [done|]. done.
    + intros [|i] nd p H Hp; simpl in H; [inversion H; subst nd; done|done].
    + intros [|i] nd H Hp; [done|done].
    + intros [|i] nd cs c H Hcs; simpl in H; [inversion H; subst nd; done|done].
    + intros [|i] nd cs H Hcs; simpl in H; [inversion H; subst nd; done|done].
    + intros [|c] cn p pn H Hp; simpl in H; [inversion H; subst cn; done|done].
  - intros [|v] nd H; simpl in H; [inversion H; subst nd; done|done].
  - intros r Hr. by apply elem_of_nil in Hr.
  - reflexivity.
Qed.

Lemma inv_step i st c : inv st -> iter_result i st c -> inv (state_of c).
Proof.
  intros Hinv Hres. pose proof (inv_wf _ Hinv) as Hwf.
  destruct Hres as [node nd Hd Hnd Hcs
                   |nd a1 Hd Hnd Hcs Hp Hex Hc
                   |node nd a1 p pn cs cs' Hd Hnd Hcs Hp Hex Hc Hpn Hpcs Hin Hrm
                   |node nd a1 prog tm a2 Hd Hnd Hcs Hex Hc Htm Hbp]; simpl.
  - apply inv_frame; try done.
    + rewrite rollouts_app. simpl. by rewrite app_nil_r.
    + intros v x Hx. eauto.
    + intros v x Hx Hv. apply lookup_lt_Some in Hx. lia.
  - destruct (expand_node_frame _ _ _ _ Hnd Hex) as [Hold Hnew].
    destruct (expand_node_spec _ _ _ Hnd) as (a1' & Hex' & Hlen & _).
    assert (a1' = a1) by congruence. subst a1'.
    apply inv_frame; try done.
    + by eapply wf_expand.
    + rewrite rollouts_app. simpl. by rewrite app_nil_r.
    + lia.
  - destruct (expand_node_frame _ _ _ _ Hnd Hex) as [Hold Hnew].
    destruct (expand_node_spec _ _ _ Hnd) as (a1' & Hex' & Hlen & _ & Hsame & _).
    assert (a1' = a1) by congruence. subst a1'.
    pose proof (wf_expand _ _ _ _ Hwf Hnd Hex) as Hwf1.
    pose proof (wf_parent_lt _ Hwf node nd p Hnd Hp) as Hlt.
    pose proof (lookup_lt_Some _ _ _ Hnd) as Hnode.
    assert (Hpn1 : a1 !! p = Some pn) by (rewrite Hsame; [done|lia|lia]).
    destruct (list_remove_spec node cs cs' Hrm (wf_nodup _ Hwf p pn cs Hpn Hpcs))
      as (_ & Hnd' & Hiff).
    apply inv_frame; try done.
    + apply (wf_prune a1 p pn cs cs'); try done. intros y Hy. by apply Hiff in Hy as [? _].
    + rewrite !rollouts_app. simpl. by rewrite !app_nil_r.
    + rewrite length_insert. lia.
    + intros v x Hx. destruct (Hold v x Hx) as (x' & Hx' & Hn & Ht & Hpar).
      destruct (decide (v = p)) as [->|Hne].
      * rewrite list_lookup_insert_eq by (by apply lookup_lt_Some in Hpn1).
        eexists. split; [done|]. simpl. assert (x = pn) by congruence. by subst x.
      * rewrite list_lookup_insert_ne by done. eauto.
    + intros v x' Hx' Hv. apply (Hnew v x'); [|done].
      rewrite list_lookup_insert_ne in Hx'; [done|]. apply lookup_lt_Some in Hpn. lia.
  - destruct (expand_node_frame _ _ _ _ Hnd Hex) as [Hold Hnew].
    destruct (expand_node_spec _ _ _ Hnd) as (a1' & Hex' & Hlen & _).
    assert (a1' = a1) by congruence. subst a1'.
    pose proof (wf_expand _ _ _ _ Hwf Hnd Hex) as Hwf1.
    pose proof (lookup_lt_Some _ _ _ Hnd) as Hnode.
    assert (Hnode1 : node < length a1) by lia.
    assert (Hinv1 : inv (mkState a1 (best st) (best_tm st) (events st)))
      by (apply inv_frame; try done; lia).
    destruct (backprop_effect a1 a2 node tm Hwf1 Hnode1 Hbp) as [Hlen2 _].
    assert (Hroll : rollouts (events st ++
               [EvExpand node (new_kids st nd); EvCompile node (kernel nd) true;
                EvTime node (best_tm st * 10)%float tm; EvBackprop node tm])
             = rollouts (events st) ++ [(node, tm)]) by (by rewrite rollouts_app).
    split; simpl.
    + by apply (wf_backprop a1 a2 node tm).
    + eapply accounted_credit; try done. apply (inv_acct _ Hinv1).
    + intros r Hr. rewrite Hroll in Hr. apply elem_of_app in Hr as [Hr|Hr].
      * pose proof (inv_range _ Hinv r Hr). lia.
      * apply list_elem_of_singleton in Hr. subst r. simpl. lia.
    + destruct (tm <? best_tm st)%float eqn:E; [by eapply ltb_not_nan_l|apply (inv_best _ Hinv)].
Qed.

Lemma reachable_inv lin st : reachable lin st -> inv st.
Proof.
  induction 1 as [|i st c Hreach IH Hit]; [apply inv_init|].
  apply (inv_step i st c IH). apply iteration_inv; [apply (inv_wf _ IH)|done].
Qed.

(** ** The loop *)

Lemma run_reachable lin idxs st st' :
  reachable lin st -> run idxs st = Ok st' -> reachable lin st'.
Proof.
  revert st. induction idxs as [|i rest IH]; intros st Hreach H; simpl in H.
  - by inversion H; subst.
  - destruct (iteration i st) as [c|] eqn:Hit; simpl in H; [|done].
    pose proof (reach_step lin i st c Hreach Hit) as Hc.
    destruct c as [st1|st1]; simpl in Hc.
    + by apply (IH st1).
    + by inversion H; subst.
Qed.

Lemma run_total idxs st :
  ln_nonneg -> timer_nonempty -> inv st -> exists st', run idxs st = Ok st'.
Proof.
  intros Hln Htm. revert st. induction idxs as [|i rest IH]; intros st Hinv; simpl.
  - eauto.
  - destruct (iteration_result i st Hln Htm (inv_wf _ Hinv)) as (c & Hit & Hres).
    rewrite Hit. simpl. pose proof (inv_step i st c Hinv Hres) as Hinv'.
    destruct c as [st1|st1]; simpl in *; [by apply IH|eauto].
Qed.

Lemma mcts_search_miss lin amt d :
  cache_lookup d (make_key lin amt) = None ->
  mcts_search lin amt d =
    do st <- run (py_range amt) (init_state lin);
    Ok (mkOutcome (best st)
          (if Z.leb 1 (CACHELEVEL W)
           then diskcache_put W d "mcts_search" (make_key lin amt) (applied_opts W (best st))
           else d)
          (tree st) (events st)).
Proof. intros H. unfold mcts_search. by rewrite H. Qed.

Lemma mcts_search_total lin amt d :
  ln_nonneg -> timer_nonempty -> exists out, mcts_search lin amt d = Ok out.
Proof.
  intros Hln Htm. unfold mcts_search.
  destruct (cache_lookup d (make_key lin amt)) as [val|]; [eauto|].
  destruct (run_total (py_range amt) (init_state lin) Hln Htm (inv_init lin)) as [st' Hrun].
  rewrite Hrun. simpl. eauto.
Qed.

(** A search that misses the cache ends in a reachable state. *)
Lemma mcts_search_reachable lin amt d out :
  cache_lookup d (make_key lin amt) = None -> mcts_search lin amt d = Ok out ->
  exists st, reachable lin st /\ ret out = best st /\ final_tree out = tree st /\
             trace out = events st.
Proof.
  intros Hmiss H. rewrite (mcts_search_miss _ _ _ Hmiss) in H.
  destruct (run (py_range amt) (init_state lin)) as [st|] eqn:Hrun; simpl in H; [|done].
  inversion H; subst out. simpl. exists st. split; [|done].
  eapply run_reachable; [apply reach_init|done].
Qed.

(** ** Terminal nodes *)

Lemma descend_terminal fuel (a : arena) node nd :
  a !! node = Some nd -> children nd = Some [] -> descend fuel a node = Ok node.
Proof.
  intros Hnd Hcs. destruct fuel; simpl; rewrite (get_lookup _ _ _ Hnd); simpl; by rewrite Hcs.
Qed.

Lemma descends_descend (a : arena) x y ynd fuel :
  wf a -> descends a x y -> a !! y = Some ynd -> children ynd = Some [] ->
  length a <= fuel + x + 1 -> descend fuel a x = Ok y.
Proof.
  intros Hwf Hdesc. revert fuel.
  induction Hdesc as [x|x nd c0 cs c y Hnd Hcs Hsel Hdesc IH]; intros fuel Hy Hterm Hfuel.
  - by apply (descend_terminal fuel a x ynd).
  - pose proof (select_child_elem _ _ _ _ Hsel) as Hc.
    destruct (wf_children a Hwf x nd (c0 :: cs) c Hnd Hcs Hc) as (cn & Hcn & Hp).
    pose proof (wf_parent_lt a Hwf c cn x Hcn Hp).
    pose proof (lookup_lt_Some _ _ _ Hcn).
    destruct fuel as [|f]; [lia|].
    simpl. rewrite (get_lookup _ _ _ Hnd). simpl. rewrite Hcs, Hsel. simpl.
    apply IH; [done|done|lia].
Qed.

Lemma iteration_stop i st node nd cs :
  descend (length (tree st)) (tree st) 0 = Ok node ->
  tree st !! node = Some nd -> children nd = Some cs ->
  iteration i st =
    Ok (Break (mkState (tree st) (best st) (best_tm st) (events st ++ [EvStop i]))).
Proof.
  intros Hd Hnd Hcs. unfold iteration. rewrite Hd. simpl.
  rewrite (get_lookup _ _ _ Hnd). simpl. by rewrite Hcs.
Qed.

(** C7. Whenever the descent from the root reaches a node whose children
    collection is expanded and empty, it stops there: the iteration expands
    nothing, compiles nothing, times nothing and backpropagates nothing (the
    tree and the best result are untouched, the only record is the stop), and
    the loop ends whatever budget remains. *)
Theorem terminal_node_stops_search lin st i rest node nd :
  reachable lin st ->
  descends (tree st) 0 node -> tree st !! node = Some nd -> children nd = Some [] ->
  (forall fuel, descend fuel (tree st) node = Ok node) /\
  descend (length (tree st)) (tree st) 0 = Ok node /\
  iteration i st =
    Ok (Break (mkState (tree st) (best st) (best_tm st) (events st ++ [EvStop i]))) /\
  run (i :: rest) st =
    Ok (mkState (tree st) (best st) (best_tm st) (events st ++ [EvStop i])).
Proof.
  intros Hreach Hdesc Hnd Hcs.
  pose proof (inv_wf _ (reachable_inv lin st Hreach)) as Hwf.
  assert (Hd : descend (length (tree st)) (tree st) 0 = Ok node)
    by (apply (descends_descend _ 0 node nd); [done..|lia]).
  pose proof (iteration_stop i st node nd [] Hd Hnd Hcs) as Hit.
  split; [intros fuel; by apply (descend_terminal fuel _ node nd)|].
  split; [done|]. split; [done|]. simpl. by rewrite Hit.
Qed.

(** ** Selection picks the first child of maximal score *)

(** C3. At a node of a well-formed tree whose children are expanded and not
    empty, a child with no visit gets the score infinity and a child with
    visits gets its mean reward plus [sqrt 2] times the square root of the
    logarithm of the visits of the node over its own visits.  The scores of
    the visited children being numbers, the child selected is the first one
    in the order of the collection whose score no other child exceeds.  In
    particular, when some child is unvisited the selected score is infinity,
    and the selected child is an unvisited one as soon as the visited
    children score below infinity. *)
Theorem select_child_first_max (a : arena) i nd cs :
  ln_nonneg -> wf a -> a !! i = Some nd -> children nd = Some cs -> cs <> [] ->
  (forall c cn, c ∈ cs -> a !! c = Some cn -> 0 < n cn -> not_nan (spec_score nd cn)) ->
  (forall c cn, c ∈ cs -> a !! c = Some cn -> n cn = 0 -> ucb_score nd cn = Ok infinity) /\
  (forall c cn, c ∈ cs -> a !! c = Some cn -> 0 < n cn ->
     ucb_score nd cn =
       Ok (t cn / float_of_nat (n cn)
           + PrimFloat.sqrt 2
             * PrimFloat.sqrt (ln W (float_of_nat (n nd)) / float_of_nat (n cn)))%float) /\
  exists j c cn,
    select_child a nd cs = Ok c /\ cs !! j = Some c /\ a !! c = Some cn /\
    (forall x xn, x ∈ cs -> a !! x = Some xn ->
       (spec_score nd cn <? spec_score nd xn)%float = false) /\
    (forall j' x xn, j' < j -> cs !! j' = Some x -> a !! x = Some xn ->
       (spec_score nd xn <? spec_score nd cn)%float = true) /\
    ((exists u un, u ∈ cs /\ a !! u = Some un /\ n un = 0) ->
     spec_score nd cn = infinity /\
     ((forall x xn, x ∈ cs -> a !! x = Some xn -> 0 < n xn ->
         (spec_score nd xn <? infinity)%float = true) ->
      n cn = 0)).
Proof.
  intros Hln Hwf Hnd Hcs Hne Hnan0.
  pose proof (children_scorable a i nd cs Hwf Hnd Hcs) as Hsc.
  assert (Hspec : forall c cn, c ∈ cs -> a !! c = Some cn ->
            ucb_score nd cn = Ok (spec_score nd cn)).
  { intros c cn Hc Hcn. destruct (Hsc c Hc) as (cn' & Hcn' & Hn).
    assert (cn' = cn) by congruence. subst cn'. by apply ucb_score_spec. }
  assert (Hnan : forall c cn, c ∈ cs -> a !! c = Some cn -> not_nan (spec_score nd cn)).
  { intros c cn Hc Hcn. destruct (n cn) as [|m] eqn:Hm.
    - unfold spec_score. by rewrite Hm.
    - apply (Hnan0 c); [done..|lia]. }
  split.
  { intros c cn Hc Hcn Hn. rewrite (Hspec c cn Hc Hcn). unfold spec_score. by rewrite Hn. }
  split.
  { intros c cn Hc Hcn Hn. rewrite (Hspec c cn Hc Hcn). unfold spec_score.
    destruct (n cn); [lia|done]. }
  destruct (score_children_spec a nd cs Hln Hsc) as (scored & Hscored & Hall).
  assert (Hkeys : forall j y, scored !! j = Some y ->
            exists cn, cs !! j = Some (snd y) /\ a !! (snd y) = Some cn /\
                       fst y = spec_score nd cn).
  { intros j y Hy. destruct (Forall2_lookup_r _ _ _ _ _ Hall Hy) as (c & Hc & cn & Hcn & ->).
    exists cn. done. }
  destruct (sorted_reverse_head scored) as (j & k & c & rest & Hs & Hj & Hmax & Hbefore).
  { intros ->. inversion Hall. by subst. }
  { intros y Hy. apply list_elem_of_lookup in Hy as [j Hy].
    destruct (Hkeys j y Hy) as (cn & Hc & Hcn & ->).
    apply (Hnan (snd y)); [|done]. apply list_elem_of_lookup. eauto. }
  destruct (Hkeys j (k, c) Hj) as (cn & Hc & Hcn & Hk). simpl in Hc, Hcn, Hk. subst k.
  assert (Hc' : c ∈ cs) by (apply list_elem_of_lookup; eauto).
  assert (Hmax' : forall x xn, x ∈ cs -> a !! x = Some xn ->
            (spec_score nd cn <? spec_score nd xn)%float = false).
  { intros x xn Hx Hxn. apply list_elem_of_lookup in Hx as [j' Hx].
    destruct (Forall2_lookup_l _ _ _ _ _ Hall Hx) as (y & Hy & xn' & Hxn' & ->).
    assert (xn' = xn) by congruence. subst xn'.
    apply (Hmax (spec_score nd xn, x)). apply list_elem_of_lookup. eauto. }
  exists j, c, cn. split; [by unfold select_child; rewrite Hscored; simpl; rewrite Hs|].
  split; [done|]. split; [done|]. split; [done|]. split.
  - intros j' x xn Hj' Hx Hxn.
    destruct (Forall2_lookup_l _ _ _ _ _ Hall Hx) as (y & Hy & xn' & Hxn' & ->).
    assert (xn' = xn) by congruence. subst xn'.
    apply (Hbefore j' (spec_score nd xn, x)); done.
  - intros (u & un & Hu & Hun & Hn0).
    pose proof (Hmax' u un Hu Hun) as Hge.
    unfold spec_score at 2 in Hge. rewrite Hn0 in Hge. simpl in Hge.
    split; [by apply not_below_infinity; [apply (Hnan c)|]|].
    intros Hfin. destruct (n cn) as [|m] eqn:Hm; [done|].
    pose proof (Hfin c cn Hc' Hcn ltac:(lia)) as Hlt. congruence.
Qed.

(** ** Visit counts along an edge *)

(** C10. In every state of a search, a child with a positive visit count
    has a parent whose count is at least as large, hence at least one: the
    logarithm is taken of a positive count and both divisions are by a
    count that is not zero, so neither raises. *)
Theorem score_is_defined lin st p pn cs c cn :
  reachable lin st ->
  tree st !! p = Some pn -> children pn = Some cs -> c ∈ cs ->
  tree st !! c = Some cn -> 0 < n cn ->
  n cn <= n pn /\ 1 <= n pn /\
  (exists m, py_truediv (t cn) (n cn) = Ok m) /\
  (exists l, math_log (n pn) = Ok l /\ exists q, py_truediv l (n cn) = Ok q).
Proof.
  intros Hreach Hpn Hcs Hc Hcn Hpos.
  pose proof (inv_wf _ (reachable_inv lin st Hreach)) as Hwf.
  destruct (wf_children _ Hwf p pn cs c Hpn Hcs Hc) as (cn' & Hcn' & Hp).
  assert (cn' = cn) by congruence. subst cn'.
  pose proof (wf_visits _ Hwf c cn p pn Hcn Hp Hpn) as Hle.
  split; [done|]. split; [lia|].
  destruct (n cn) as [|k] eqn:Ek; [lia|]. destruct (n pn) as [|k'] eqn:Ek'; [lia|].
  simpl. split; [eauto|]. eexists. split; [done|]. eauto.
Qed.

(** ** Compile failures *)

Lemma timed_app (e1 e2 : list event) : timed (e1 ++ e2) = timed e1 ++ timed e2.
Proof.
  induction e1 as [|e r IH]; [done|]. destruct e; simpl; by rewrite ?IH.
Qed.

Lemma compiled_app (e1 e2 : list event) : compiled (e1 ++ e2) = compiled e1 ++ compiled e2.
Proof.
  induction e1 as [|e r IH]; [done|]. destruct e; simpl; by rewrite ?IH.
Qed.

Lemma prune_frame (a1 : arena) p pn cs' :
  a1 !! p = Some pn ->
  forall v x, a1 !! v = Some x ->
    exists x', <[p := set_children pn (Some cs')]> a1 !! v = Some x' /\
               n x' = n x /\ t x' = t x /\ parent x' = parent x.
Proof.
  intros Hpn v x Hx. destruct (decide (v = p)) as [->|Hne].
  - rewrite list_lookup_insert_eq by (by apply lookup_lt_Some in Hpn).
    eexists. split; [done|]. assert (x = pn) by congruence. by subst x.
  - rewrite list_lookup_insert_ne by done. eauto.
Qed.

(** C2. When the compiler fails on the node that an iteration rolls out,
    the iteration goes on to the next one with the best result, every visit
    count and every reward unchanged, and no timing and no backpropagation
    made.  A node with a parent is dropped from the children of that parent
    and is absent from them afterwards; at the root nothing is removed.
    With a timer that returns samples and a logarithm that is not negative
    on counts, no search raises: every call returns a kernel. *)
Theorem compile_failure_is_pruned lin st i node nd :
  ln_nonneg -> timer_nonempty -> reachable lin st ->
  descend (length (tree st)) (tree st) 0 = Ok node ->
  tree st !! node = Some nd -> children nd = None ->
  compile_fn W (kernel nd) = None ->
  (exists st', iteration i st = Ok (Continue st') /\
     best st' = best st /\ best_tm st' = best_tm st /\
     timed (events st') = timed (events st) /\
     rollouts (events st') = rollouts (events st) /\
     (forall v x, tree st !! v = Some x ->
        exists x', tree st' !! v = Some x' /\ n x' = n x /\ t x' = t x) /\
     (forall v x', tree st' !! v = Some x' -> length (tree st) <= v ->
        n x' = 0 /\ t x' = 0%float) /\
     match parent nd with
     | Some p =>
         exists pn cs pn' cs',
           tree st !! p = Some pn /\ children pn = Some cs /\ node ∈ cs /\
           tree st' !! p = Some pn' /\ children pn' = Some cs' /\
           (node ∉ cs') /\ (forall y, y ∈ cs' <-> y ∈ cs /\ y <> node)
     | None =>
         node = 0 /\ forall v x, v <> 0 -> tree st !! v = Some x -> tree st' !! v = Some x
     end) /\
  (forall amt d, exists out, mcts_search lin amt d = Ok out).
Proof.
  intros Hln Htm Hreach Hd Hnd Hcs Hc.
  pose proof (inv_wf _ (reachable_inv lin st Hreach)) as Hwf.
  split; [|intros; by apply mcts_search_total].
  destruct (iteration_result i st Hln Htm Hwf) as (c & Hit & Hres).
  destruct Hres as [node' nd' Hd' Hnd' Hcs'
                   |nd' a1 Hd' Hnd' Hcs' Hp Hex Hc'
                   |node' nd' a1 p pn cs cs' Hd' Hnd' Hcs' Hp Hex Hc' Hpn Hpcs Hin Hrm
                   |node' nd' a1 prog tm a2 Hd' Hnd' Hcs' Hex Hc' Htm' Hbp].
  - assert (node' = node) by congruence. subst node'. congruence.
  - assert (node = 0) by congruence. subst node.
    assert (nd' = nd) by congruence. subst nd'.
    destruct (expand_node_frame _ _ _ _ Hnd Hex) as [Hold Hnew].
    destruct (expand_node_spec _ _ _ Hnd) as (a1' & Hex' & _ & _ & Hsame & _).
    assert (a1' = a1) by congruence. subst a1'.
    eexists. split; [done|]. simpl. split; [done|]. split; [done|].
    split; [by rewrite timed_app, app_nil_r|].
    split; [by rewrite rollouts_app, app_nil_r|].
    split; [intros v x Hx; destruct (Hold v x Hx) as (x' & ? & ? & ? & _); eauto|].
    split; [done|]. rewrite Hp. split; [done|].
    intros v x Hv Hx. rewrite Hsame; [done|done|by apply lookup_lt_Some in Hx].
  - assert (node' = node) by congruence. subst node'.
    assert (nd' = nd) by congruence. subst nd'.
    destruct (expand_node_frame _ _ _ _ Hnd Hex) as [Hold Hnew].
    destruct (expand_node_spec _ _ _ Hnd) as (a1' & Hex' & Hlen & _ & Hsame & _).
    assert (a1' = a1) by congruence. subst a1'.
    pose proof (wf_parent_lt _ Hwf node nd p Hnd Hp) as Hlt.
    pose proof (lookup_lt_Some _ _ _ Hnd) as Hnode.
    assert (Hpn1 : a1 !! p = Some pn) by (rewrite Hsame; [done|lia|lia]).
    destruct (list_remove_spec node cs cs' Hrm (wf_nodup _ Hwf p pn cs Hpn Hpcs))
      as (Hout & _ & Hiff).
    eexists. split; [done|]. simpl. split; [done|]. split; [done|].
    split; [by rewrite !timed_app, !app_nil_r|].
    split; [by rewrite !rollouts_app, !app_nil_r|].
    split; [|split].
    + intros v x Hx. destruct (Hold v x Hx) as (x1 & Hx1 & Hn1 & Ht1 & _).
      destruct (prune_frame a1 p pn cs' Hpn1 v x1 Hx1) as (x' & Hx' & Hn' & Ht' & _).
      exists x'. split; [done|]. split; congruence.
    + intros v x' Hx' Hv. apply (Hnew v x'); [|done].
      rewrite list_lookup_insert_ne in Hx'; [done|lia].
    + rewrite Hp. exists pn, cs, (set_children pn (Some cs')), cs'.
      split; [done|]. split; [done|]. split; [done|].
      split; [apply list_lookup_insert_eq; lia|]. done.
  - assert (node' = node) by congruence. subst node'.
    assert (nd' = nd) by congruence. subst nd'. congruence.
Qed.

(** ** Backpropagation and the accounting of visits *)

Lemma filter_all {A : Type} (P : A -> Prop) `{!forall x, Decision (P x)} (l : list A) :
  (forall x, x ∈ l -> P x) -> filter P l = l.
Proof.
  induction l as [|x r IH]; intros Hall; [done|].
  rewrite filter_cons_True by (apply Hall; by left). f_equal.
  apply IH. intros; apply Hall; by right.
Qed.

Lemma root_counts_all st :
  inv st -> rollouts_within (tree st) 0 (events st) = rollouts (events st).
Proof.
  intros Hinv. pose proof (inv_wf _ Hinv) as Hwf. unfold rollouts_within.
  apply filter_all. intros r Hr. pose proof (inv_range _ Hinv r Hr). unfold path.
  apply ancestors_root; [by apply wf_parent_lt|by apply wf_parent_root|done|lia].
Qed.

(** C4. In every state of a search the visit count of a node is the number
    of completed rollouts in its subtree and its reward the sum of their
    negated timings in microseconds; the count of the root is the number of
    all completed rollouts.  An iteration either completes no rollout and
    leaves all counts and rewards alone, or it times the selected node and
    then adds one visit and the negated timing to that node and to each of
    its ancestors, the root among them, and to no other node. *)
Theorem visit_accounting lin st :
  reachable lin st ->
  (exists r, tree st !! 0 = Some r /\ n r = length (rollouts (events st))) /\
  accounted st /\
  (forall i c, iteration i st = Ok c ->
     (rollouts (events (state_of c)) = rollouts (events st) /\
      forall v x, tree st !! v = Some x ->
        exists x', tree (state_of c) !! v = Some x' /\ n x' = n x /\ t x' = t x)
     \/
     (exists node nd prog tm,
        tree st !! node = Some nd /\ compile_fn W (kernel nd) = Some prog /\
        py_min (time_program W i prog (best_tm st * 10)%float) = Ok tm /\
        rollouts (events (state_of c)) = rollouts (events st) ++ [(node, tm)] /\
        node ∈ path (tree st) node /\ 0 ∈ path (tree st) node /\
        forall v x, tree st !! v = Some x ->
          exists x', tree (state_of c) !! v = Some x' /\
            if decide (v ∈ path (tree st) node)
            then n x' = S (n x) /\ t x' = (t x + - (tm * 1e6))%float
            else n x' = n x /\ t x' = t x)) /\
  (forall amt d out,
     cache_lookup d (make_key lin amt) = None -> mcts_search lin amt d = Ok out ->
     exists r, final_tree out !! 0 = Some r /\ n r = length (rollouts (trace out))).
Proof.
  intros Hreach. pose proof (reachable_inv lin st Hreach) as Hinv.
  pose proof (inv_wf _ Hinv) as Hwf.
  assert (Hroot : forall s, inv s ->
            exists r, tree s !! 0 = Some r /\ n r = length (rollouts (events s))).
  { intros s Hs. destruct (wf_root _ (inv_wf _ Hs)) as (r & Hr & _). exists r. split; [done|].
    destruct (inv_acct _ Hs 0 r Hr) as [Hn _]. by rewrite Hn, root_counts_all. }
  split; [by apply Hroot|]. split; [apply (inv_acct _ Hinv)|].
  split; [|intros amt d out Hmiss Hs;
           destruct (mcts_search_reachable lin amt d out Hmiss Hs) as (s & Hreach' & _ & -> & ->);
           by apply Hroot, (reachable_inv lin)].
  intros i c Hit. pose proof (iteration_inv i st c Hwf Hit) as Hres.
  destruct Hres as [node nd Hd Hnd Hcs
                   |nd a1 Hd Hnd Hcs Hp Hex Hc
                   |node nd a1 p pn cs cs' Hd Hnd Hcs Hp Hex Hc Hpn Hpcs Hin Hrm
                   |node nd a1 prog tm a2 Hd Hnd Hcs Hex Hc Htm Hbp]; simpl.
  - left. split; [by rewrite rollouts_app, app_nil_r|]. eauto.
  - left. split; [by rewrite rollouts_app, app_nil_r|].
    destruct (expand_node_frame _ _ _ _ Hnd Hex) as [Hold _].
    intros v x Hx. destruct (Hold v x Hx) as (x' & ? & ? & ? & _). eauto.
  - left. split; [by rewrite !rollouts_app, !app_nil_r|].
    destruct (expand_node_frame _ _ _ _ Hnd Hex) as [Hold _].
    destruct (expand_node_spec _ _ _ Hnd) as (a1' & Hex' & Hlen & _ & Hsame & _).
    assert (a1' = a1) by congruence. subst a1'.
    pose proof (wf_parent_lt _ Hwf node nd p Hnd Hp) as Hlt.
    pose proof (lookup_lt_Some _ _ _ Hnd) as Hnode.
    assert (Hpn1 : a1 !! p = Some pn) by (rewrite Hsame; [done|lia|lia]).
    intros v x Hx. destruct (Hold v x Hx) as (x1 & Hx1 & Hn1 & Ht1 & _).
    destruct (prune_frame a1 p pn cs' Hpn1 v x1 Hx1) as (x' & Hx' & Hn' & Ht' & _).
    exists x'. split; [done|]. split; congruence.
  - right. exists node, nd, prog, tm.
    destruct (expand_node_frame _ _ _ _ Hnd Hex) as [Hold _].
    destruct (expand_node_spec _ _ _ Hnd) as (a1' & Hex' & Hlen & _).
    assert (a1' = a1) by congruence. subst a1'.
    pose proof (wf_expand _ _ _ _ Hwf Hnd Hex) as Hwf1.
    pose proof (lookup_lt_Some _ _ _ Hnd) as Hnode.
    assert (Hnode1 : node < length a1) by lia.
    destruct (backprop_effect a1 a2 node tm Hwf1 Hnode1 Hbp) as [_ Heff].
    assert (Hpath : path a1 node = path (tree st) node).
    { apply path_ext; [by apply wf_parent_lt|]. intros j Hj.
      destruct (lookup_lt_is_Some_2 (tree st) j) as [y Hy]; [lia|].
      destruct (Hold j y Hy) as (y' & Hy' & _ & _ & Hpar). by rewrite Hy, Hy'. }
    split; [done|]. split; [done|]. split; [done|].
    split; [by rewrite rollouts_app|].
    split; [apply ancestors_self; lia|].
    split; [apply ancestors_root; [by apply wf_parent_lt|by apply wf_parent_root|done|lia]|].
    intros v x Hx. destruct (Hold v x Hx) as (x1 & Hx1 & Hn1 & Ht1 & _).
    rewrite (Heff v x1 Hx1), Hpath. eexists. split; [done|].
    destruct (decide (v ∈ path (tree st) node)) as [Hv|Hv].
    + rewrite bool_decide_eq_true_2 by done. simpl. split; congruence.
    + rewrite bool_decide_eq_false_2 by done. done.
Qed.

(** ** The best result *)

Lemma iteration_best_le i st c :
  inv st -> iter_result i st c -> (best_tm (state_of c) <=? best_tm st)%float = true.
Proof.
  intros Hinv Hres. pose proof (leb_refl _ (inv_best _ Hinv)) as Hrefl.
  destruct Hres; simpl; try done.
  destruct (tm <? best_tm st)%float eqn:E; [by apply ltb_leb|done].
Qed.

Lemma run_best_le lin idxs st st' :
  reachable lin st -> run idxs st = Ok st' -> (best_tm st' <=? best_tm st)%float = true.
Proof.
  revert st. induction idxs as [|i rest IH]; intros st Hreach H; simpl in H.
  - inversion H; subst st'. apply leb_refl, inv_best. by eapply reachable_inv.
  - destruct (iteration i st) as [c|] eqn:Hit; simpl in H; [|done].
    pose proof (reachable_inv lin st Hreach) as Hinv.
    pose proof (iteration_best_le i st c Hinv (iteration_inv i st c (inv_wf _ Hinv) Hit)) as Hle.
    pose proof (reach_step lin i st c Hreach Hit) as Hc.
    destruct c as [st1|st1]; simpl in *.
    + apply (leb_trans _ (best_tm st1)); [by apply IH|done].
    + by inversion H; subst.
Qed.

(** C8. The accumulator starts as the input kernel with an infinite timing.
    An iteration that completes no rollout leaves it alone; one that
    measures [tm] replaces it by the kernel of the rolled-out node and [tm]
    exactly when [tm] is strictly below the best timing.  Hence the best
    timing never grows, from one iteration to the next and over any number
    of iterations. *)
Theorem best_is_monotonic lin st :
  reachable lin st ->
  best (init_state lin) = lin /\ best_tm (init_state lin) = infinity /\
  (forall i c, iteration i st = Ok c ->
     (best_tm (state_of c) <=? best_tm st)%float = true /\
     ((rollouts (events (state_of c)) = rollouts (events st) /\
       best (state_of c) = best st /\ best_tm (state_of c) = best_tm st)
      \/
      (exists node nd tm,
         tree st !! node = Some nd /\
         rollouts (events (state_of c)) = rollouts (events st) ++ [(node, tm)] /\
         if (tm <? best_tm st)%float
         then best (state_of c) = kernel nd /\ best_tm (state_of c) = tm
         else best (state_of c) = best st /\ best_tm (state_of c) = best_tm st))) /\
  (forall idxs st', run idxs st = Ok st' -> (best_tm st' <=? best_tm st)%float = true).
Proof.
  intros Hreach. pose proof (reachable_inv lin st Hreach) as Hinv.
  split; [done|]. split; [done|]. split; [|intros; by eapply run_best_le].
  intros i c Hit. pose proof (iteration_inv i st c (inv_wf _ Hinv) Hit) as Hres.
  split; [by apply (iteration_best_le i)|].
  destruct Hres as [node nd Hd Hnd Hcs
                   |nd a1 Hd Hnd Hcs Hp Hex Hc
                   |node nd a1 p pn cs cs' Hd Hnd Hcs Hp Hex Hc Hpn Hpcs Hin Hrm
                   |node nd a1 prog tm a2 Hd Hnd Hcs Hex Hc Htm Hbp]; simpl.
  - left. by rewrite rollouts_app, app_nil_r.
  - left. by rewrite rollouts_app, app_nil_r.
  - left. by rewrite !rollouts_app, !app_nil_r.
  - right. exists node, nd, tm. split; [done|]. split; [by rewrite rollouts_app|].
    by destruct (tm <? best_tm st)%float.
Qed.

(** ** What an iteration compiles *)

Ltac elem_cases H :=
  repeat (apply elem_of_cons in H as [H|H]; [try discriminate H|]);
  try (by apply elem_of_nil in H).

(** C6 as amended. The kernel that an iteration hands to the compiler, and
    times, is the kernel of the node that the descent selected and that the
    same iteration expanded; the children created by that expansion are
    fresh nodes, none of which is the compiled one. *)
Theorem compiles_selected_node lin st i c node k ok :
  reachable lin st -> iteration i st = Ok c ->
  EvCompile node k ok ∈ new_events st (state_of c) ->
  exists nd,
    descend (length (tree st)) (tree st) 0 = Ok node /\
    tree st !! node = Some nd /\ children nd = None /\ k = kernel nd /\
    EvExpand node (new_kids st nd) ∈ new_events st (state_of c) /\
    (forall x kids, EvExpand x kids ∈ new_events st (state_of c) ->
       x = node /\ kids = new_kids st nd) /\
    (forall y, y ∈ new_kids st nd -> y <> node /\ length (tree st) <= y) /\
    (forall x es tm, EvTime x es tm ∈ new_events st (state_of c) -> x = node /\ ok = true).
Proof.
  intros Hreach Hit Hev. pose proof (reachable_inv lin st Hreach) as Hinv.
  pose proof (iteration_inv i st c (inv_wf _ Hinv) Hit) as Hres.
  assert (Hfresh : forall nd, tree st !! node = Some nd ->
            forall y, y ∈ new_kids st nd -> y <> node /\ length (tree st) <= y).
  { intros nd Hnd y Hy. apply elem_of_seq in Hy. apply lookup_lt_Some in Hnd. lia. }
  unfold new_events in *.
  destruct Hres as [node' nd Hd Hnd Hcs
                   |nd a1 Hd Hnd Hcs Hp Hex Hc
                   |node' nd a1 p pn cs cs' Hd Hnd Hcs Hp Hex Hc Hpn Hpcs Hin Hrm
                   |node' nd a1 prog tm a2 Hd Hnd Hcs Hex Hc Htm Hbp]; simpl in *.
  - rewrite drop_app_length in Hev. elem_cases Hev.
  - rewrite drop_app_length in *. elem_cases Hev. inversion Hev; subst node k ok.
    exists nd. split; [done|]. split; [done|]. split; [done|]. split; [done|].
    split; [by left|]. split; [|split; [by apply Hfresh|]].
    + intros x kids Hx. elem_cases Hx. by inversion Hx.
    + intros x es tm Hx. elem_cases Hx.
  - rewrite drop_app3_length in *. simpl in *. elem_cases Hev. inversion Hev; subst node k ok.
    exists nd. split; [done|]. split; [done|]. split; [done|]. split; [done|].
    split; [by left|]. split; [|split; [by apply Hfresh|]].
    + intros x kids Hx. elem_cases Hx. by inversion Hx.
    + intros x es tm Hx. elem_cases Hx.
  - rewrite drop_app_length in *. elem_cases Hev. inversion Hev; subst node k ok.
    exists nd. split; [done|]. split; [done|]. split; [done|]. split; [done|].
    split; [by left|]. split; [|split; [by apply Hfresh|]].
    + intros x kids Hx. elem_cases Hx. by inversion Hx.
    + intros x es tm' Hx. elem_cases Hx. by inversion Hx.
Qed.

(** ** The cache *)

Lemma replay_applied_opts lin rest :
  replay_law ->
  applied_opts W (fold_left (apply_opt W) rest lin) = applied_opts W lin ++ rest.
Proof.
  intros Hlaw. revert lin. induction rest as [|o r IH]; intros lin; simpl.
  - by rewrite app_nil_r.
  - rewrite IH, Hlaw, <- app_assoc. done.
Qed.

(** C5. With the cache enabled and an entry [T] under the key of the call
    that extends the options already applied to the input kernel, the
    search returns at once the input kernel with the remaining options of
    [T] applied in order, whose applied options are [T]; no tree is built,
    nothing is compiled or timed, and the cache is not written. *)
Theorem cache_round_trip lin amt d T rest :
  replay_law ->
  IGNORE_BEAM_CACHE W = 0%Z -> (1 <= CACHELEVEL W)%Z ->
  diskcache_get W d "mcts_search" (make_key lin amt) = Some T ->
  T = applied_opts W lin ++ rest ->
  exists out, mcts_search lin amt d = Ok out /\
    applied_opts W (ret out) = T /\
    ret out = fold_left (apply_opt W) rest lin /\
    final_tree out = [] /\ trace out = [] /\
    compiled (trace out) = [] /\ timed (trace out) = [] /\
    disk out = d.
Proof.
  intros Hlaw Hign Hlevel Hget ->. unfold mcts_search, cache_lookup.
  rewrite Hign, Hget. simpl. rewrite (proj2 (Z.leb_le 1 (CACHELEVEL W)) Hlevel).
  eexists. split; [reflexivity|]. simpl. unfold replay.
  rewrite drop_app_length. split; [by apply replay_applied_opts|]. done.
Qed.

(** ** A root without actions *)

Lemma terminal_root_first lin i :
  timer_nonempty -> get_kernel_actions W lin = [] ->
  exists st1, iteration i (init_state lin) = Ok (Continue st1) /\ best st1 = lin /\
    match compile_fn W lin with
    | None =>
        tree st1 = [mkNode lin 0 0 None (Some [])] /\
        events st1 = [EvExpand 0 []; EvCompile 0 lin false]
    | Some prog =>
        exists tm, py_min (time_program W i prog (infinity * 10)%float) = Ok tm /\
          tree st1 = [mkNode lin (0 + - (tm * 1e6))%float 1 None (Some [])] /\
          events st1 = [EvExpand 0 []; EvCompile 0 lin true;
                        EvTime 0 (infinity * 10)%float tm; EvBackprop 0 tm]
    end.
Proof.
  intros Htm Hact. unfold iteration, expand_node. simpl. rewrite Hact. simpl.
  destruct (compile_fn W lin) as [prog|] eqn:Hc.
  - destruct (time_program W i prog _) as [|x r] eqn:Ht; [by apply Htm in Ht|].
    simpl. eexists. split; [reflexivity|]. simpl.
    split; [by destruct (min_from x r <? _)%float|].
    by exists (min_from x r).
  - eexists. split; [reflexivity|]. done.
Qed.

Lemma terminal_root_stop st r i rest :
  tree st = [r] -> children r = Some [] ->
  run (i :: rest) st =
    Ok (mkState (tree st) (best st) (best_tm st) (events st ++ [EvStop i])).
Proof.
  intros Ht Hr. simpl. rewrite (iteration_stop i st 0 r []); [done| |by rewrite Ht|done].
  rewrite Ht. simpl. by rewrite Hr.
Qed.

(** C9. Whatever the iteration budget, a search that misses the cache on a
    kernel for which the action generator returns nothing returns that
    kernel. *)
Theorem terminal_root_returns_input lin amt d :
  timer_nonempty ->
  cache_lookup d (make_key lin amt) = None -> get_kernel_actions W lin = [] ->
  exists out, mcts_search lin amt d = Ok out /\ ret out = lin.
Proof.
  intros Htm Hmiss Hact. rewrite (mcts_search_miss _ _ _ Hmiss). unfold py_range.
  destruct (Z.to_nat amt) as [|[|k]]; simpl seq.
  - simpl. eauto.
  - destruct (terminal_root_first lin 0 Htm Hact) as (st1 & Hit & Hbest & _).
    simpl. rewrite Hit. simpl. eauto.
  - destruct (terminal_root_first lin 0 Htm Hact) as (st1 & Hit & Hbest & Hshape).
    assert (Hr : exists r, tree st1 = [r] /\ children r = Some []).
    { destruct (compile_fn W lin); [destruct Hshape as (tm & _ & -> & _)|destruct Hshape as [-> _]];
        eexists; split; done. }
    destruct Hr as (r & Hr & Hcs).
    change (run (0 :: 1 :: seq 2 k) (init_state lin))
      with (do c <- iteration 0 (init_state lin);
            match c with Continue st' => run (1 :: seq 2 k) st' | Break st' => Ok st' end).
    rewrite Hit. cbn [bind]. rewrite (terminal_root_stop st1 r 1 (seq 2 k) Hr Hcs). simpl. eauto.
Qed.

(** C1 as amended. With a budget of three and a root without actions, the
    first iteration expands the root into an empty collection and hands the
    kernel of the root itself to the compiler.  If the compile fails the
    count of the root stays 0 and nothing is timed; if it succeeds the root
    is timed and credited, and its count is 1.  The second iteration finds
    the terminal root and stops the search, which returns the input kernel. *)
Theorem terminal_root_search lin d :
  timer_nonempty ->
  cache_lookup d (make_key lin 3) = None -> get_kernel_actions W lin = [] ->
  exists out, mcts_search lin 3 d = Ok out /\ ret out = lin /\
    match compile_fn W lin with
    | None =>
        final_tree out = [mkNode lin 0 0 None (Some [])] /\
        trace out = [EvExpand 0 []; EvCompile 0 lin false; EvStop 1]
    | Some prog =>
        exists tm, py_min (time_program W 0 prog (infinity * 10)%float) = Ok tm /\
          final_tree out = [mkNode lin (0 + - (tm * 1e6))%float 1 None (Some [])] /\
          trace out = [EvExpand 0 []; EvCompile 0 lin true;
                       EvTime 0 (infinity * 10)%float tm; EvBackprop 0 tm; EvStop 1]
    end.
Proof.
  intros Htm Hmiss Hact. rewrite (mcts_search_miss _ _ _ Hmiss).
  destruct (terminal_root_first lin 0 Htm Hact) as (st1 & Hit & Hbest & Hshape).
  assert (Hr : exists r, tree st1 = [r] /\ children r = Some []).
  { destruct (compile_fn W lin); [destruct Hshape as (tm & _ & -> & _)|destruct Hshape as [-> _]];
      eexists; split; done. }
  destruct Hr as (r & Hr & Hcs).
  change (run (py_range 3) (init_state lin))
    with (do c <- iteration 0 (init_state lin);
          match c with Continue st' => run [1; 2] st' | Break st' => Ok st' end).
  rewrite Hit. cbn [bind]. rewrite (terminal_root_stop st1 r 1 [2] Hr Hcs). simpl.
  eexists. split; [reflexivity|]. simpl. split; [done|].
  destruct (compile_fn W lin).
  - destruct Hshape as (tm & Hmin & Ht & He). exists tm. by rewrite Ht, He.
  - destruct Hshape as [Ht He]. by rewrite Ht, He.
Qed.

(** ** Concrete runs *)

Lemma state_after_reachable lin idxs : reachable lin (state_after lin idxs).
Proof.
  unfold state_after. destruct (run idxs (init_state lin)) as [st|] eqn:Hrun.
  - eapply run_reachable; [apply reach_init|done].
  - apply reach_init.
Qed.

(** * Further properties of the search *)

(** ** Trees only grow *)

Lemma grows_refl (a : arena) : grows a a.
Proof. split; [done|]. intros v x Hx. exists x. repeat split; eauto. Qed.

Lemma grows_trans (a b c : arena) : grows a b -> grows b c -> grows a c.
Proof.
  intros [Hl1 H1] [Hl2 H2]. split; [lia|]. intros v x Hx.
  destruct (H1 v x Hx) as (y & Hy & Hk & Hp & Hn & Hc).
  destruct (H2 v y Hy) as (z & Hz & Hk' & Hp' & Hn' & Hc').
  exists z. split; [done|]. split; [congruence|]. split; [congruence|]. split; [lia|].
  intros cs Hcs. destruct (Hc cs Hcs) as (cs1 & Hcs1 & Hsub1).
  destruct (Hc' cs1 Hcs1) as (cs2 & Hcs2 & Hsub2). exists cs2. split; [done|]. auto.
Qed.

Lemma grows_expand (a a1 : arena) node nd :
  a !! node = Some nd -> children nd = None -> expand_node a node = Ok a1 -> grows a a1.
Proof.
  intros E Hcs Hex.
  destruct (expand_node_spec a node nd E) as (a1' & Hex' & Hlen & Hn & Hold & Hnew).
  assert (a1' = a1) by congruence. subst a1'. split; [lia|]. intros v x Hx.
  destruct (decide (v = node)) as [->|Hne].
  - assert (x = nd) by congruence. subst x. eexists. split; [done|]. simpl.
    repeat split; try done. intros cs Hcs'. congruence.
  - exists x. rewrite Hold; [|done|by apply lookup_lt_Some in Hx].
    repeat split; eauto.
Qed.

Lemma grows_prune (a1 : arena) p pn cs cs' :
  a1 !! p = Some pn -> children pn = Some cs -> (forall y, y ∈ cs' -> y ∈ cs) ->
  grows a1 (<[p := set_children pn (Some cs')]> a1).
Proof.
  intros Hpn Hcs Hsub. split; [by rewrite length_insert|]. intros v x Hx.
  destruct (decide (v = p)) as [->|Hne].
  - rewrite list_lookup_insert_eq by (by apply lookup_lt_Some in Hpn).
    assert (x = pn) by congruence. subst x. eexists. split; [done|]. simpl.
    repeat split; try done. intros l Hl. exists cs'. split; [done|].
    assert (l = cs) by congruence. by subst l.
  - rewrite list_lookup_insert_ne by done. exists x. repeat split; eauto.
Qed.

Lemma grows_backprop (a1 a2 : arena) node tm :
  wf a1 -> node < length a1 -> backprop (length a1) a1 (Some node) tm = Ok a2 ->
  grows a1 a2.
Proof.
  intros Hwf Hnode Hbp. destruct (backprop_effect a1 a2 node tm Hwf Hnode Hbp) as [Hlen Heff].
  split; [lia|]. intros v x Hx. rewrite (Heff v x Hx). eexists. split; [done|].
  destruct (bool_decide (v ∈ path a1 node)); simpl; repeat split; eauto.
Qed.

Lemma iter_result_grows i st c :
  wf (tree st) -> iter_result i st c -> grows (tree st) (tree (state_of c)).
Proof.
  intros Hwf Hres.
  destruct Hres as [node nd Hd Hnd Hcs
                   |nd a1 Hd Hnd Hcs Hp Hex Hc
                   |node nd a1 p pn cs cs' Hd Hnd Hcs Hp Hex Hc Hpn Hpcs Hin Hrm
                   |node nd a1 prog tm a2 Hd Hnd Hcs Hex Hc Htm Hbp]; simpl.
  - apply grows_refl.
  - by apply (grows_expand _ _ 0 nd).
  - apply (grows_trans _ a1); [by apply (grows_expand _ _ node nd)|].
    destruct (expand_node_spec _ _ _ Hnd) as (a1' & Hex' & Hlen & _ & Hsame & _).
    assert (a1' = a1) by congruence. subst a1'.
    pose proof (wf_parent_lt _ Hwf node nd p Hnd Hp) as Hlt.
    pose proof (lookup_lt_Some _ _ _ Hnd) as Hnode.
    apply (grows_prune a1 p pn cs cs'); [rewrite Hsame; [done|lia|lia]|done|].
    intros y Hy.
    by apply (list_remove_spec node cs cs' Hrm (wf_nodup _ Hwf p pn cs Hpn Hpcs)) in Hy as [? _].
  - apply (grows_trans _ a1); [by apply (grows_expand _ _ node nd)|].
    destruct (expand_node_spec _ _ _ Hnd) as (a1' & Hex' & Hlen & _).
    assert (a1' = a1) by congruence. subst a1'.
    pose proof (lookup_lt_Some _ _ _ Hnd) as Hnode.
    apply (grows_backprop a1 a2 node tm); [by eapply wf_expand|lia|done].
Qed.

(** What an iteration selected: nothing when it stops, otherwise an
    unexpanded node, which it leaves expanded. *)
Lemma iter_result_selected i st c :
  wf (tree st) -> iter_result i st c ->
  (tree (state_of c) = tree st /\ events (state_of c) = events st ++ [EvStop i]) \/
  exists node nd nd',
    descend (length (tree st)) (tree st) 0 = Ok node /\
    tree st !! node = Some nd /\ children nd = None /\
    tree (state_of c) !! node = Some nd' /\ children nd' = Some (new_kids st nd) /\
    length (tree (state_of c)) = length (tree st) + length (get_kernel_actions W (kernel nd)) /\
    forall v, length (tree st) <= v ->
      tree (state_of c) !! v =
        (fun k => new_node k (Some node)) <$>
          (get_kernel_actions W (kernel nd) !! (v - length (tree st))).
Proof.
  intros Hwf Hres.
  destruct Hres as [node nd Hd Hnd Hcs
                   |nd a1 Hd Hnd Hcs Hp Hex Hc
                   |node nd a1 p pn cs cs' Hd Hnd Hcs Hp Hex Hc Hpn Hpcs Hin Hrm
                   |node nd a1 prog tm a2 Hd Hnd Hcs Hex Hc Htm Hbp]; simpl.
  - by left.
  - right. destruct (expand_node_spec _ _ _ Hnd) as (a1' & Hex' & Hlen & Hn1 & _ & Hnew).
    assert (a1' = a1) by congruence. subst a1'.
    exists 0, nd. eexists. repeat split; try done.
  - right. destruct (expand_node_spec _ _ _ Hnd) as (a1' & Hex' & Hlen & Hn1 & _ & Hnew).
    assert (a1' = a1) by congruence. subst a1'.
    pose proof (wf_parent_lt _ Hwf node nd p Hnd Hp) as Hlt.
    pose proof (lookup_lt_Some _ _ _ Hnd) as Hnode.
    exists node, nd. eexists. split; [done|]. split; [done|]. split; [done|].
    split; [rewrite list_lookup_insert_ne by lia; done|]. split; [done|].
    split; [by rewrite length_insert|].
    intros v Hv. rewrite list_lookup_insert_ne by lia. by apply Hnew.
  - right. destruct (expand_node_spec _ _ _ Hnd) as (a1' & Hex' & Hlen & Hn1 & _ & Hnew).
    assert (a1' = a1) by congruence. subst a1'.
    pose proof (wf_expand _ _ _ _ Hwf Hnd Hex) as Hwf1.
    pose proof (lookup_lt_Some _ _ _ Hnd) as Hnode.
    assert (Hnode1 : node < length a1) by lia.
    destruct (backprop_effect a1 a2 node tm Hwf1 Hnode1 Hbp) as [Hlen2 Heff].
    exists node, nd. eexists. split; [done|]. split; [done|]. split; [done|].
    split; [by apply Heff|]. split; [by destruct (bool_decide _)|]. split; [lia|].
    intros v Hv. destruct (a1 !! v) as [y|] eqn:Hy.
    + rewrite (Heff v y Hy). rewrite bool_decide_eq_false_2.
      * by rewrite <- Hnew, Hy.
      * intros Hin. apply (ancestors_le a1 (wf_parent_lt _ Hwf1)) in Hin. lia.
    + rewrite <- Hnew, Hy by done. apply lookup_ge_None. apply lookup_ge_None in Hy. lia.
Qed.

Lemma compiled_nodes_app (e1 e2 : list event) :
  compiled_nodes (e1 ++ e2) = compiled_nodes e1 ++ compiled_nodes e2.
Proof. induction e1 as [|e r IH]; [done|]. destruct e; simpl; by rewrite ?IH. Qed.

Lemma pruned_nodes_app (e1 e2 : list event) :
  pruned_nodes (e1 ++ e2) = pruned_nodes e1 ++ pruned_nodes e2.
Proof. induction e1 as [|e r IH]; [done|]. destruct e; simpl; by rewrite ?IH. Qed.

(** What an iteration does to the counts, the rewards and the best result. *)
Lemma iter_result_counts i st c :
  wf (tree st) -> iter_result i st c ->
  (rollouts (events (state_of c)) = rollouts (events st) /\
   timed (events (state_of c)) = timed (events st) /\
   best (state_of c) = best st /\ best_tm (state_of c) = best_tm st /\
   forall v x, tree st !! v = Some x ->
     exists x', tree (state_of c) !! v = Some x' /\ n x' = n x /\ t x' = t x)
  \/
  (exists node nd prog tm,
     descend (length (tree st)) (tree st) 0 = Ok node /\
     tree st !! node = Some nd /\ children nd = None /\
     compile_fn W (kernel nd) = Some prog /\
     py_min (time_program W i prog (best_tm st * 10)%float) = Ok tm /\
     rollouts (events (state_of c)) = rollouts (events st) ++ [(node, tm)] /\
     timed (events (state_of c)) = timed (events st) ++ [node] /\
     best (state_of c) = (if (tm <? best_tm st)%float then kernel nd else best st) /\
     best_tm (state_of c) = (if (tm <? best_tm st)%float then tm else best_tm st) /\
     forall v x, tree st !! v = Some x ->
       exists x', tree (state_of c) !! v = Some x' /\
         if decide (v ∈ path (tree st) node)
         then n x' = S (n x) /\ t x' = (t x + - (tm * 1e6))%float
         else n x' = n x /\ t x' = t x).
Proof.
  intros Hwf Hres.
  destruct Hres as [node nd Hd Hnd Hcs
                   |nd a1 Hd Hnd Hcs Hp Hex Hc
                   |node nd a1 p pn cs cs' Hd Hnd Hcs Hp Hex Hc Hpn Hpcs Hin Hrm
                   |node nd a1 prog tm a2 Hd Hnd Hcs Hex Hc Htm Hbp]; simpl.
  - left. rewrite rollouts_app, timed_app, !app_nil_r. repeat split; eauto.
  - left. rewrite rollouts_app, timed_app, !app_nil_r. repeat split; try done.
    destruct (expand_node_frame _ _ _ _ Hnd Hex) as [Hold _].
    intros v x Hx. destruct (Hold v x Hx) as (x' & ? & ? & ? & _). eauto.
  - left. rewrite !rollouts_app, !timed_app, !app_nil_r. repeat split; try done.
    destruct (expand_node_frame _ _ _ _ Hnd Hex) as [Hold _].
    destruct (expand_node_spec _ _ _ Hnd) as (a1' & Hex' & Hlen & _ & Hsame & _).
    assert (a1' = a1) by congruence. subst a1'.
    pose proof (wf_parent_lt _ Hwf node nd p Hnd Hp) as Hlt.
    pose proof (lookup_lt_Some _ _ _ Hnd) as Hnode.
    assert (Hpn1 : a1 !! p = Some pn) by (rewrite Hsame; [done|lia|lia]).
    intros v x Hx. destruct (Hold v x Hx) as (x1 & Hx1 & Hn1 & Ht1 & _).
    destruct (prune_frame a1 p pn cs' Hpn1 v x1 Hx1) as (x' & Hx' & Hn' & Ht' & _).
    exists x'. split; [done|]. split; congruence.
  - right. exists node, nd, prog, tm.
    destruct (expand_node_frame _ _ _ _ Hnd Hex) as [Hold _].
    destruct (expand_node_spec _ _ _ Hnd) as (a1' & Hex' & Hlen & _).
    assert (a1' = a1) by congruence. subst a1'.
    pose proof (wf_expand _ _ _ _ Hwf Hnd Hex) as Hwf1.
    pose proof (lookup_lt_Some _ _ _ Hnd) as Hnode.
    assert (Hnode1 : node < length a1) by lia.
    destruct (backprop_effect a1 a2 node tm Hwf1 Hnode1 Hbp) as [_ Heff].
    assert (Hpath : path a1 node = path (tree st) node).
    { apply path_ext; [by apply wf_parent_lt|]. intros j Hj.
      destruct (lookup_lt_is_Some_2 (tree st) j) as [y Hy]; [lia|].
      destruct (Hold j y Hy) as (y' & Hy' & _ & _ & Hpar). by rewrite Hy, Hy'. }
    rewrite rollouts_app, timed_app. repeat split; try done.
    intros v x Hx. destruct (Hold v x Hx) as (x1 & Hx1 & Hn1 & Ht1 & _).
    rewrite (Heff v x1 Hx1), Hpath. eexists. split; [done|].
    destruct (decide (v ∈ path (tree st) node)) as [Hv|Hv].
    + rewrite bool_decide_eq_true_2 by done. simpl. split; congruence.
    + rewrite bool_decide_eq_false_2 by done. done.
Qed.

(** What an iteration adds to the record. *)
Lemma iter_result_record i st c :
  wf (tree st) -> iter_result i st c ->
  (rollouts (events (state_of c)) = rollouts (events st) /\
   timed (events (state_of c)) = timed (events st) /\
   compiled_nodes (events (state_of c)) = compiled_nodes (events st) /\
   compiled (events (state_of c)) = compiled (events st) /\
   pruned_nodes (events (state_of c)) = pruned_nodes (events st))
  \/
  (exists node nd,
     descend (length (tree st)) (tree st) 0 = Ok node /\
     tree st !! node = Some nd /\ children nd = None /\
     compiled_nodes (events (state_of c)) = compiled_nodes (events st) ++ [node] /\
     compiled (events (state_of c)) = compiled (events st) ++ [kernel nd] /\
     ((compile_fn W (kernel nd) = None /\
       rollouts (events (state_of c)) = rollouts (events st) /\
       timed (events (state_of c)) = timed (events st) /\
       (pruned_nodes (events (state_of c)) = pruned_nodes (events st) \/
        exists p pn' cs',
          pruned_nodes (events (state_of c)) = pruned_nodes (events st) ++ [node] /\
          parent nd = Some p /\ tree (state_of c) !! p = Some pn' /\
          children pn' = Some cs' /\ (node ∉ cs')))
      \/
      (exists prog tm,
         compile_fn W (kernel nd) = Some prog /\
         rollouts (events (state_of c)) = rollouts (events st) ++ [(node, tm)] /\
         timed (events (state_of c)) = timed (events st) ++ [node] /\
         pruned_nodes (events (state_of c)) = pruned_nodes (events st)))).
Proof.
  intros Hwf Hres.
  destruct Hres as [node nd Hd Hnd Hcs
                   |nd a1 Hd Hnd Hcs Hp Hex Hc
                   |node nd a1 p pn cs cs' Hd Hnd Hcs Hp Hex Hc Hpn Hpcs Hin Hrm
                   |node nd a1 prog tm a2 Hd Hnd Hcs Hex Hc Htm Hbp]; simpl.
  - left. by rewrite rollouts_app, timed_app, compiled_nodes_app, compiled_app,
      pruned_nodes_app, !app_nil_r.
  - right. exists 0, nd.
    rewrite rollouts_app, timed_app, compiled_nodes_app, compiled_app, pruned_nodes_app,
      !app_nil_r.
    repeat split; try done. left. repeat split; try done. by left.
  - right. exists node, nd.
    rewrite !rollouts_app, !timed_app, !compiled_nodes_app, !compiled_app,
      !pruned_nodes_app, !app_nil_r. simpl.
    repeat split; try done. left. repeat split; try done. right.
    destruct (expand_node_spec _ _ _ Hnd) as (a1' & Hex' & Hlen & _ & Hsame & _).
    assert (a1' = a1) by congruence. subst a1'.
    pose proof (wf_parent_lt _ Hwf node nd p Hnd Hp) as Hlt.
    pose proof (lookup_lt_Some _ _ _ Hnd) as Hnode.
    destruct (list_remove_spec node cs cs' Hrm (wf_nodup _ Hwf p pn cs Hpn Hpcs))
      as (Hout & _ & _).
    exists p, (set_children pn (Some cs')), cs'. repeat split; try done.
    apply list_lookup_insert_eq. lia.
  - right. exists node, nd.
    rewrite rollouts_app, timed_app, compiled_nodes_app, compiled_app, pruned_nodes_app,
      !app_nil_r.
    repeat split; try done. right. exists prog, tm. done.
Qed.

(** ** Further invariants of a run *)

Lemma SFltb_bound r b tm :
  SFltb r b = false -> SFltb tm b = true -> SFltb r tm = false.
Proof.
  unfold SFltb.
  destruct r as [sr|sr| |sr mr er], b as [sb|sb| |sb mb eb], tm as [s|s| |s m e];
    try destruct sr; try destruct sb; try destruct s; simpl; try congruence;
    intros; cmp_cases.
Qed.

Lemma ltb_bound r b tm :
  (r <? b)%float = false -> (tm <? b)%float = true -> (r <? tm)%float = false.
Proof. rewrite !FloatAxioms.ltb_spec. apply SFltb_bound. Qed.

Lemma ancestors_parent_of (a : arena) fuel b v :
  v ∈ ancestors fuel a (Some b) ->
  v = b \/ exists c cn, a !! c = Some cn /\ parent cn = Some v.
Proof.
  revert b. induction fuel as [|f IH]; intros b; simpl; [by rewrite elem_of_nil|].
  rewrite elem_of_cons. intros [->|Hv]; [by left|]. right.
  destruct (a !! b) as [nd|] eqn:Eb; simpl in Hv.
  - destruct (parent nd) as [p|] eqn:Ep.
    + destruct (IH p Hv) as [->|Hc]; [eauto|done].
    + destruct f; by apply elem_of_nil in Hv.
  - destruct f; by apply elem_of_nil in Hv.
Qed.

Lemma inv_tree_init lin : inv_tree lin (init_state lin).
Proof.
  split; simpl.
  - intros [|c] cn p pn H Hp; simpl in H; [inversion H; subst cn; done|done].
  - intros [|c] cn p pn H Hp; simpl in H; [inversion H; subst cn; done|done].
  - intros r H. by inversion H.
  - intros [|v] nd H _; simpl in H; [inversion H; subst nd; done|done].
  - intros node H. by apply elem_of_nil in H.
  - constructor.
  - done.
  - done.
  - intros r nd H. by apply elem_of_nil in H.
  - intros node H. by apply elem_of_nil in H.
  - intros r H. by apply elem_of_nil in H.
  - by left.
Qed.

Lemma inv_tree_step lin i st c :
  inv st -> inv_tree lin st -> iter_result i st c -> inv_tree lin (state_of c).
Proof.
  intros Hinv Hit Hres. pose proof (inv_wf _ Hinv) as Hwf.
  pose proof (inv_wf _ (inv_step i st c Hinv Hres)) as Hwf'.
  pose proof (iter_result_grows i st c Hwf Hres) as [Hlen Hgrow].
  pose proof (iter_result_selected i st c Hwf Hres) as Hsel.
  pose proof (iter_result_counts i st c Hwf Hres) as Hcnt.
  pose proof (iter_result_record i st c Hwf Hres) as Hrec.
  set (st' := state_of c) in *.
  (* a node beyond the old tree is a fresh child of the selected node *)
  assert (Hfresh : forall v x', tree st' !! v = Some x' -> length (tree st) <= v ->
            exists node nd nd' k,
              tree st !! node = Some nd /\ k ∈ get_kernel_actions W (kernel nd) /\
              x' = new_node k (Some node) /\
              tree st' !! node = Some nd' /\ children nd' = Some (new_kids st nd)).
  { intros v x' Hx' Hv. destruct Hsel as [[Heq _]|(node & nd & nd' & _ & Hnd & _ & Hnd' & Hcs' & _ & Hnew)].
    - apply lookup_lt_Some in Hx'. rewrite Heq in Hx'. lia.
    - rewrite (Hnew v Hv) in Hx'.
      destruct (get_kernel_actions W (kernel nd) !! (v - length (tree st))) as [k|] eqn:Hk;
        simpl in Hx'; [|done].
      exists node, nd, nd', k. split; [done|].
      split; [apply list_elem_of_lookup; eauto|]. split; [congruence|]. done. }
  assert (Hexp : forall c0 cn p pn,
            tree st' !! c0 = Some cn -> parent cn = Some p -> tree st' !! p = Some pn ->
            children pn <> None).
  { intros c0 cn p pn Hc0 Hp Hpn. destruct (decide (c0 < length (tree st))) as [Hold|Hnew].
    - destruct (lookup_lt_is_Some_2 _ _ Hold) as [x Hx].
      destruct (Hgrow c0 x Hx) as (x' & Hx' & _ & Hpar & _).
      assert (x' = cn) by congruence. subst x'.
      assert (Hpx : parent x = Some p) by congruence.
      pose proof (wf_parent_lt _ Hwf c0 x p Hx Hpx) as Hlt.
      destruct (lookup_lt_is_Some_2 (tree st) p) as [px Hpx']; [lia|].
      pose proof (it_parent_expanded lin st Hit c0 x p px Hx Hpx Hpx') as Hne.
      destruct (children px) as [cs|] eqn:Hcs; [|done].
      destruct (Hgrow p px Hpx') as (px1 & Hpx1 & _ & _ & _ & Hch).
      destruct (Hch cs Hcs) as (cs1 & Hcs1 & _). congruence.
    - destruct (Hfresh c0 cn Hc0 ltac:(lia)) as (node & nd & nd' & k & _ & _ & -> & Hnd' & Hcs').
      simpl in Hp. inversion Hp; subst p. congruence. }
  split.
  - exact Hexp.
  - intros c0 cn p pn Hc0 Hp Hpn. destruct (decide (c0 < length (tree st))) as [Hold|Hnew].
    + destruct (lookup_lt_is_Some_2 _ _ Hold) as [x Hx].
      destruct (Hgrow c0 x Hx) as (x' & Hx' & Hk & Hpar & _).
      assert (x' = cn) by congruence. subst x'.
      assert (Hpx : parent x = Some p) by congruence.
      pose proof (wf_parent_lt _ Hwf c0 x p Hx Hpx) as Hlt.
      destruct (lookup_lt_is_Some_2 (tree st) p) as [px Hpx']; [lia|].
      destruct (Hgrow p px Hpx') as (px1 & Hpx1 & Hk1 & _).
      assert (px1 = pn) by congruence. subst px1.
      rewrite Hk, Hk1. by apply (it_child_kernel lin st Hit c0 x p px).
    + destruct (Hfresh c0 cn Hc0 ltac:(lia)) as (node & nd & nd' & k & Hnd & Hk & -> & Hnd' & _).
      simpl in Hp. inversion Hp; subst p. simpl.
      destruct (Hgrow node nd Hnd) as (nd1 & Hnd1 & Hk1 & _).
      assert (nd1 = pn) by congruence. subst nd1. by rewrite Hk1.
  - intros r Hr. destruct (wf_root _ Hwf) as (r0 & Hr0 & _).
    destruct (Hgrow 0 r0 Hr0) as (r1 & Hr1 & Hk & _).
    assert (r1 = r) by congruence. subst r1. rewrite Hk.
    by apply (it_root_kernel lin st Hit).
  - intros v x' Hx' Hcs'. destruct (decide (v < length (tree st))) as [Hold|Hnew].
    + destruct (lookup_lt_is_Some_2 _ _ Hold) as [x Hx].
      destruct (Hgrow v x Hx) as (x1 & Hx1 & _ & _ & _ & Hch).
      assert (x1 = x') by congruence. subst x1.
      assert (Hxcs : children x = None).
      { destruct (children x) as [cs|] eqn:E; [|done].
        destruct (Hch cs eq_refl) as (cs1 & Hcs1 & _). congruence. }
      destruct (it_unexpanded lin st Hit v x Hx Hxcs) as [Hn0 Ht0].
      destruct Hcnt as [(_ & _ & _ & _ & Hsame)
                       |(node & nd & prog & tm & Hd & Hnd & _ & _ & _ & Hro & _ & _ & _ & Hcred)].
      * destruct (Hsame v x Hx) as (x1 & Hx1' & Hn1 & Ht1).
        assert (x1 = x') by congruence. subst x1. split; congruence.
      * destruct (Hcred v x Hx) as (x1 & Hx1' & Hif).
        assert (x1 = x') by congruence. subst x1.
        destruct (decide (v ∈ path (tree st) node)) as [Hin|Hout].
        -- exfalso. apply ancestors_parent_of in Hin as [->|(c0 & cn & Hc0 & Hpc)].
           ++ destruct Hsel as [[_ Hev]|(node' & nd0 & nd' & Hd' & _ & _ & Hnd' & Hcs0 & _)].
              ** fold st' in Hev. rewrite Hev, rollouts_app in Hro. simpl in Hro.
                 apply (f_equal length) in Hro. rewrite app_nil_r, length_app in Hro.
                 simpl in Hro. lia.
              ** assert (node' = node) by congruence. subst node'. congruence.
           ++ destruct (lookup_lt_is_Some_2 (tree st) v Hold) as [xv Hxv].
              assert (xv = x) by congruence. subst xv.
              by apply (it_parent_expanded lin st Hit c0 cn v x Hc0 Hpc Hx).
        -- destruct Hif as [Hn1 Ht1]. split; congruence.
    + destruct (Hfresh v x' Hx' ltac:(lia)) as (node & nd & nd' & k & _ & _ & -> & _). done.
  - intros node Hnode.
    assert (Hkeep : node ∈ compiled_nodes (events st) ->
              exists nd, tree st' !! node = Some nd /\ children nd <> None).
    { intros Hin. destruct (it_compiled lin st Hit node Hin) as (nd & Hnd & Hne).
      destruct (Hgrow node nd Hnd) as (nd1 & Hnd1 & _ & _ & _ & Hch).
      exists nd1. split; [done|]. destruct (children nd) as [cs|] eqn:E; [|done].
      destruct (Hch cs eq_refl) as (cs1 & Hcs1 & _). congruence. }
    destruct Hrec as [(_ & _ & Hcn & _)|(n2 & d2 & Hd2 & Hnd2 & _ & Hcn & _)];
      rewrite Hcn in Hnode; [by apply Hkeep|].
    apply elem_of_app in Hnode as [Hnode|Hnode]; [by apply Hkeep|].
    apply list_elem_of_singleton in Hnode. subst node.
    destruct Hsel as [[Heq Hev]|(node' & nd0 & nd' & Hd' & _ & _ & Hnd' & Hcs0 & _)].
    + exfalso. fold st' in Hev. apply (f_equal compiled_nodes) in Hev.
      rewrite Hcn, compiled_nodes_app in Hev. simpl in Hev.
      rewrite app_nil_r in Hev. apply (f_equal length) in Hev.
      rewrite length_app in Hev. simpl in Hev. lia.
    + assert (node' = n2) by congruence. subst node'. exists nd'. split; [done|]. congruence.
  - destruct Hrec as [(_ & _ & Hcn & _)|(n2 & d2 & Hd2 & Hnd2 & Hcs2 & Hcn & _)]; rewrite Hcn.
    + apply (it_compiled_nodup lin st Hit).
    + apply NoDup_app. split; [apply (it_compiled_nodup lin st Hit)|]. split.
      * intros x Hx Hx'. apply list_elem_of_singleton in Hx'. subst x.
        destruct (it_compiled lin st Hit n2 Hx) as (nd & Hnd & Hne). congruence.
      * apply NoDup_singleton.
  - destruct Hrec as [(Hro & Hti & _)|(n2 & d2 & _ & _ & _ & _ & _ & Hcase)].
    + rewrite Hro, Hti. apply (it_timed lin st Hit).
    + destruct Hcase as [(_ & Hro & Hti & _)|(prog & tm & _ & Hro & Hti & _)]; rewrite Hro, Hti.
      * apply (it_timed lin st Hit).
      * rewrite fmap_app. simpl. by rewrite (it_timed lin st Hit).
  - destruct Hrec as [(_ & Hti & Hcn & _)|(n2 & d2 & _ & _ & _ & Hcn & _ & Hcase)].
    + rewrite Hti, Hcn. apply (it_timed_compiled lin st Hit).
    + destruct Hcase as [(_ & _ & Hti & _)|(prog & tm & _ & _ & Hti & _)]; rewrite Hti, Hcn.
      * apply sublist_inserts_r. apply (it_timed_compiled lin st Hit).
      * apply sublist_app; [apply (it_timed_compiled lin st Hit)|done].
  - intros r nd Hr Hnd.
    assert (Hkeep : r ∈ rollouts (events st) -> compile_fn W (kernel nd) <> None).
    { intros Hin. pose proof (inv_range _ Hinv r Hin) as Hlt.
      destruct (lookup_lt_is_Some_2 _ _ Hlt) as [x Hx].
      destruct (Hgrow (fst r) x Hx) as (x1 & Hx1 & Hk & _).
      assert (x1 = nd) by congruence. subst x1. rewrite Hk.
      by apply (it_rolled_compiles lin st Hit r x). }
    destruct Hrec as [(Hro & _)|(n2 & d2 & _ & Hnd2 & _ & _ & _ & Hcase)].
    + rewrite Hro in Hr. by apply Hkeep.
    + destruct Hcase as [(_ & Hro & _)|(prog & tm & Hc & Hro & _)]; rewrite Hro in Hr.
      * by apply Hkeep.
      * apply elem_of_app in Hr as [Hr|Hr]; [by apply Hkeep|].
        apply list_elem_of_singleton in Hr. subst r. simpl in Hnd.
        destruct (Hgrow n2 d2 Hnd2) as (x1 & Hx1 & Hk & _).
        assert (x1 = nd) by congruence. subst x1. rewrite Hk. congruence.
  - intros node Hnode.
    assert (Hkeep : node ∈ pruned_nodes (events st) ->
              exists nd p pn cs, tree st' !! node = Some nd /\ parent nd = Some p /\
                tree st' !! p = Some pn /\ children pn = Some cs /\ (node ∉ cs)).
    { intros Hin. destruct (it_pruned lin st Hit node Hin) as (nd & p & pn & cs & Hnd & Hp & Hpn & Hcs & Hout).
      destruct (Hgrow node nd Hnd) as (nd1 & Hnd1 & _ & Hp1 & _).
      destruct (Hgrow p pn Hpn) as (pn1 & Hpn1 & _ & _ & _ & Hch).
      destruct (Hch cs Hcs) as (cs1 & Hcs1 & Hsub).
      exists nd1, p, pn1, cs1. repeat split; try done; [congruence|]. intros Hy. auto. }
    destruct Hrec as [(_ & _ & _ & _ & Hpr)|(n2 & d2 & _ & Hnd2 & _ & _ & _ & Hcase)].
    + rewrite Hpr in Hnode. by apply Hkeep.
    + destruct Hcase as [(_ & _ & _ & [Hpr|(p & pn' & cs' & Hpr & Hp & Hpn' & Hcs' & Hout)])
                        |(prog & tm & _ & _ & _ & Hpr)]; rewrite Hpr in Hnode;
        try (by apply Hkeep).
      apply elem_of_app in Hnode as [Hnode|Hnode]; [by apply Hkeep|].
      apply list_elem_of_singleton in Hnode. subst node.
      destruct (Hgrow n2 d2 Hnd2) as (nd1 & Hnd1 & _ & Hp1 & _).
      exists nd1, p, pn', cs'. repeat split; try done. congruence.
  - intros r Hr.
    destruct Hcnt as [(Hro & _ & _ & Hbt & _)
                     |(node & nd & prog & tm & _ & _ & _ & _ & _ & Hro & _ & _ & Hbt & _)];
      rewrite Hro in Hr; rewrite Hbt.
    + by apply (it_best_bound lin st Hit).
    + apply elem_of_app in Hr as [Hr|Hr].
      * pose proof (it_best_bound lin st Hit r Hr) as Hold.
        destruct (tm <? best_tm st)%float eqn:E; [by apply (ltb_bound _ (best_tm st))|done].
      * apply list_elem_of_singleton in Hr. subst r. simpl.
        destruct (tm <? best_tm st)%float eqn:E; [apply ltb_irrefl|done].
  - assert (Hkeep : best st' = best st -> best_tm st' = best_tm st ->
              (forall r, r ∈ rollouts (events st) -> r ∈ rollouts (events st')) ->
              (best st' = lin /\ best_tm st' = infinity) \/
              (exists r nd, r ∈ rollouts (events st') /\ tree st' !! fst r = Some nd /\
                            kernel nd = best st' /\ snd r = best_tm st')).
    { intros Hb Hbt Hsub. destruct (it_best lin st Hit) as [[H1 H2]|(r & nd & Hr & Hnd & Hk & Htm)].
      - left. split; congruence.
      - right. destruct (Hgrow (fst r) nd Hnd) as (nd1 & Hnd1 & Hk1 & _).
        exists r, nd1. repeat split; [by apply Hsub|done|congruence|congruence]. }
    destruct Hcnt as [(Hro & _ & Hb & Hbt & _)
                     |(node & nd & prog & tm & _ & Hnd & _ & _ & _ & Hro & _ & Hb & Hbt & _)].
    + apply Hkeep; [done|done|]. intros r Hr. by rewrite Hro.
    + destruct (tm <? best_tm st)%float eqn:E.
      * right. destruct (Hgrow node nd Hnd) as (nd1 & Hnd1 & Hk1 & _).
        exists (node, tm), nd1. rewrite Hro, Hb, Hbt. repeat split; try done.
        apply elem_of_app. right. by left.
      * apply Hkeep; [done|done|]. intros r Hr. rewrite Hro. apply elem_of_app. by left.
Qed.

Lemma reachable_inv_tree lin st : reachable lin st -> inv_tree lin st.
Proof.
  induction 1 as [|i st c Hreach IH Hit]; [apply inv_tree_init|].
  pose proof (reachable_inv lin st Hreach) as Hinv.
  apply (inv_tree_step lin i st c Hinv IH). by apply iteration_inv; [apply (inv_wf _ Hinv)|].
Qed.

(** ** The tree of a search *)

(** X1. In every state of a search the nodes form a tree rooted at node 0:
    the root alone has no parent, the parent of any other node is an older
    node that is expanded, a node is listed only among the children of its
    parent and at most once, following the parents from any node leads to
    the root, and a node that was never expanded has no visit and no
    reward. *)
Theorem search_tree_is_a_tree lin st :
  reachable lin st ->
  (exists r, tree st !! 0 = Some r /\ parent r = None /\ kernel r = lin) /\
  (forall v nd, tree st !! v = Some nd -> v <> 0 ->
     exists p pn cs, parent nd = Some p /\ p < v /\ tree st !! p = Some pn /\
                     children pn = Some cs) /\
  (forall p pn cs c, tree st !! p = Some pn -> children pn = Some cs -> c ∈ cs ->
     exists cn, tree st !! c = Some cn /\ parent cn = Some p) /\
  (forall p pn cs, tree st !! p = Some pn -> children pn = Some cs -> NoDup cs) /\
  (forall v nd, tree st !! v = Some nd -> 0 ∈ path (tree st) v) /\
  (forall v nd, tree st !! v = Some nd -> children nd = None ->
     n nd = 0 /\ t nd = 0%float).
Proof.
  intros Hreach. pose proof (inv_wf _ (reachable_inv lin st Hreach)) as Hwf.
  pose proof (reachable_inv_tree lin st Hreach) as Hit.
  split.
  { destruct (wf_root _ Hwf) as (r & Hr & Hp). exists r. split; [done|]. split; [done|].
    by apply (it_root_kernel lin st Hit). }
  split.
  { intros v nd Hnd Hv. destruct (parent nd) as [p|] eqn:Hp.
    - pose proof (wf_parent_lt _ Hwf v nd p Hnd Hp) as Hlt.
      pose proof (lookup_lt_Some _ _ _ Hnd) as Hlen.
      destruct (lookup_lt_is_Some_2 (tree st) p) as [pn Hpn]; [lia|].
      pose proof (it_parent_expanded lin st Hit v nd p pn Hnd Hp Hpn) as Hne.
      destruct (children pn) as [cs|] eqn:Hcs; [|done]. exists p, pn, cs. done.
    - by pose proof (wf_parent_root _ Hwf v nd Hnd Hp). }
  split; [apply (wf_children _ Hwf)|]. split; [apply (wf_nodup _ Hwf)|]. split.
  - intros v nd Hnd. unfold path.
    apply ancestors_root; [by apply wf_parent_lt|by apply wf_parent_root| |lia].
    by apply lookup_lt_Some in Hnd.
  - apply (it_unexpanded lin st Hit).
Qed.

(** ** The loop over the budget *)

Lemma run_grows lin idxs st st' :
  reachable lin st -> run idxs st = Ok st' ->
  grows (tree st) (tree st') /\ exists new, events st' = events st ++ new.
Proof.
  revert st. induction idxs as [|i rest IH]; intros st Hreach H; simpl in H.
  - inversion H; subst st'. split; [apply grows_refl|]. exists []. by rewrite app_nil_r.
  - destruct (iteration i st) as [c|] eqn:Hit; simpl in H; [|done].
    pose proof (inv_wf _ (reachable_inv lin st Hreach)) as Hwf.
    pose proof (iteration_inv i st c Hwf Hit) as Hres.
    pose proof (iter_result_grows i st c Hwf Hres) as Hg.
    assert (Hev : exists new, events (state_of c) = events st ++ new).
    { destruct Hres; simpl; eauto. rewrite <- app_assoc. eauto. }
    pose proof (reach_step lin i st c Hreach Hit) as Hc.
    destruct c as [st1|st1]; simpl in *.
    + destruct (IH st1 Hc H) as [Hg' [new' Hev']]. destruct Hev as [new Hev].
      split; [by apply (grows_trans _ (tree st1))|].
      exists (new ++ new'). by rewrite Hev', Hev, app_assoc.
    + by inversion H; subst.
Qed.

(** X5. Over any further iterations of a search the tree only grows: no
    node is lost, the kernel and the parent of a node never change, visit
    counts never decrease, and a node once expanded stays expanded, its
    children collection only ever losing members; the record of events is
    only extended. *)
Theorem tree_only_grows lin idxs st st' :
  reachable lin st -> run idxs st = Ok st' ->
  length (tree st) <= length (tree st') /\
  (forall v x, tree st !! v = Some x ->
     exists x', tree st' !! v = Some x' /\ kernel x' = kernel x /\ parent x' = parent x /\
       n x <= n x' /\
       forall cs, children x = Some cs ->
         exists cs', children x' = Some cs' /\ forall y, y ∈ cs' -> y ∈ cs) /\
  exists new, events st' = events st ++ new.
Proof.
  intros Hreach Hrun. destruct (run_grows lin idxs st st' Hreach Hrun) as [[Hl Hg] Hev].
  done.
Qed.

Lemma compiled_length (evs : list event) :
  length (compiled evs) = length (compiled_nodes evs).
Proof. induction evs as [|e r IH]; [done|]. destruct e; simpl; by rewrite ?IH. Qed.

(** An iteration either stops, compiling nothing, or goes on, having handed
    exactly one kernel to the compiler. *)
Lemma iter_result_stops i st c :
  iter_result i st c ->
  (c = Break (state_of c) /\ events (state_of c) = events st ++ [EvStop i]) \/
  (c = Continue (state_of c) /\
   length (compiled (events (state_of c))) = S (length (compiled (events st))) /\
   exists new, events (state_of c) = events st ++ new /\ forall j, EvStop j ∉ new).
Proof.
  intros Hres. destruct Hres; simpl; [by left|right..]; (split; [done|]);
    rewrite ?compiled_app, ?length_app; simpl; (split; [lia|]).
  - eexists. split; [done|]. intros j Hj. elem_cases Hj.
  - eexists. split; [by rewrite <- app_assoc|]. intros j Hj. simpl in Hj. elem_cases Hj.
  - eexists. split; [done|]. intros j Hj. elem_cases Hj.
Qed.

Lemma run_budget lin len start st st' :
  reachable lin st -> run (seq start len) st = Ok st' ->
  exists k new, k <= len /\ events st' = events st ++ new /\
    length (compiled new) = k /\
    ((k = len /\ forall j, EvStop j ∉ new) \/
     (k < len /\ exists new', new = new' ++ [EvStop (start + k)] /\
                              forall j, EvStop j ∉ new')).
Proof.
  revert start st. induction len as [|len IH]; intros start st Hreach H; simpl in H.
  - inversion H; subst st'. exists 0, []. rewrite app_nil_r. repeat split; try done.
    left. split; [done|]. intros j Hj. by apply elem_of_nil in Hj.
  - destruct (iteration start st) as [c|] eqn:Hit; simpl in H; [|done].
    pose proof (inv_wf _ (reachable_inv lin st Hreach)) as Hwf.
    pose proof (iteration_inv start st c Hwf Hit) as Hres.
    pose proof (reach_step lin start st c Hreach Hit) as Hc.
    destruct (iter_result_stops start st c Hres) as [[Hb Hev]|(Hb & Hlen & new & Hev & Hns)].
    + rewrite Hb in H. inversion H; subst st'. exists 0, [EvStop start].
      split; [lia|]. split; [done|]. split; [done|]. right. split; [lia|].
      exists []. rewrite Nat.add_0_r. split; [done|]. intros j Hj. by apply elem_of_nil in Hj.
    + rewrite Hb in H. destruct (IH (S start) (state_of c) Hc H) as (k & new1 & Hk & Hev1 & Hlen1 & Hcase).
      exists (S k), (new ++ new1). split; [lia|].
      split; [by rewrite Hev1, Hev, app_assoc|].
      assert (Hcn : length (compiled new) = 1).
      { rewrite Hev, compiled_app, length_app in Hlen. lia. }
      split; [rewrite compiled_app, length_app; lia|].
      destruct Hcase as [[-> Hno]|(Hlt & new' & -> & Hno)].
      * left. split; [done|]. intros j Hj. apply elem_of_app in Hj as [Hj|Hj];
          [by apply (Hns j)|by apply (Hno j)].
      * right. split; [lia|]. exists (new ++ new'). rewrite app_assoc.
        replace (start + S k) with (S start + k) by lia. split; [done|].
        intros j Hj. apply elem_of_app in Hj as [Hj|Hj]; [by apply (Hns j)|by apply (Hno j)].
Qed.

(** X4. A search that misses the cache hands one kernel to the compiler per
    completed iteration and never more than the budget allows.  Either it
    makes as many iterations as the budget, with no stop, or it stops at a
    terminal node in an earlier iteration, and the stop is then the last
    event.  The timer is called at most as often as the compiler. *)
Theorem search_respects_budget lin amt d out :
  cache_lookup d (make_key lin amt) = None -> mcts_search lin amt d = Ok out ->
  length (compiled (trace out)) <= Z.to_nat amt /\
  length (timed (trace out)) <= length (compiled (trace out)) /\
  ((length (compiled (trace out)) = Z.to_nat amt /\ forall j, EvStop j ∉ trace out) \/
   (exists new, trace out = new ++ [EvStop (length (compiled (trace out)))] /\
                forall j, EvStop j ∉ new)).
Proof.
  intros Hmiss H. rewrite (mcts_search_miss _ _ _ Hmiss) in H.
  destruct (run (py_range amt) (init_state lin)) as [st|] eqn:Hrun; simpl in H; [|done].
  inversion H; subst out. simpl. unfold py_range in Hrun.
  destruct (run_budget lin _ 0 _ st (reach_init lin) Hrun) as (k & new & Hk & Hev & Hlen & Hcase).
  simpl in Hev. subst new.
  assert (Hreach : reachable lin st) by (eapply run_reachable; [apply reach_init|done]).
  pose proof (reachable_inv_tree lin st Hreach) as Hit.
  split; [lia|]. split.
  { rewrite compiled_length. apply sublist_length, (it_timed_compiled lin st Hit). }
  destruct Hcase as [[-> Hno]|(Hlt & new' & Hnew & Hno)].
  - left. split; [lia|done].
  - right. exists new'. rewrite Hlen. done.
Qed.

(** ** What is compiled, timed and returned *)

(** X3. In a search no node is handed to the compiler twice and none is
    timed twice; the nodes timed are, in the same order, among the nodes
    compiled, each with a kernel that compiles, and they are the nodes of
    the completed rollouts. *)
Theorem compiles_each_node_once lin st :
  reachable lin st ->
  NoDup (compiled_nodes (events st)) /\
  NoDup (timed (events st)) /\
  timed (events st) `sublist_of` compiled_nodes (events st) /\
  timed (events st) = fst <$> rollouts (events st) /\
  (forall node, node ∈ timed (events st) ->
     exists nd, tree st !! node = Some nd /\ compile_fn W (kernel nd) <> None) /\
  (forall node, node ∈ compiled_nodes (events st) ->
     exists nd cs, tree st !! node = Some nd /\ children nd = Some cs).
Proof.
  intros Hreach. pose proof (reachable_inv lin st Hreach) as Hinv.
  pose proof (reachable_inv_tree lin st Hreach) as Hit.
  split; [apply (it_compiled_nodup lin st Hit)|]. split.
  { apply (sublist_NoDup _ _ (it_compiled_nodup lin st Hit)).
    apply (it_timed_compiled lin st Hit). }
  split; [apply (it_timed_compiled lin st Hit)|]. split; [apply (it_timed lin st Hit)|].
  split.
  - intros node Hnode. rewrite (it_timed lin st Hit) in Hnode.
    apply list_elem_of_fmap in Hnode as (r & -> & Hr).
    pose proof (inv_range _ Hinv r Hr) as Hlt.
    destruct (lookup_lt_is_Some_2 _ _ Hlt) as [nd Hnd]. exists nd. split; [done|].
    by apply (it_rolled_compiles lin st Hit r nd).
  - intros node Hnode. destruct (it_compiled lin st Hit node Hnode) as (nd & Hnd & Hne).
    destruct (children nd) as [cs|] eqn:Hcs; [|done]. eauto.
Qed.

(** X2. The kernel that a search (missing the cache) returns is the input
    kernel, in which case no measured timing was below infinity, or the
    kernel of a node that compiled and was timed, and then no timing
    measured in the whole search is below the one measured for it. *)
Theorem returns_fastest_measured lin amt d out :
  cache_lookup d (make_key lin amt) = None -> mcts_search lin amt d = Ok out ->
  (ret out = lin /\
   forall r, r ∈ rollouts (trace out) -> (snd r <? infinity)%float = false) \/
  (exists r nd,
     r ∈ rollouts (trace out) /\ final_tree out !! fst r = Some nd /\
     kernel nd = ret out /\ compile_fn W (ret out) <> None /\
     forall r', r' ∈ rollouts (trace out) -> (snd r' <? snd r)%float = false).
Proof.
  intros Hmiss H.
  destruct (mcts_search_reachable lin amt d out Hmiss H) as (st & Hreach & -> & -> & ->).
  pose proof (reachable_inv_tree lin st Hreach) as Hit.
  pose proof (it_best_bound lin st Hit) as Hbound.
  destruct (it_best lin st Hit) as [[Hb Hbt]|(r & nd & Hr & Hnd & Hk & Htm)].
  - left. split; [done|]. intros r Hr. rewrite <- Hbt. by apply Hbound.
  - right. exists r, nd. split; [done|]. split; [done|]. split; [done|]. split.
    + rewrite <- Hk. by apply (it_rolled_compiles lin st Hit r nd).
    + intros r' Hr'. rewrite Htm. by apply Hbound.
Qed.

Lemma node_derivable lin st v nd :
  reachable lin st -> tree st !! v = Some nd -> derivable lin (kernel nd).
Proof.
  intros Hreach. pose proof (inv_wf _ (reachable_inv lin st Hreach)) as Hwf.
  pose proof (reachable_inv_tree lin st Hreach) as Hit. revert nd.
  induction v as [v IH] using lt_wf_ind. intros nd Hnd.
  destruct (parent nd) as [p|] eqn:Hp.
  - pose proof (wf_parent_lt _ Hwf v nd p Hnd Hp) as Hlt.
    pose proof (lookup_lt_Some _ _ _ Hnd) as Hlen.
    destruct (lookup_lt_is_Some_2 (tree st) p) as [pn Hpn]; [lia|].
    apply (derivable_step lin (kernel pn)); [by apply (IH p)|].
    by apply (it_child_kernel lin st Hit v nd p pn).
  - pose proof (wf_parent_root _ Hwf v nd Hnd Hp). subst v.
    rewrite (it_root_kernel lin st Hit nd Hnd). apply derivable_here.
Qed.

Lemma best_derivable lin st : reachable lin st -> derivable lin (best st).
Proof.
  intros Hreach. pose proof (reachable_inv_tree lin st Hreach) as Hit.
  destruct (it_best lin st Hit) as [[-> _]|(r & nd & _ & Hnd & <- & _)].
  - apply derivable_here.
  - by apply (node_derivable lin st (fst r)).
Qed.

(** X6. Every kernel in the tree of a search, and the kernel the search
    returns, is obtained from the input kernel by a chain of actions of the
    generator, each applied to the kernel before it. *)
Theorem kernels_derive_from_input lin amt d out :
  cache_lookup d (make_key lin amt) = None -> mcts_search lin amt d = Ok out ->
  derivable lin (ret out) /\
  (forall v nd, final_tree out !! v = Some nd -> derivable lin (kernel nd)) /\
  (forall c cn p pn, final_tree out !! c = Some cn -> parent cn = Some p ->
     final_tree out !! p = Some pn -> kernel cn ∈ get_kernel_actions W (kernel pn)).
Proof.
  intros Hmiss H.
  destruct (mcts_search_reachable lin amt d out Hmiss H) as (st & Hreach & -> & -> & _).
  split; [by apply best_derivable|]. split; [intros v nd; by apply node_derivable|].
  apply (it_child_kernel lin st (reachable_inv_tree lin st Hreach)).
Qed.

Lemma derivable_applied_opts lin k :
  actions_extend -> derivable lin k ->
  exists rest, applied_opts W k = applied_opts W lin ++ rest.
Proof.
  intros Hact. induction 1 as [|k k' Hk IH Hk'].
  - exists []. by rewrite app_nil_r.
  - destruct IH as [rest IH]. destruct (Hact k k' Hk') as [o Ho].
    exists (rest ++ [o]). by rewrite Ho, IH, app_assoc.
Qed.

(** X7. With the cache enabled, a disk cache that finds what was put, an
    action generator that extends the applied options and a kernel class
    that records them, a search that missed the cache is answered from the
    cache when it is asked again: the second call returns a kernel with the
    applied options of the first result, builds no tree, compiles and times
    nothing, and leaves the cache as it is. *)
Theorem second_search_hits_cache lin amt d out :
  replay_law -> cache_law -> actions_extend ->
  IGNORE_BEAM_CACHE W = 0%Z -> (1 <= CACHELEVEL W)%Z ->
  cache_lookup d (make_key lin amt) = None -> mcts_search lin amt d = Ok out ->
  exists out', mcts_search lin amt (disk out) = Ok out' /\
    applied_opts W (ret out') = applied_opts W (ret out) /\
    final_tree out' = [] /\ trace out' = [] /\ disk out' = disk out.
Proof.
  intros Hlaw Hcache Hact Hign Hlevel Hmiss H.
  destruct (mcts_search_reachable lin amt d out Hmiss H) as (st & Hreach & Hret & _).
  destruct (derivable_applied_opts lin (best st) Hact (best_derivable lin st Hreach))
    as [rest Hrest].
  assert (Hdisk : disk out = diskcache_put W d "mcts_search" (make_key lin amt)
                               (applied_opts W (ret out))).
  { rewrite (mcts_search_miss _ _ _ Hmiss) in H.
    destruct (run (py_range amt) (init_state lin)) as [st0|]; simpl in H; [|done].
    inversion H. simpl. by rewrite (proj2 (Z.leb_le 1 (CACHELEVEL W)) Hlevel). }
  unfold mcts_search at 1, cache_lookup.
  rewrite Hign, (proj2 (Z.leb_le 1 (CACHELEVEL W)) Hlevel). simpl.
  assert (Hget : diskcache_get W (disk out) "mcts_search" (make_key lin amt)
                 = Some (applied_opts W (ret out))) by (rewrite Hdisk; apply Hcache).
  rewrite Hget. eexists. split; [reflexivity|]. simpl.
  split; [|done]. unfold replay. rewrite Hret, Hrest, drop_app_length.
  by rewrite replay_applied_opts.
Qed.

(** X8. With a budget of zero or less, a search that misses the cache makes
    no iteration: it returns the input kernel, with the root unexpanded and
    nothing compiled or timed, and still writes the applied options of the
    input kernel to the cache when [CACHELEVEL] is at least one. *)
Theorem empty_budget_returns_input lin amt d :
  (amt <= 0)%Z -> cache_lookup d (make_key lin amt) = None ->
  exists out, mcts_search lin amt d = Ok out /\ ret out = lin /\
    final_tree out = [new_node lin None] /\ trace out = [] /\
    disk out = if Z.leb 1 (CACHELEVEL W)
               then diskcache_put W d "mcts_search" (make_key lin amt) (applied_opts W lin)
               else d.
Proof.
  intros Hamt Hmiss. rewrite (mcts_search_miss _ _ _ Hmiss). unfold py_range.
  replace (Z.to_nat amt) with 0 by lia. simpl. eexists. split; [reflexivity|]. done.
Qed.

(** ** The descent *)

Lemma descend_fuel_ge fuel fuel' (a : arena) x y :
  descend fuel a x = Ok y -> fuel <= fuel' -> descend fuel' a x = Ok y.
Proof.
  revert fuel' x. induction fuel as [|f IH]; intros fuel' x H Hle.
  - simpl in H. destruct (get a x) as [nd|] eqn:Hnd; simpl in H; [|done].
    destruct fuel'; simpl; rewrite Hnd; simpl;
      destruct (children nd) as [[|c0 r]|]; try done.
  - destruct fuel' as [|f']; [lia|]. simpl in *.
    destruct (get a x) as [nd|] eqn:Hnd; simpl in *; [|done].
    destruct (children nd) as [[|c0 r]|]; try done.
    destruct (select_child a nd (c0 :: r)) as [c|]; simpl in *; [|done].
    apply IH; [done|lia].
Qed.

Lemma descend_descends fuel (a : arena) x y : descend fuel a x = Ok y -> descends a x y.
Proof.
  revert x. induction fuel as [|f IH]; intros x H; simpl in H;
    destruct (a !! x) as [nd|] eqn:Hnd; unfold get in H; rewrite Hnd in H; simpl in H;
    try done; destruct (children nd) as [[|c0 r]|] eqn:Hcs; try done;
    try (inversion H; subst y; apply descends_here).
  destruct (select_child a nd (c0 :: r)) as [c|] eqn:Hsel; simpl in H; [|done].
  eapply descends_step; eauto.
Qed.

Lemma pruned_not_descended lin st node fuel y :
  reachable lin st -> node ∈ pruned_nodes (events st) ->
  descend fuel (tree st) 0 = Ok y -> y <> node.
Proof.
  intros Hreach Hpr Hd ->. pose proof (inv_wf _ (reachable_inv lin st Hreach)) as Hwf.
  destruct (it_pruned lin st (reachable_inv_tree lin st Hreach) node Hpr)
    as (nd & p & pn & cs & Hnd & Hp & Hpn & Hcs & Hout).
  destruct (descend_inv _ _ _ _ Hd) as (ynd & Hy & _ & [->|(p' & pn' & cs' & Hpn' & Hcs' & Hin)]).
  - destruct (wf_root _ Hwf) as (r & Hr & Hpr'). congruence.
  - destruct (wf_children _ Hwf p' pn' cs' node Hpn' Hcs' Hin) as (nd' & Hnd' & Hp').
    assert (p' = p) by congruence. subst p'. assert (cs' = cs) by congruence. by subst cs'.
Qed.

(** X9. In every state of a search, with a logarithm that is not negative
    on counts, the descent from the root ends without raising, after fewer
    steps than the tree has nodes, whatever larger bound is allowed: it
    ends at a node of the tree that is unexpanded or has no children, that
    is reached from the root through selected children, and that was never
    pruned. *)
Theorem descent_terminates lin st :
  ln_nonneg -> reachable lin st ->
  exists y ynd,
    (forall fuel, length (tree st) <= fuel + 1 -> descend fuel (tree st) 0 = Ok y) /\
    tree st !! y = Some ynd /\ (children ynd = None \/ children ynd = Some []) /\
    descends (tree st) 0 y /\ (y ∉ pruned_nodes (events st)).
Proof.
  intros Hln Hreach. pose proof (inv_wf _ (reachable_inv lin st Hreach)) as Hwf.
  destruct (wf_root _ Hwf) as (r & Hr & _). pose proof (lookup_lt_Some _ _ _ Hr) as Hlen.
  destruct (descend_spec (length (tree st)) (tree st) 0 Hln Hwf Hlen)
    as (y & ynd & Hd & Hy & Hleaf & _); [lia|].
  exists y, ynd. split; [|split; [done|split; [done|split]]].
  - intros fuel Hfuel.
    destruct (descend_spec fuel (tree st) 0 Hln Hwf Hlen) as (y' & _ & Hd' & _); [lia|].
    destruct (decide (fuel <= length (tree st))) as [Hle|Hgt].
    + pose proof (descend_fuel_ge _ _ _ _ _ Hd' Hle). congruence.
    + apply (descend_fuel_ge (length (tree st))); [done|lia].
  - by eapply descend_descends.
  - intros Hpr. by apply (pruned_not_descended lin st y _ y Hreach Hpr Hd).
Qed.

(** X10. A node whose compile failed and that was dropped from the children
    of its parent is not the root, stays absent from those children, and is
    never again the node at which a descent from the root ends, in the
    state where it was pruned and after any further iterations. *)
Theorem pruned_node_never_selected lin st node :
  reachable lin st -> node ∈ pruned_nodes (events st) ->
  node <> 0 /\
  forall idxs st', run idxs st = Ok st' ->
    (exists nd p pn cs, tree st' !! node = Some nd /\ parent nd = Some p /\
       tree st' !! p = Some pn /\ children pn = Some cs /\ (node ∉ cs)) /\
    forall fuel y, descend fuel (tree st') 0 = Ok y -> y <> node.
Proof.
  intros Hreach Hpr. split.
  - intros ->. pose proof (inv_wf _ (reachable_inv lin st Hreach)) as Hwf.
    destruct (it_pruned lin st (reachable_inv_tree lin st Hreach) 0 Hpr)
      as (nd & p & _ & _ & Hnd & Hp & _).
    destruct (wf_root _ Hwf) as (r & Hr & Hpr'). congruence.
  - intros idxs st' Hrun.
    pose proof (run_reachable lin idxs st st' Hreach Hrun) as Hreach'.
    destruct (run_grows lin idxs st st' Hreach Hrun) as [_ [new Hev]].
    assert (Hpr' : node ∈ pruned_nodes (events st')).
    { rewrite Hev, pruned_nodes_app. apply elem_of_app. by left. }
    split; [by apply (it_pruned lin st' (reachable_inv_tree lin st' Hreach'))|].
    intros fuel y Hd. by apply (pruned_not_descended lin st' node fuel y).
Qed.

(** ** A compiler that always fails *)

Lemma score_children_unvisited (a : arena) nd cs :
  (forall c, c ∈ cs -> exists cn, a !! c = Some cn /\ n cn = 0) ->
  exists scored, score_children a nd cs = Ok scored.
Proof.
  induction cs as [|c r IH]; intros Hcs; simpl; [eauto|].
  destruct (Hcs c) as (cn & Hcn & Hn); [by left|].
  destruct IH as [rest Hrest]; [intros; apply Hcs; by right|].
  rewrite (get_lookup _ _ _ Hcn). simpl. unfold ucb_score. rewrite Hn. simpl.
  rewrite Hrest. simpl. eauto.
Qed.

Lemma descend_total_unvisited fuel (a : arena) x :
  wf a -> (forall v nd, a !! v = Some nd -> n nd = 0) ->
  x < length a -> length a <= fuel + x + 1 -> exists y, descend fuel a x = Ok y.
Proof.
  intros Hwf Hzero. revert x. induction fuel as [|f IH]; intros x Hx Hfuel;
    destruct (lookup_lt_is_Some_2 a x Hx) as [nd Hnd];
    simpl; rewrite (get_lookup _ _ _ Hnd); simpl;
    destruct (children nd) as [[|c0 r]|] eqn:Hcs; eauto.
  - destruct (wf_children a Hwf x nd (c0 :: r) c0 Hnd Hcs) as (cn & Hcn & Hp); [by left|].
    pose proof (wf_parent_lt a Hwf c0 cn x Hcn Hp).
    pose proof (lookup_lt_Some _ _ _ Hcn). lia.
  - destruct (score_children_unvisited a nd (c0 :: r)) as [scored Hsc].
    { intros c Hc. destruct (wf_children a Hwf x nd (c0 :: r) c Hnd Hcs Hc) as (cn & Hcn & _).
      exists cn. split; [done|]. by apply (Hzero c). }
    assert (Hsel : exists c, select_child a nd (c0 :: r) = Ok c).
    { unfold select_child. rewrite Hsc. simpl.
      destruct (sorted_reverse scored) as [|[k c] rest] eqn:Es; [|eauto].
      exfalso. pose proof (score_children_snd _ _ _ _ Hsc) as Hsnd.
      destruct scored as [|y l]; [done|].
      assert (Hy : y ∈ sorted_reverse (y :: l)) by (apply sorted_reverse_elem; by left).
      rewrite Es in Hy. by apply elem_of_nil in Hy. }
    destruct Hsel as [c Hsel]. rewrite Hsel. simpl.
    pose proof (select_child_elem _ _ _ _ Hsel) as Hc.
    destruct (wf_children a Hwf x nd (c0 :: r) c Hnd Hcs Hc) as (cn & Hcn & Hp).
    pose proof (wf_parent_lt a Hwf c cn x Hcn Hp).
    pose proof (lookup_lt_Some _ _ _ Hcn).
    apply IH; lia.
Qed.

Lemma no_compile_no_rollout lin st :
  (forall k, compile_fn W k = None) -> reachable lin st ->
  rollouts (events st) = [] /\ forall v nd, tree st !! v = Some nd -> n nd = 0.
Proof.
  intros Hfail Hreach.
  assert (Hro : rollouts (events st) = []).
  { induction Hreach as [|i st c Hreach IH Hit]; [done|].
    pose proof (inv_wf _ (reachable_inv lin st Hreach)) as Hwf.
    destruct (iter_result_record i st c Hwf (iteration_inv i st c Hwf Hit))
      as [(Hr & _)|(node & nd & _ & _ & _ & _ & _ & [(_ & Hr & _)|(prog & tm & Hc & _)])];
      [congruence|congruence|]. by rewrite Hfail in Hc. }
  split; [done|]. intros v nd Hnd.
  destruct (inv_acct _ (reachable_inv lin st Hreach) v nd Hnd) as [Hn _].
  rewrite Hn. unfold rollouts_within. by rewrite Hro.
Qed.

Lemma iteration_total_no_compile lin i st :
  (forall k, compile_fn W k = None) -> reachable lin st -> exists c, iteration i st = Ok c.
Proof.
  intros Hfail Hreach. pose proof (inv_wf _ (reachable_inv lin st Hreach)) as Hwf.
  destruct (no_compile_no_rollout lin st Hfail Hreach) as [_ Hzero].
  destruct (wf_root _ Hwf) as (r & Hr & Hpr). pose proof (lookup_lt_Some _ _ _ Hr) as Hlen.
  destruct (descend_total_unvisited (length (tree st)) (tree st) 0 Hwf Hzero Hlen)
    as [node Hd]; [lia|].
  destruct (descend_inv _ _ _ _ Hd) as (nd & Hnd & Hleaf & Hfrom).
  unfold iteration. rewrite Hd. simpl. rewrite (get_lookup _ _ _ Hnd). simpl.
  destruct Hleaf as [Hleaf|Hleaf]; rewrite Hleaf; [|eauto].
  destruct (expand_node_spec (tree st) node nd Hnd) as (a1 & Hex & Hlen1 & Hn1 & Hold & Hnew).
  pose proof (lookup_lt_Some _ _ _ Hnd) as Hnode.
  rewrite Hex. simpl. rewrite (get_lookup _ _ _ Hn1). simpl. rewrite Hfail.
  destruct (parent nd) as [p|] eqn:Hp; [|eauto].
  destruct Hfrom as [->|(p' & pn & cs & Hpn & Hcs & Hin)]; [congruence|].
  destruct (wf_children _ Hwf p' pn cs node Hpn Hcs Hin) as (nd' & Hnd' & Hp').
  assert (p' = p) by congruence. subst p'.
  pose proof (wf_parent_lt _ Hwf node nd p Hnd Hp) as Hlt.
  rewrite (get_lookup a1 p pn) by (rewrite Hold; [done|lia|lia]). simpl.
  rewrite Hcs. destruct (list_remove_Some node cs Hin) as [cs' Hrm]. rewrite Hrm. eauto.
Qed.

Lemma run_total_no_compile lin idxs st :
  (forall k, compile_fn W k = None) -> reachable lin st -> exists st', run idxs st = Ok st'.
Proof.
  intros Hfail. revert st. induction idxs as [|i rest IH]; intros st Hreach; simpl; [eauto|].
  destruct (iteration_total_no_compile lin i st Hfail Hreach) as [c Hit]. rewrite Hit. simpl.
  pose proof (reach_step lin i st c Hreach Hit) as Hc.
  destruct c as [st1|st1]; simpl in *; [by apply IH|eauto].
Qed.

(** X11. If no kernel compiles, a search that misses the cache still
    returns, whatever the timer and the logarithm do: it returns the input
    kernel, never calls the timer, completes no rollout and leaves every
    visit count at zero. *)
Theorem nothing_compiles_returns_input lin amt d :
  (forall k, compile_fn W k = None) ->
  cache_lookup d (make_key lin amt) = None ->
  exists out, mcts_search lin amt d = Ok out /\ ret out = lin /\
    timed (trace out) = [] /\ rollouts (trace out) = [] /\
    forall v nd, final_tree out !! v = Some nd -> n nd = 0.
Proof.
  intros Hfail Hmiss. rewrite (mcts_search_miss _ _ _ Hmiss).
  destruct (run_total_no_compile lin (py_range amt) (init_state lin) Hfail (reach_init lin))
    as [st Hrun].
  rewrite Hrun. simpl. eexists. split; [reflexivity|]. simpl.
  assert (Hreach : reachable lin st) by (eapply run_reachable; [apply reach_init|done]).
  destruct (no_compile_no_rollout lin st Hfail Hreach) as [Hro Hzero].
  pose proof (reachable_inv_tree lin st Hreach) as Hit.
  split.
  { destruct (it_best lin st Hit) as [[Hb _]|(r & _ & Hr & _)]; [done|].
    rewrite Hro in Hr. by apply elem_of_nil in Hr. }
  split; [by rewrite (it_timed lin st Hit), Hro|]. done.
Qed.

(** ** Expansion *)

(** X12. Expanding a node of the arena gives it one new child per kernel
    that the action generator returns for its kernel, in the order of the
    generator: each child holds that kernel, has the node as parent, no
    visit, no reward and is unexpanded.  With no action the node becomes
    expanded with an empty collection, which differs from unexpanded.  The
    other nodes are untouched, and the node keeps its kernel, counts and
    parent. *)
Theorem expand_node_children (a : arena) node nd :
  a !! node = Some nd ->
  exists a1 kids,
    expand_node a node = Ok a1 /\
    a1 !! node = Some (mkNode (kernel nd) (t nd) (n nd) (parent nd) (Some kids)) /\
    Forall2 (fun c k => a1 !! c = Some (mkNode k 0%float 0 (Some node) None) /\
                        length a <= c)
            kids (get_kernel_actions W (kernel nd)) /\
    NoDup kids /\
    (get_kernel_actions W (kernel nd) = [] -> kids = [] /\ length a1 = length a) /\
    length a1 = length a + length kids /\
    forall v, v <> node -> v < length a -> a1 !! v = a !! v.
Proof.
  intros Hnd. destruct (expand_node_spec a node nd Hnd) as (a1 & Hex & Hlen & Hn1 & Hold & Hnew).
  exists a1, (seq (length a) (length (get_kernel_actions W (kernel nd)))).
  split; [done|]. split; [done|]. split.
  - apply Forall2_same_length_lookup. split; [by rewrite length_seq|].
    intros j c k Hc Hk. apply lookup_seq in Hc as [-> Hj].
    split; [|lia]. rewrite Hnew by lia.
    replace (length a + j - length a) with j by lia. by rewrite Hk.
  - split; [apply NoDup_seq|]. split.
    + intros Hks. rewrite Hks in *. simpl in *. split; [done|lia].
    + rewrite length_seq. done.
Qed.

End Search.

Arguments kernel {W} _.
Arguments t {W} _.
Arguments n {W} _.
Arguments parent {W} _.
Arguments children {W} _.
Arguments tree {W} _.
Arguments best {W} _.
Arguments best_tm {W} _.
Arguments events {W} _.
Arguments ret {W} _.
Arguments disk {W} _.
Arguments final_tree {W} _.
Arguments trace {W} _.
Arguments Continue {W} _.
Arguments Break {W} _.
Arguments state_of {W} _.
Arguments EvExpand {W} _ _.
Arguments EvCompile {W} _ _ _.
Arguments EvPrune {W} _ _.
Arguments EvTime {W} _ _ _.
Arguments EvBackprop {W} _ _.
Arguments EvStop {W} _.
Arguments rollouts {W} _.
Arguments compiled {W} _.
Arguments timed {W} _.
Arguments new_events {W} _ _.
Arguments path {W} _ _.
Arguments descends {W} _ _ _.
Arguments compiled_nodes {W} _.
Arguments pruned_nodes {W} _.

(** * The search on concrete inputs *)

Lemma toy_ln_nonneg acts comp tm : ln_nonneg (toy_world acts comp tm).
Proof.
  intros k. simpl. unfold toy_ln.
  destruct (0 <=? float_of_nat (S k) - 1)%float eqn:E; [exact E|reflexivity].
Qed.

Lemma leaf_timer_nonempty : timer_nonempty leaf_world.
Proof. intros i p e. discriminate. Qed.

Lemma tree_timer_nonempty : timer_nonempty tree_world.
Proof. intros i p e. discriminate. Qed.

Lemma toy_replay_law acts comp tm : replay_law (toy_world acts comp tm).
Proof. intros k o. reflexivity. Qed.

(** The search on [leaf_world] with a budget of three: the root is compiled,
    timed and credited, against the reading that it is only expanded. *)
Lemma terminal_root_search_counterexample :
  ~ (forall out, mcts_search leaf_world [] 3 [] = Ok out ->
       ret out = [] /\
       (exists r, final_tree out !! 0 = Some r /\ n r = 0) /\
       compiled (trace out) = [] /\ timed (trace out) = [] /\ rollouts (trace out) = []).
Proof.
  intros H. destruct (H _ eq_refl) as (_ & _ & Hc & _).
  vm_compute in Hc. discriminate Hc.
Qed.

Lemma terminal_root_search_witness :
  timer_nonempty leaf_world /\
  cache_lookup leaf_world [] (make_key leaf_world [] 3) = None /\
  get_kernel_actions leaf_world [] = [] /\
  exists out, mcts_search leaf_world [] 3 [] = Ok out /\ ret out = [] /\
    exists r, final_tree out !! 0 = Some r /\ n r = 1.
Proof.
  split; [apply leaf_timer_nonempty|]. split; [reflexivity|]. split; [reflexivity|].
  destruct (terminal_root_search leaf_world [] [] leaf_timer_nonempty eq_refl eq_refl)
    as (out & Hs & Hret & tm & Hmin & Htree & Htrace).
  exists out. split; [exact Hs|]. split; [exact Hret|].
  rewrite Htree. eexists. split; reflexivity.
Defined.

Lemma compile_failure_is_pruned_witness :
  let st := state_after tree_world [] [0] in
  let nd := new_node tree_world [1] (Some 0) in
  ln_nonneg tree_world /\ timer_nonempty tree_world /\ reachable tree_world [] st /\
  descend tree_world (length (tree st)) (tree st) 0 = Ok 1 /\
  tree st !! 1 = Some nd /\ children nd = None /\
  compile_fn tree_world (kernel nd) = None /\
  exists st', iteration tree_world 1 st = Ok (Continue st') /\
    rollouts (events st') = rollouts (events st) /\
    exists pn' cs', tree st' !! 0 = Some pn' /\ children pn' = Some cs' /\ 1 ∉ cs'.
Proof.
  intros st nd.
  assert (Hd : descend tree_world (length (tree st)) (tree st) 0 = Ok 1)
    by (vm_compute; reflexivity).
  assert (Hnd : tree st !! 1 = Some nd) by (vm_compute; reflexivity).
  split; [apply toy_ln_nonneg|]. split; [apply tree_timer_nonempty|].
  split; [apply state_after_reachable|]. split; [exact Hd|]. split; [exact Hnd|].
  split; [reflexivity|]. split; [reflexivity|].
  destruct (compile_failure_is_pruned tree_world [] st 1 1 nd
              (toy_ln_nonneg _ _ _) tree_timer_nonempty (state_after_reachable _ _ _)
              Hd Hnd eq_refl eq_refl) as [(st' & Hit & _ & _ & _ & Hroll & _ & _ & Hprune) _].
  exists st'. split; [exact Hit|]. split; [exact Hroll|].
  simpl in Hprune. destruct Hprune as (pn & cs & pn' & cs' & _ & _ & _ & Hpn' & Hcs' & Hout & _).
  exists pn', cs'. split; [exact Hpn'|]. split; [exact Hcs'|exact Hout].
Defined.

Lemma select_child_first_max_witness :
  let a := tree (state_after tree_world [] (seq 0 5)) in
  let nd := default (new_node tree_world [] None) (a !! 2) in
  ln_nonneg tree_world /\ wf tree_world a /\ a !! 2 = Some nd /\
  children nd = Some [5; 6] /\ [5; 6] <> [] /\
  (forall c cn, c ∈ [5; 6] -> a !! c = Some cn -> 0 < n cn ->
     not_nan (spec_score tree_world nd cn)) /\
  exists j c, select_child tree_world a nd [5; 6] = Ok c /\ [5; 6] !! j = Some c.
Proof.
  intros a nd.
  assert (Hwf : wf tree_world a)
    by (apply inv_wf, (reachable_inv tree_world []), state_after_reachable).
  assert (Hnd : a !! 2 = Some nd) by (vm_compute; reflexivity).
  assert (Hcs : children nd = Some [5; 6]) by (vm_compute; reflexivity).
  assert (Hnan : forall c cn, c ∈ [5; 6] -> a !! c = Some cn -> 0 < n cn ->
                   not_nan (spec_score tree_world nd cn)).
  { intros c cn Hc Hcn _.
    apply elem_of_cons in Hc as [->|Hc]; [|apply elem_of_cons in Hc as [->|Hc]].
    - vm_compute in Hcn. inversion Hcn; subst cn. vm_compute. reflexivity.
    - vm_compute in Hcn. inversion Hcn; subst cn. vm_compute. reflexivity.
    - by apply elem_of_nil in Hc. }
  split; [apply toy_ln_nonneg|]. split; [exact Hwf|]. split; [exact Hnd|].
  split; [exact Hcs|]. split; [discriminate|]. split; [exact Hnan|].
  destruct (select_child_first_max tree_world a 2 nd [5; 6] (toy_ln_nonneg _ _ _) Hwf Hnd Hcs
              ltac:(discriminate) Hnan) as (_ & _ & j & c & cn & Hsel & Hj & _).
  exists j, c. split; [exact Hsel|exact Hj].
Defined.

Lemma visit_accounting_witness :
  let st := state_after tree_world [] (seq 0 5) in
  reachable tree_world [] st /\
  exists r, tree st !! 0 = Some r /\ n r = length (rollouts (events st)).
Proof.
  intros st. split; [apply state_after_reachable|].
  apply (visit_accounting tree_world [] st), state_after_reachable.
Defined.

Lemma cache_round_trip_witness :
  let d := [(make_key tree_world [5] 7, [5; 6; 7])] in
  replay_law tree_world /\ IGNORE_BEAM_CACHE tree_world = 0%Z /\
  (1 <= CACHELEVEL tree_world)%Z /\
  diskcache_get tree_world d "mcts_search" (make_key tree_world [5] 7) = Some [5; 6; 7] /\
  [5; 6; 7] = applied_opts tree_world [5] ++ [6; 7] /\
  exists out, mcts_search tree_world [5] 7 d = Ok out /\
    applied_opts tree_world (ret out) = [5; 6; 7] /\ trace out = [].
Proof.
  intros d. split; [apply toy_replay_law|]. split; [reflexivity|]. split; [simpl; lia|].
  split; [reflexivity|]. split; [reflexivity|].
  destruct (cache_round_trip tree_world [5] 7 d [5; 6; 7] [6; 7] (toy_replay_law _ _ _)
              eq_refl ltac:(simpl; lia) eq_refl eq_refl)
    as (out & Hs & Hopts & _ & _ & Htrace & _).
  exists out. split; [exact Hs|]. split; [exact Hopts|exact Htrace].
Defined.

(** The first iteration on [tree_world] compiles the kernel of the root,
    which is the kernel of neither child that it creates. *)
Lemma compiles_new_child_counterexample :
  ~ compiles_new_child tree_world (init_state tree_world []) (state_after tree_world [] [0]).
Proof.
  intros H.
  destruct (H 0 [] true) as (x & kids & c & cn & Hexp & Hc & Hcn & Hk).
  { apply list_elem_of_lookup. exists 1. vm_compute. reflexivity. }
  apply list_elem_of_lookup in Hexp as [j Hexp].
  destruct j as [|[|[|[|j]]]]; vm_compute in Hexp; inversion Hexp; subst x kids.
  apply elem_of_cons in Hc as [->|Hc]; [|apply elem_of_cons in Hc as [->|Hc]].
  - vm_compute in Hcn. inversion Hcn; subst cn. discriminate Hk.
  - vm_compute in Hcn. inversion Hcn; subst cn. discriminate Hk.
  - by apply elem_of_nil in Hc.
Qed.

Lemma compiles_selected_node_witness :
  let st := state_after tree_world [] [0; 1] in
  let c := Continue (state_after tree_world [] [0; 1; 2]) in
  reachable tree_world [] st /\ iteration tree_world 2 st = Ok c /\
  @EvCompile tree_world 2 [2] true ∈ new_events st (state_of c) /\
  exists nd, tree st !! 2 = Some nd /\ kernel nd = [2] /\
             EvExpand 2 (new_kids tree_world st nd) ∈ new_events st (state_of c).
Proof.
  intros st c.
  assert (Hit : iteration tree_world 2 st = Ok c) by (vm_compute; reflexivity).
  assert (Hev : @EvCompile tree_world 2 [2] true ∈ new_events st (state_of c)).
  { apply list_elem_of_lookup. exists 1. vm_compute. reflexivity. }
  split; [apply state_after_reachable|]. split; [exact Hit|]. split; [exact Hev|].
  destruct (compiles_selected_node tree_world [] st 2 c 2 [2] true
              (state_after_reachable _ _ _) Hit Hev)
    as (nd & _ & Hnd & _ & Hk & Hexp & _).
  exists nd. split; [exact Hnd|]. split; [symmetry; exact Hk|exact Hexp].
Defined.

Lemma terminal_node_stops_search_witness :
  let st := state_after tree_world [] (seq 0 5) in
  let nd := default (new_node tree_world [] None) (tree st !! 6) in
  reachable tree_world [] st /\ descends (tree st) 0 6 /\
  tree st !! 6 = Some nd /\ children nd = Some [] /\
  run tree_world [5; 6; 7] st =
    Ok (mkState tree_world (tree st) (best st) (best_tm st) (events st ++ [EvStop 5])).
Proof.
  intros st nd.
  assert (Hdesc : descends (tree st) 0 6).
  { eapply descends_step; [reflexivity|reflexivity|vm_compute; reflexivity|].
    eapply descends_step; [reflexivity|reflexivity|vm_compute; reflexivity|].
    apply descends_here. }
  assert (Hnd : tree st !! 6 = Some nd) by (vm_compute; reflexivity).
  assert (Hcs : children nd = Some []) by (vm_compute; reflexivity).
  split; [apply state_after_reachable|]. split; [exact Hdesc|]. split; [exact Hnd|].
  split; [exact Hcs|].
  apply (terminal_node_stops_search tree_world [] st 5 [6; 7] 6 nd
           (state_after_reachable _ _ _) Hdesc Hnd Hcs).
Defined.

Lemma best_is_monotonic_witness :
  let st := state_after tree_world [] [0; 1] in
  let st' := state_after tree_world [] [0; 1; 2; 3] in
  reachable tree_world [] st /\ run tree_world [2; 3] st = Ok st' /\
  (best_tm st' <=? best_tm st)%float = true.
Proof.
  intros st st'.
  assert (Hrun : run tree_world [2; 3] st = Ok st') by (vm_compute; reflexivity).
  split; [apply state_after_reachable|]. split; [exact Hrun|].
  apply (best_is_monotonic tree_world [] st (state_after_reachable _ _ _)) with (idxs := [2; 3]).
  exact Hrun.
Defined.

Lemma terminal_root_returns_input_witness :
  timer_nonempty leaf_world /\
  cache_lookup leaf_world [] (make_key leaf_world [7] 10000) = None /\
  get_kernel_actions leaf_world [7] = [] /\
  exists out, mcts_search leaf_world [7] 10000 [] = Ok out /\ ret out = [7].
Proof.
  split; [apply leaf_timer_nonempty|]. split; [reflexivity|]. split; [reflexivity|].
  apply (terminal_root_returns_input leaf_world [7] 10000 [] leaf_timer_nonempty eq_refl eq_refl).
Defined.

Lemma score_is_defined_witness :
  let st := state_after tree_world [] (seq 0 5) in
  let pn := default (new_node tree_world [] None) (tree st !! 2) in
  let cn := default (new_node tree_world [] None) (tree st !! 5) in
  reachable tree_world [] st /\ tree st !! 2 = Some pn /\ children pn = Some [5; 6] /\
  5 ∈ [5; 6] /\ tree st !! 5 = Some cn /\ 0 < n cn /\
  n cn <= n pn /\ 1 <= n pn.
Proof.
  intros st pn cn.
  assert (Hpn : tree st !! 2 = Some pn) by (vm_compute; reflexivity).
  assert (Hcs : children pn = Some [5; 6]) by (vm_compute; reflexivity).
  assert (Hcn : tree st !! 5 = Some cn) by (vm_compute; reflexivity).
  assert (Hpos : 0 < n cn) by (vm_compute; lia).
  assert (Hin : 5 ∈ [5; 6]) by (by left).
  split; [apply state_after_reachable|]. split; [exact Hpn|]. split; [exact Hcs|].
  split; [exact Hin|]. split; [exact Hcn|]. split; [exact Hpos|].
  destruct (score_is_defined tree_world [] st 2 pn [5; 6] 5 cn
              (state_after_reachable _ _ _) Hpn Hcs Hin Hcn Hpos) as (H1 & H2 & _).
  split; [exact H1|exact H2].
Defined.

(** ** Further properties on concrete inputs *)

Lemma key_eqb_refl k : key_eqb k k = true.
Proof.
  unfold key_eqb. by rewrite !String.eqb_refl, Z.eqb_refl.
Qed.

Lemma toy_cache_law acts comp tm : cache_law (toy_world acts comp tm).
Proof. intros d tbl key v. simpl. by rewrite key_eqb_refl. Qed.

Lemma tree_actions_extend : actions_extend tree_world.
Proof.
  intros k k' Hk. simpl in Hk. destruct (length k <? 2)%nat.
  - apply elem_of_cons in Hk as [->|Hk]; [by exists 1|].
    apply elem_of_cons in Hk as [->|Hk]; [by exists 2|]. by apply elem_of_nil in Hk.
  - by apply elem_of_nil in Hk.
Qed.

Lemma search_tree_is_a_tree_witness :
  let st := state_after tree_world [] (seq 0 5) in
  reachable tree_world [] st /\
  forall v nd, tree st !! v = Some nd -> 0 ∈ path (tree st) v.
Proof.
  intros st. split; [apply state_after_reachable|].
  apply (search_tree_is_a_tree tree_world [] st), state_after_reachable.
Defined.

Lemma returns_fastest_measured_witness :
  cache_lookup tree_world [] (make_key tree_world [] 8) = None /\
  exists out, mcts_search tree_world [] 8 [] = Ok out /\ ret out = [2; 2] /\
    exists r nd, r ∈ rollouts (trace out) /\ final_tree out !! fst r = Some nd /\
      kernel nd = ret out /\
      forall r', r' ∈ rollouts (trace out) -> (snd r' <? snd r)%float = false.
Proof.
  split; [reflexivity|].
  destruct (mcts_search tree_world [] 8 []) as [out|] eqn:Hs; [|vm_compute in Hs; discriminate Hs].
  exists out. split; [reflexivity|].
  assert (Hret : ret out = [2; 2]) by (vm_compute in Hs; by inversion Hs).
  split; [exact Hret|].
  destruct (returns_fastest_measured tree_world [] 8 [] out eq_refl Hs)
    as [[Hlin _]|(r & nd & Hr & Hnd & Hk & _ & Hmin)].
  - rewrite Hret in Hlin. discriminate Hlin.
  - exists r, nd. split; [exact Hr|]. split; [exact Hnd|]. split; [exact Hk|exact Hmin].
Defined.

Lemma compiles_each_node_once_witness :
  let st := state_after tree_world [] (seq 0 5) in
  reachable tree_world [] st /\
  NoDup (compiled_nodes (events st)) /\
  timed (events st) `sublist_of` compiled_nodes (events st).
Proof.
  intros st. split; [apply state_after_reachable|].
  destruct (compiles_each_node_once tree_world [] st (state_after_reachable _ _ _))
    as (H1 & _ & H2 & _).
  split; [exact H1|exact H2].
Defined.

Lemma search_respects_budget_witness :
  cache_lookup tree_world [] (make_key tree_world [] 8) = None /\
  exists out, mcts_search tree_world [] 8 [] = Ok out /\
    length (compiled (trace out)) <= Z.to_nat 8 /\
    length (timed (trace out)) <= length (compiled (trace out)).
Proof.
  split; [reflexivity|].
  destruct (mcts_search tree_world [] 8 []) as [out|] eqn:Hs; [|vm_compute in Hs; discriminate Hs].
  exists out. split; [reflexivity|].
  destruct (search_respects_budget tree_world [] 8 [] out eq_refl Hs) as (H1 & H2 & _).
  split; [exact H1|exact H2].
Defined.

Lemma tree_only_grows_witness :
  let st := state_after tree_world [] [0; 1] in
  let st' := state_after tree_world [] [0; 1; 2; 3] in
  reachable tree_world [] st /\ run tree_world [2; 3] st = Ok st' /\
  length (tree st) <= length (tree st') /\
  exists new, events st' = events st ++ new.
Proof.
  intros st st'.
  assert (Hrun : run tree_world [2; 3] st = Ok st') by (vm_compute; reflexivity).
  split; [apply state_after_reachable|]. split; [exact Hrun|].
  destruct (tree_only_grows tree_world [] [2; 3] st st' (state_after_reachable _ _ _) Hrun)
    as (H1 & _ & H2).
  split; [exact H1|exact H2].
Defined.

Lemma kernels_derive_from_input_witness :
  cache_lookup tree_world [] (make_key tree_world [] 8) = None /\
  exists out, mcts_search tree_world [] 8 [] = Ok out /\
    derivable tree_world [] (ret out).
Proof.
  split; [reflexivity|].
  destruct (mcts_search tree_world [] 8 []) as [out|] eqn:Hs; [|vm_compute in Hs; discriminate Hs].
  exists out. split; [reflexivity|].
  apply (kernels_derive_from_input tree_world [] 8 [] out eq_refl Hs).
Defined.

Lemma second_search_hits_cache_witness :
  replay_law tree_world /\ cache_law tree_world /\ actions_extend tree_world /\
  IGNORE_BEAM_CACHE tree_world = 0%Z /\ (1 <= CACHELEVEL tree_world)%Z /\
  cache_lookup tree_world [] (make_key tree_world [] 8) = None /\
  exists out, mcts_search tree_world [] 8 [] = Ok out /\
    exists out', mcts_search tree_world [] 8 (disk out) = Ok out' /\
      applied_opts tree_world (ret out') = applied_opts tree_world (ret out) /\
      trace out' = [].
Proof.
  split; [apply toy_replay_law|]. split; [apply toy_cache_law|].
  split; [apply tree_actions_extend|]. split; [reflexivity|]. split; [simpl; lia|].
  split; [reflexivity|].
  destruct (mcts_search tree_world [] 8 []) as [out|] eqn:Hs; [|vm_compute in Hs; discriminate Hs].
  exists out. split; [reflexivity|].
  destruct (second_search_hits_cache tree_world [] 8 [] out (toy_replay_law _ _ _)
              (toy_cache_law _ _ _) tree_actions_extend eq_refl ltac:(simpl; lia) eq_refl Hs)
    as (out' & Hs' & Hopts & _ & Htrace & _).
  exists out'. split; [exact Hs'|]. split; [exact Hopts|exact Htrace].
Defined.

Lemma empty_budget_returns_input_witness :
  (-3 <= 0)%Z /\ cache_lookup tree_world [] (make_key tree_world [4] (-3)) = None /\
  exists out, mcts_search tree_world [4] (-3) [] = Ok out /\ ret out = [4] /\
    trace out = [].
Proof.
  split; [lia|]. split; [reflexivity|].
  destruct (empty_budget_returns_input tree_world [4] (-3) [] ltac:(lia) eq_refl)
    as (out & Hs & Hret & _ & Htrace & _).
  exists out. split; [exact Hs|]. split; [exact Hret|exact Htrace].
Defined.

Lemma descent_terminates_witness :
  let st := state_after tree_world [] (seq 0 5) in
  ln_nonneg tree_world /\ reachable tree_world [] st /\
  exists y, descend tree_world (length (tree st)) (tree st) 0 = Ok y /\
            descends (tree st) 0 y.
Proof.
  intros st. split; [apply toy_ln_nonneg|]. split; [apply state_after_reachable|].
  destruct (descent_terminates tree_world [] st (toy_ln_nonneg _ _ _)
              (state_after_reachable _ _ _)) as (y & ynd & Hd & _ & _ & Hdesc & _).
  exists y. split; [apply Hd; lia|exact Hdesc].
Defined.

Lemma pruned_node_never_selected_witness :
  let st := state_after tree_world [] [0; 1] in
  reachable tree_world [] st /\ 1 ∈ pruned_nodes (events st) /\
  1 <> 0 /\
  forall fuel y, descend tree_world fuel (tree st) 0 = Ok y -> y <> 1.
Proof.
  intros st.
  assert (Hpr : 1 ∈ pruned_nodes (events st)) by (vm_compute; by left).
  split; [apply state_after_reachable|]. split; [exact Hpr|].
  destruct (pruned_node_never_selected tree_world [] st 1 (state_after_reachable _ _ _) Hpr)
    as [Hne Hlater].
  split; [exact Hne|]. apply (Hlater [] st eq_refl).
Defined.

Lemma nothing_compiles_returns_input_witness :
  (forall k, compile_fn barren_world k = None) /\
  cache_lookup barren_world [] (make_key barren_world [] 6) = None /\
  exists out, mcts_search barren_world [] 6 [] = Ok out /\ ret out = [] /\
    timed (trace out) = [].
Proof.
  split; [reflexivity|]. split; [reflexivity|].
  destruct (nothing_compiles_returns_input barren_world [] 6 [] ltac:(reflexivity) eq_refl)
    as (out & Hs & Hret & Htimed & _).
  exists out. split; [exact Hs|]. split; [exact Hret|exact Htimed].
Defined.

Lemma expand_node_children_witness :
  let a := [new_node tree_world [] None] in
  a !! 0 = Some (new_node tree_world [] None) /\
  exists a1 kids, expand_node tree_world a 0 = Ok a1 /\
    Forall2 (fun c k => a1 !! c = Some (mkNode tree_world k 0%float 0 (Some 0) None) /\
                        length a <= c)
            kids [[1]; [2]].
Proof.
  intros a. split; [reflexivity|].
  destruct (expand_node_children tree_world a 0 (new_node tree_world [] None) eq_refl)
    as (a1 & kids & Hex & _ & Hall & _).
  exists a1, kids. split; [exact Hex|exact Hall].
Defined.

End MCTS.
